(** * doverifier: do-calculus proof search, checked against its specification

    A shallow embedding of [probability.py], [causal_equiv.py] and
    [find_proof.py].  SymPy atoms are identified by their printed names,
    networkx graphs by their node and edge collections; Python exceptions are
    explicit results. *)

From Stdlib Require Import List String Ascii ZArith Bool Arith Lia.
From Stdlib Require Import Permutation Sorted DecimalString Relations.
Import ListNotations.
Open Scope string_scope.
Open Scope list_scope.

(* ================================================================== *)
(** * Python results and exceptions *)
(* ================================================================== *)

(** The exception classes the modelled code can raise or meet.  The
    networkx exceptions carry no message: no caller looks at it. *)
Inductive exn : Type :=
| TypeError (msg : string)
| NetworkXError
| NodeNotFound
| IndexError.

(** [type(e).__name__] *)
Definition exn_class (e : exn) : string :=
  match e with
  | TypeError _ => "TypeError"
  | NetworkXError => "NetworkXError"
  | NodeNotFound => "NodeNotFound"
  | IndexError => "IndexError"
  end.

Inductive result (A : Type) : Type :=
| Ok (a : A)
| Raise (e : exn).
Arguments Ok {A} a.
Arguments Raise {A} e.

Definition bind {A B} (r : result A) (k : A -> result B) : result B :=
  match r with
  | Ok a => k a
  | Raise e => Raise e
  end.

Notation "x <- r ;; k" := (bind r (fun x => k))
  (at level 61, r at next level, right associativity).

(* ================================================================== *)
(** * Strings as Python compares and joins them *)
(* ================================================================== *)

Definition mem_str (x : string) (l : list string) : bool :=
  existsb (String.eqb x) l.

(** [sep.join(l)] *)
Fixpoint join (sep : string) (l : list string) : string :=
  match l with
  | [] => ""
  | [x] => x
  | x :: rest => x ++ sep ++ join sep rest
  end.

(** [sorted(l)] on strings: stable insertion by code-point order. *)
Fixpoint insert_str (x : string) (l : list string) : list string :=
  match l with
  | [] => [x]
  | y :: ys => if String.leb x y then x :: y :: ys else y :: insert_str x ys
  end.

Definition sort_str (l : list string) : list string :=
  fold_right insert_str [] l.

(* ================================================================== *)
(** * probability.py: conditions and terms *)
(* ================================================================== *)

(** A value is an integer literal or a symbol (the parser's [int(...)] and
    [Symbol(...)] branches); it is only printed and compared. *)
Inductive value : Type :=
| VInt (n : Z)
| VSym (s : string).

Definition str_value (v : value) : string :=
  match v with
  | VInt n => NilZero.string_of_int (Z.to_int n)
  | VSym s => s
  end.

(** A condition is [Do(var)] / [Do(var, value)], an equality [Eq(lhs, rhs)]
    or a bare [Symbol]. *)
Inductive condition : Type :=
| Do (var : string) (val : option value)
| Eq (lhs : string) (rhs : value)
| Sym (name : string).

(** An outcome is a symbol or an equality. *)
Inductive outcome : Type :=
| OSym (name : string)
| OEq (lhs : string) (rhs : value).

Definition isinstance_Do (c : condition) : bool :=
  match c with Do _ _ => true | _ => false end.

(** [Do.__str__] *)
Definition str_Do (var : string) (val : option value) : string :=
  match val with
  | None => "do(" ++ var ++ ")"
  | Some v => "do(" ++ var ++ "=" ++ str_value v ++ ")"
  end.

(** SymPy's [str] of an equality *)
Definition str_Eq (lhs : string) (rhs : value) : string :=
  "Eq(" ++ lhs ++ ", " ++ str_value rhs ++ ")".

(** [str(cond)] *)
Definition str_condition (c : condition) : string :=
  match c with
  | Do var val => str_Do var val
  | Eq lhs rhs => str_Eq lhs rhs
  | Sym name => name
  end.

(** [str(outcome)] *)
Definition str_outcome (y : outcome) : string :=
  match y with
  | OSym name => name
  | OEq lhs rhs => str_Eq lhs rhs
  end.

(** ** [_condition_sort_key] *)

Definition sort_key : Type := (nat * string * string)%type.

Definition _condition_sort_key (c : condition) : sort_key :=
  match c with
  | Do var val =>
      (0, var, match val with Some v => str_value v | None => "" end)
  | Eq lhs rhs => (1, lhs, str_value rhs)
  | Sym name => (2, name, "")
  end.

(** Python's ordering of the key tuples: lexicographic, strings by code
    point. *)
Definition key_compare (a b : sort_key) : comparison :=
  let '(g1, v1, x1) := a in
  let '(g2, v2, x2) := b in
  match Nat.compare g1 g2 with
  | Datatypes.Eq =>
      match String.compare v1 v2 with
      | Datatypes.Eq => String.compare x1 x2
      | c => c
      end
  | c => c
  end.

Definition key_leb (a b : sort_key) : bool :=
  match key_compare a b with Gt => false | _ => true end.

Definition cond_leb (c d : condition) : bool :=
  key_leb (_condition_sort_key c) (_condition_sort_key d).

(** [sorted(conditions, key=_condition_sort_key)]: the stable sort. *)
Fixpoint insert_cond (c : condition) (l : list condition) : list condition :=
  match l with
  | [] => [c]
  | d :: ds => if cond_leb c d then c :: d :: ds else d :: insert_cond c ds
  end.

Definition sorted_conditions (l : list condition) : list condition :=
  fold_right insert_cond [] l.

(** ** [CausalProbability] *)

Record CausalProbability : Type := mkCP {
  _outcome : outcome;
  _conditions : list condition
}.

(** [CausalProbability.__new__(cls, outcome, *conditions)] *)
Definition CausalProbability_new (y : outcome) (conditions : list condition)
  : CausalProbability :=
  mkCP y (sorted_conditions conditions).

(** [_format_outcome] and [_format_condition] *)
Definition _format_outcome (y : outcome) : string :=
  match y with
  | OSym name => name
  | OEq lhs rhs => lhs ++ "=" ++ str_value rhs
  end.

Definition _format_condition (c : condition) : string :=
  match c with
  | Do var val => str_Do var val
  | Eq lhs rhs => lhs ++ "=" ++ str_value rhs
  | Sym name => name
  end.

(** [CausalProbability.__str__] *)
Definition str_CP (t : CausalProbability) : string :=
  match _conditions t with
  | [] => "P(" ++ _format_outcome (_outcome t) ++ ")"
  | cs => "P(" ++ _format_outcome (_outcome t) ++ " | "
          ++ join ", " (map _format_condition cs) ++ ")"
  end.

(** Structural equality of SymPy objects, as booleans. *)
Definition value_eqb (a b : value) : bool :=
  match a, b with
  | VInt x, VInt y => Z.eqb x y
  | VSym x, VSym y => String.eqb x y
  | _, _ => false
  end.

Definition opt_value_eqb (a b : option value) : bool :=
  match a, b with
  | None, None => true
  | Some x, Some y => value_eqb x y
  | _, _ => false
  end.

Definition condition_eqb (c d : condition) : bool :=
  match c, d with
  | Do v1 x1, Do v2 x2 => String.eqb v1 v2 && opt_value_eqb x1 x2
  | Eq l1 r1, Eq l2 r2 => String.eqb l1 l2 && value_eqb r1 r2
  | Sym a, Sym b => String.eqb a b
  | _, _ => false
  end.

Definition outcome_eqb (a b : outcome) : bool :=
  match a, b with
  | OSym x, OSym y => String.eqb x y
  | OEq l1 r1, OEq l2 r2 => String.eqb l1 l2 && value_eqb r1 r2
  | _, _ => false
  end.

Fixpoint list_eqb {A} (eqb : A -> A -> bool) (l1 l2 : list A) : bool :=
  match l1, l2 with
  | [], [] => true
  | x :: xs, y :: ys => eqb x y && list_eqb eqb xs ys
  | _, _ => false
  end.

(** [CausalProbability.__eq__] *)
Definition CP_eqb (a b : CausalProbability) : bool :=
  outcome_eqb (_outcome a) (_outcome b)
  && list_eqb condition_eqb (_conditions a) (_conditions b).

Definition mem_cond (c : condition) (l : list condition) : bool :=
  existsb (condition_eqb c) l.

(* ================================================================== *)
(** * networkx: the graph operations the code calls *)
(* ================================================================== *)

(** ** Reachability by bounded saturation

    [closure next n acc] adds to [acc], [n] times over, every vertex one
    [next]-step away.  With [n] the number of vertices this is the set the
    breadth-first searches of networkx compute ([closure_complete] below). *)
Section Reach.
Variable next : string -> list string.

Definition add_new (acc : list string) (x : string) : list string :=
  if mem_str x acc then acc else acc ++ [x].

Definition expand (acc : list string) : list string :=
  fold_left add_new (flat_map next acc) acc.

Fixpoint closure (n : nat) (acc : list string) : list string :=
  match n with
  | 0 => acc
  | S k => closure k (expand acc)
  end.
End Reach.

(** ** [nx.DiGraph] *)

Record DiGraph : Type := mkDiGraph {
  nodes : list string;
  edges : list (string * string)
}.

Definition edge_eqb (e f : string * string) : bool :=
  String.eqb (fst e) (fst f) && String.eqb (snd e) (snd f).

Definition mem_edge (e : string * string) (l : list (string * string)) : bool :=
  existsb (edge_eqb e) l.

Definition empty_DiGraph : DiGraph := mkDiGraph [] [].

Definition has_node (G : DiGraph) (n : string) : bool := mem_str n (nodes G).

Definition has_edge (G : DiGraph) (u v : string) : bool :=
  mem_edge (u, v) (edges G).

Definition add_node (G : DiGraph) (n : string) : DiGraph :=
  mkDiGraph (add_new (nodes G) n) (edges G).

Definition add_edge (G : DiGraph) (u v : string) : DiGraph :=
  let G' := add_node (add_node G u) v in
  if has_edge G' u v then G' else mkDiGraph (nodes G') (edges G' ++ [(u, v)]).

Definition remove_edge (G : DiGraph) (u v : string) : DiGraph :=
  mkDiGraph (nodes G) (filter (fun e => negb (edge_eqb e (u, v))) (edges G)).

Definition remove_edges_from (G : DiGraph) (es : list (string * string))
  : DiGraph :=
  mkDiGraph (nodes G) (filter (fun e => negb (mem_edge e es)) (edges G)).

Definition successors (G : DiGraph) (n : string) : list string :=
  map snd (filter (fun e => String.eqb (fst e) n) (edges G)).

Definition predecessors (G : DiGraph) (n : string) : list string :=
  map fst (filter (fun e => String.eqb (snd e) n) (edges G)).

(** [G.subgraph(keep).copy()] *)
Definition subgraph (G : DiGraph) (keep : list string) : DiGraph :=
  mkDiGraph (filter (fun n => mem_str n keep) (nodes G))
            (filter (fun e => mem_str (fst e) keep && mem_str (snd e) keep)
                    (edges G)).

(** [nx.ancestors(G, source)]: raises [NetworkXError] on a missing node. *)
Definition ancestors (G : DiGraph) (source : string) : result (list string) :=
  if has_node G source
  then Ok (filter (fun n => negb (String.eqb n source))
                  (closure (predecessors G) (List.length (nodes G)) [source]))
  else Raise NetworkXError.

(** [nx.has_path(G, source, target)]: raises [NodeNotFound], which is not a
    [NetworkXError], when an endpoint is missing. *)
Definition has_path (G : DiGraph) (source target : string) : result bool :=
  if has_node G source && has_node G target
  then Ok (mem_str target
             (closure (successors G) (List.length (nodes G)) [source]))
  else Raise NodeNotFound.

(** [nx.is_directed_acyclic_graph(G)]: no vertex is reachable from one of
    its own successors. *)
Definition is_directed_acyclic_graph (G : DiGraph) : bool :=
  negb (existsb
          (fun v => mem_str v (closure (successors G) (List.length (nodes G))
                                 (successors G v)))
          (nodes G)).

(** ** [nx.Graph] (undirected) *)

Record Graph : Type := mkGraph {
  gnodes : list string;
  gedges : list (string * string)
}.

Definition Graph_has_node (M : Graph) (n : string) : bool :=
  mem_str n (gnodes M).

Definition neighbors (M : Graph) (n : string) : list string :=
  flat_map (fun e => (if String.eqb (fst e) n then [snd e] else [])
                     ++ (if String.eqb (snd e) n then [fst e] else []))
           (gedges M).

Definition Graph_remove_nodes_from (M : Graph) (ns : list string) : Graph :=
  mkGraph (filter (fun n => negb (mem_str n ns)) (gnodes M))
          (filter (fun e => negb (mem_str (fst e) ns)
                            && negb (mem_str (snd e) ns)) (gedges M)).

Definition Graph_has_path (M : Graph) (source target : string) : result bool :=
  if Graph_has_node M source && Graph_has_node M target
  then Ok (mem_str target
             (closure (neighbors M) (List.length (gnodes M)) [source]))
  else Raise NodeNotFound.

(* ================================================================== *)
(** * causal_equiv.py: the d-separation oracle *)
(* ================================================================== *)

(** [for i in range(len(parents)): for j in range(i + 1, len(parents))] *)
Fixpoint parent_pairs (parents : list string) : list (string * string) :=
  match parents with
  | [] => []
  | p :: ps => map (pair p) ps ++ parent_pairs ps
  end.

(** The moral graph of [G_anc]: skeleton plus an edge between every two
    parents of a common child. *)
Definition moralize (G_anc : DiGraph) : Graph :=
  mkGraph (nodes G_anc)
          (edges G_anc
           ++ flat_map (fun child => parent_pairs (predecessors G_anc child))
                       (nodes G_anc)).

(** [for n in nodes_of_interest: anc |= nx.ancestors(graph, n)] *)
Fixpoint collect_ancestors (graph : DiGraph) (todo anc : list string)
  : result (list string) :=
  match todo with
  | [] => Ok anc
  | n :: rest =>
      a <- ancestors graph n ;;
      collect_ancestors graph rest (fold_left add_new a anc)
  end.

Definition is_d_separated (graph : DiGraph) (start end_ : string)
    (conditioned_set : list string) : result bool :=
  let Z := conditioned_set in
  if String.eqb start end_ then Ok false
  else if negb (has_node graph start) || negb (has_node graph end_)
  then Ok true
  else
    let nodes_of_interest := start :: end_ :: Z in
    anc <- collect_ancestors graph nodes_of_interest nodes_of_interest ;;
    let G_anc := subgraph graph anc in
    let moral := moralize G_anc in
    let moral :=
      Graph_remove_nodes_from moral
        (filter (fun z => Graph_has_node moral z) Z) in
    if negb (Graph_has_node moral start) || negb (Graph_has_node moral end_)
    then Ok true
    else b <- Graph_has_path moral start end_ ;; Ok (negb b).

(* ================================================================== *)
(** * causal_equiv.py: [CausalExpr] and the rule enumerators *)
(* ================================================================== *)

(** The user's parent-to-children mapping; keys and children are named by
    their [str]. *)
Definition causal_structure : Type := list (string * list string).

(** [CausalExpr._build_graph]: first every node, then every edge.  The cycle
    check that follows in the source only logs. *)
Definition _build_graph (cs : causal_structure) : DiGraph :=
  let G :=
    fold_left
      (fun G pc => fold_left add_node (snd pc) (add_node G (fst pc)))
      cs empty_DiGraph in
  fold_left
    (fun G pc => fold_left (fun G child => add_edge G (fst pc) child) (snd pc) G)
    cs G.

Record CausalExpr : Type := mkCausalExpr {
  expression : CausalProbability;
  graph : DiGraph
}.

(** [CausalExpr(expression, causal_structure)] *)
Definition CausalExpr_init (expression : CausalProbability)
    (cs : causal_structure) : CausalExpr :=
  mkCausalExpr expression (_build_graph cs).

Definition _custom_d_separation (X Y : string) (Z : list string)
    (graph : DiGraph) : result bool :=
  is_d_separated graph X Y Z.

(** Remove the incoming edges of one node / the outgoing edges of one node, as
    the list comprehension followed by [remove_edges_from] does. *)
Definition remove_incoming (g : DiGraph) (X : string) : DiGraph :=
  remove_edges_from g (filter (fun e => String.eqb (snd e) X) (edges g)).

Definition remove_outgoing (g : DiGraph) (Z : string) : DiGraph :=
  remove_edges_from g (filter (fun e => String.eqb (fst e) Z) (edges g)).

Definition _create_intervention_graph (ce : CausalExpr)
    (do_vars : list string) : DiGraph :=
  fold_left remove_incoming do_vars (graph ce).

(** The variables of the [Do] conditions and of the other conditions, the
    latter normalised from [Eq(X, v)] to [X]. *)
Definition do_vars_of (conditions : list condition) : list string :=
  flat_map (fun c => match c with Do v _ => [v] | _ => [] end) conditions.

Definition obs_vars_of (conditions : list condition) : list string :=
  flat_map (fun c => match c with
                     | Do _ _ => []
                     | Eq lhs _ => [lhs]
                     | Sym name => [name]
                     end) conditions.

(** [enumerate] restricted to the [Do] conditions: index and variable. *)
Fixpoint do_entries_from (i : nat) (conditions : list condition)
  : list (nat * string) :=
  match conditions with
  | [] => []
  | Do v _ :: rest => (i, v) :: do_entries_from (S i) rest
  | _ :: rest => do_entries_from (S i) rest
  end.

Definition do_entries (conditions : list condition) : list (nat * string) :=
  do_entries_from 0 conditions.

(** The [outs] / [seen] pair: a candidate is appended unless its rendering
    was seen. *)
Definition emit (cand : CausalProbability)
    (st : list CausalProbability * list string)
  : list CausalProbability * list string :=
  let s := str_CP cand in
  if mem_str s (snd st) then st else (fst st ++ [cand], snd st ++ [s]).

(** Rule 1 drops the bare symbol [W] and every equality whose left side is
    [W]. *)
Definition dropped_by (W : string) (c : condition) : bool :=
  match c with
  | Do _ _ => false
  | Eq lhs _ => String.eqb lhs W
  | Sym name => String.eqb name W
  end.

Definition rule_1_candidate (Y : outcome) (conditions : list condition)
    (W : string) : CausalProbability :=
  CausalProbability_new Y (filter (fun c => negb (dropped_by W c)) conditions).

Definition apply_rule_1_all (ce : CausalExpr) : list CausalProbability :=
  let Y := _outcome (expression ce) in
  let conditions := _conditions (expression ce) in
  let do_vars := do_vars_of conditions in
  let obs_vars := obs_vars_of conditions in
  let g_x := _create_intervention_graph ce do_vars in
  fst (fold_left
         (fun st W =>
            let other_obs := filter (fun v => negb (String.eqb v W)) obs_vars in
            let conditioning_set := do_vars ++ other_obs in
            match _custom_d_separation (str_outcome Y) W conditioning_set g_x with
            | Ok true => emit (rule_1_candidate Y conditions W) st
            | Ok false => st
            | Raise _ => st            (* except Exception: continue *)
            end)
         obs_vars ([], [])).

(** [new_conditions[idx] = Z] *)
Fixpoint set_at (idx : nat) (c : condition) (l : list condition)
  : list condition :=
  match l, idx with
  | [], _ => []
  | _ :: rest, 0 => c :: rest
  | d :: rest, S i => d :: set_at i c rest
  end.

(** [[c for k, c in enumerate(conditions) if k != z_idx]] *)
Fixpoint remove_at (idx : nat) (l : list condition) : list condition :=
  match l, idx with
  | [], _ => []
  | _ :: rest, 0 => rest
  | d :: rest, S i => d :: remove_at i rest
  end.

Definition other_do_vars_of (entries : list (nat * string)) (idx : nat)
  : list string :=
  map snd (filter (fun e => negb (Nat.eqb (fst e) idx)) entries).

Definition rule_2_candidate (Y : outcome) (conditions : list condition)
    (idx : nat) (Z : string) : CausalProbability :=
  CausalProbability_new Y (set_at idx (Sym Z) conditions).

Definition apply_rule_2_all (ce : CausalExpr) : list CausalProbability :=
  let Y := _outcome (expression ce) in
  let conditions := _conditions (expression ce) in
  let entries := do_entries conditions in
  let obs_vars := obs_vars_of conditions in
  fst (fold_left
         (fun st e =>
            let '(idx, Z) := e in
            let other_do_vars := other_do_vars_of entries idx in
            let g_xz := fold_left remove_incoming other_do_vars (graph ce) in
            let g_xz := remove_outgoing g_xz Z in
            let conditioning_set := other_do_vars ++ obs_vars in
            match _custom_d_separation (str_outcome Y) Z conditioning_set g_xz with
            | Ok true => emit (rule_2_candidate Y conditions idx Z) st
            | Ok false => st
            | Raise _ => st            (* except Exception: pass *)
            end)
         entries ([], [])).

(** The ancestor test of Rule 3.  Only [NetworkXError] is caught; the
    [NodeNotFound] of [has_path] leaves the enumerator. *)
Fixpoint is_ancestor_of_obs (g_bar : DiGraph) (Z : string)
    (obs_vars : list string) : result bool :=
  match obs_vars with
  | [] => Ok false
  | W :: rest =>
      match has_path g_bar Z W with
      | Ok true => Ok true
      | Ok false => is_ancestor_of_obs g_bar Z rest
      | Raise NetworkXError => is_ancestor_of_obs g_bar Z rest
      | Raise e => Raise e
      end
  end.

Definition rule_3_candidate (Y : outcome) (conditions : list condition)
    (z_idx : nat) : CausalProbability :=
  CausalProbability_new Y (remove_at z_idx conditions).

Fixpoint rule_3_loop (ce : CausalExpr) (entries todo : list (nat * string))
    (st : list CausalProbability * list string)
  : result (list CausalProbability * list string) :=
  match todo with
  | [] => Ok st
  | (z_idx, Z) :: rest =>
      let Y := _outcome (expression ce) in
      let conditions := _conditions (expression ce) in
      let obs_vars := obs_vars_of conditions in
      let kept_do_vars := other_do_vars_of entries z_idx in
      let g_bar := fold_left remove_incoming kept_do_vars (graph ce) in
      is_anc <- is_ancestor_of_obs g_bar Z obs_vars ;;
      let g_test := if is_anc then g_bar else remove_incoming g_bar Z in
      let conditioning_set := kept_do_vars ++ obs_vars in
      rule_3_loop ce entries rest
        match _custom_d_separation (str_outcome Y) Z conditioning_set g_test with
        | Ok true => emit (rule_3_candidate Y conditions z_idx) st
        | Ok false => st
        | Raise _ => st                (* except Exception: pass *)
        end
  end.

Definition apply_rule_3_all (ce : CausalExpr)
  : result (list CausalProbability) :=
  let entries := do_entries (_conditions (expression ce)) in
  st <- rule_3_loop ce entries entries ([], []) ;;
  Ok (fst st).

(* ================================================================== *)
(** * find_proof.py: [CausalProofFinder] *)
(* ================================================================== *)

(** What [find_proof] is handed: a term, a sum in the form
    [as_ordered_terms] / [as_coeff_Mul] read it (coefficient and rest of each
    summand), or any other SymPy expression. *)
#[warnings="-register-all"]
Inductive expr : Type :=
| Term (t : CausalProbability)
| Atom (name : string)
| Add (summands : list (Z * expr)).

(** [sp.simplify] is SymPy's own rewriting (it cancels [A - A] to [0] and
    rebuilds the arguments of a term), so the functions that call it take it
    as a parameter [simplify : expr -> expr], and what is proved of them
    holds for every function in its place. *)

Definition step : Type := (string * CausalProbability)%type.

(** A proof finder after construction.  [max_depth] is a depth bound, a
    natural number. *)
Record CausalProofFinder : Type := mkFinder {
  finder_structure : causal_structure;
  max_depth : nat
}.

(** ** [_validate_causal_structure]

    [nx.simple_cycles] is a parameter: the order and the rotation of the
    cycles it lists are networkx's own, and the code depends on neither. *)

Inductive log_record : Type :=
| Warning_contains_cycles
    (* "Causal structure contains cycles! Attempting to break cycles." *)
| Warning_cycles_detected (cycles : list (list string))
| Info_removed_edge (edge : string * string)
| Info_fixed       (* "Causal structure fixed to an acyclic version." *)
| Error_fixing_cycles (e : exn).

(** The graph the validation builds: nodes and edges in one pass. *)
Definition validation_graph (cs : causal_structure) : DiGraph :=
  fold_left
    (fun G pc =>
       fold_left (fun G child => add_edge (add_node G child) (fst pc) child)
                 (snd pc) (add_node G (fst pc)))
    cs empty_DiGraph.

(** [(cycle[-1], cycle[0])] *)
Definition closing_edge (cycle : list string) : string * string :=
  (last cycle "", hd "" cycle).

(** The [for cycle in cycles] loop; indexing an empty cycle raises. *)
Fixpoint break_cycles (G_fixed : DiGraph) (cycles : list (list string))
    (log : list log_record) : result (DiGraph * list log_record) :=
  match cycles with
  | [] => Ok (G_fixed, log)
  | cycle :: rest =>
      match cycle with
      | [] => Raise IndexError
      | _ :: _ =>
          let edge := closing_edge cycle in
          if has_edge G_fixed (fst edge) (snd edge)
          then break_cycles (remove_edge G_fixed (fst edge) (snd edge)) rest
                 (log ++ [Info_removed_edge edge])
          else break_cycles G_fixed rest log
      end
  end.

(** The structure rebuilt from [G_fixed]: the nodes that have children. *)
Definition rebuild_structure (G_fixed : DiGraph) : causal_structure :=
  flat_map (fun node =>
              match successors G_fixed node with
              | [] => []
              | children => [(node, children)]
              end)
           (nodes G_fixed).

Section Validation.
Variable simple_cycles : DiGraph -> list (list string).

(** Returns the structure the finder keeps and what was logged. *)
Definition _validate_causal_structure (cs : causal_structure)
  : causal_structure * list log_record :=
  match cs with
  | [] => (cs, [])
  | _ :: _ =>
      let G := validation_graph cs in
      if is_directed_acyclic_graph G then (cs, [])
      else
        let cycles := simple_cycles G in
        match break_cycles G cycles [] with
        | Ok (G_fixed, removed) =>
            (rebuild_structure G_fixed,
             [Warning_contains_cycles; Warning_cycles_detected cycles]
             ++ removed ++ [Info_fixed])
        | Raise e =>
            (cs, [Warning_contains_cycles; Warning_cycles_detected cycles;
                  Error_fixing_cycles e])
        end
  end.

(** [CausalProofFinder(causal_structure, max_depth)] *)
Definition CausalProofFinder_init (cs : causal_structure) (max_depth : nat)
  : CausalProofFinder :=
  mkFinder (fst (_validate_causal_structure cs)) max_depth.

End Validation.

(** [set(a) == set(b)] on conditions *)
Definition set_eqb (a b : list condition) : bool :=
  forallb (fun c => mem_cond c b) a && forallb (fun c => mem_cond c a) b.

Definition do_conditions (t : CausalProbability) : list condition :=
  filter isinstance_Do (_conditions t).

Definition obs_conditions (t : CausalProbability) : list condition :=
  filter (fun c => negb (isinstance_Do c)) (_conditions t).

Definition _are_expressions_equivalent (expr1 expr2 : CausalProbability)
  : bool :=
  if negb (outcome_eqb (_outcome expr1) (_outcome expr2)) then false
  else set_eqb (do_conditions expr1) (do_conditions expr2)
       && set_eqb (obs_conditions expr1) (obs_conditions expr2).

(** The loop of [_as_subtraction_pair] over the ordered summands. *)
Fixpoint split_summands (ts : list (Z * expr)) (pos neg : list expr)
  : option (list expr * list expr) :=
  match ts with
  | [] => Some (pos, neg)
  | (coeff, rest) :: ts' =>
      if Z.eqb coeff 1 then split_summands ts' (pos ++ [rest]) neg
      else if Z.eqb coeff (-1) then split_summands ts' pos (neg ++ [rest])
      else None
  end.

Definition _as_subtraction_pair (simplify : expr -> expr) (e : expr)
  : option (expr * expr) :=
  match simplify e with
  | Add ts =>
      match split_summands ts [] [] with
      | Some ([a], [b]) => Some (a, b)
      | _ => None
      end
  | _ => None
  end.

Definition _state_key (t : CausalProbability) : string :=
  let do_vars := sort_str (map str_condition (do_conditions t)) in
  let obs_vars := sort_str (map str_condition (obs_conditions t)) in
  "Y=" ++ str_outcome (_outcome t) ++ "|DO=" ++ join "," do_vars
  ++ "|OBS=" ++ join "," obs_vars.

Definition rule_label (rule_num : nat) : string :=
  match rule_num with
  | 1 => "Do-calculus Rule 1"
  | 2 => "Do-calculus Rule 2"
  | _ => "Do-calculus Rule 3"
  end.

(** The outputs of the three enumerators in order, an enumerator that
    raises contributing nothing, each output tagged with its rule. *)
Definition rule_outputs (ce : CausalExpr) : list step :=
  map (pair (rule_label 1)) (apply_rule_1_all ce)
  ++ map (pair (rule_label 2)) (apply_rule_2_all ce)
  ++ match apply_rule_3_all ce with
     | Ok outs => map (pair (rule_label 3)) outs
     | Raise _ => []                   (* except Exception: continue *)
     end.

(** The final loop of [_do_calculus_successors]: first of each key. *)
Fixpoint uniq_by_key (successors : list step) (seen : list string)
  : list step :=
  match successors with
  | [] => []
  | (label, out) :: rest =>
      let k := _state_key out in
      if mem_str k seen then uniq_by_key rest seen
      else (label, out) :: uniq_by_key rest (seen ++ [k])
  end.

Definition _do_calculus_successors (self : CausalProofFinder)
    (e : CausalProbability) : list step :=
  let ce := CausalExpr_init e (finder_structure self) in
  let successors :=
    filter (fun s => negb (_are_expressions_equivalent (snd s) e))
           (rule_outputs ce) in
  uniq_by_key successors [].

(** ** The breadth-first search *)

Inductive search_result : Type :=
| Found (path : list step)
| NotFound                             (* [return None] *)
| OutOfFuel.                           (* the model's loop bound was hit *)

Inductive scan_result : Type :=
| Hit (path : list step)
| Carry (queue : list (CausalProbability * list step)) (visited : list string).

(** The [for rule_label, nxt in ...] loop of [_find_proof_single]. *)
Fixpoint scan_successors (target_expr : CausalProbability)
    (target_key : string) (path : list step) (succs : list step)
    (queue : list (CausalProbability * list step)) (visited : list string)
  : scan_result :=
  match succs with
  | [] => Carry queue visited
  | (label, nxt) :: rest =>
      let k := _state_key nxt in
      if mem_str k visited
      then scan_successors target_expr target_key path rest queue visited
      else
        let visited := visited ++ [k] in
        let new_path := path ++ [(label, nxt)] in
        if _are_expressions_equivalent nxt target_expr
           || String.eqb k target_key
        then Hit new_path
        else scan_successors target_expr target_key path rest
               (queue ++ [(nxt, new_path)]) visited
  end.

(** The [while queue] loop; [fuel] bounds its iterations. *)
Fixpoint bfs_loop (self : CausalProofFinder) (target_expr : CausalProbability)
    (target_key : string) (fuel : nat)
    (queue : list (CausalProbability * list step)) (visited : list string)
  : search_result :=
  match fuel with
  | 0 => OutOfFuel
  | S fuel' =>
      match queue with
      | [] => NotFound
      | (cur, path) :: queue' =>
          if Nat.leb (max_depth self) (List.length path)
          then bfs_loop self target_expr target_key fuel' queue' visited
          else if _are_expressions_equivalent cur target_expr
                  || String.eqb (_state_key cur) target_key
          then Found path
          else
            match scan_successors target_expr target_key path
                    (_do_calculus_successors self cur) queue' visited with
            | Hit new_path => Found new_path
            | Carry queue'' visited' =>
                bfs_loop self target_expr target_key fuel' queue'' visited'
            end
      end
  end.

Definition _find_proof_single (self : CausalProofFinder) (fuel : nat)
    (start_expr target_expr : CausalProbability) : search_result :=
  if _are_expressions_equivalent start_expr target_expr then Found []
  else
    let start_key := _state_key start_expr in
    let target_key := _state_key target_expr in
    bfs_loop self target_expr target_key fuel [(start_expr, [])] [start_key].

(** What [find_proof] returns. *)
Inductive answer : Type :=
| Proof (p : list step)
| AteProof (p_left p_right : list step)
                                 (* [[("ATE-left", ..), ("ATE-right", ..)]] *)
| NoProof                              (* [None] *)
| Unfinished.                          (* a search ran out of fuel *)

Definition msg_ate : string :=
  "ATE terms must be CausalProbability instances".

Definition msg_unsupported : string :=
  "Unsupported expression type: expected CausalProbability or A-B of CausalProbability".

Definition find_proof (simplify : expr -> expr) (self : CausalProofFinder)
    (fuel : nat) (start_expr target_expr : expr) : result answer :=
  match start_expr, target_expr with
  | Term s, Term t =>
      Ok match _find_proof_single self fuel s t with
         | Found p => Proof p
         | NotFound => NoProof
         | OutOfFuel => Unfinished
         end
  | _, _ =>
      let spair := _as_subtraction_pair simplify start_expr in
      let tpair := _as_subtraction_pair simplify target_expr in
      match spair, tpair with
      | Some (A1, B1), Some (A2, B2) =>
          match A1, B1, A2, B2 with
          | Term a1, Term b1, Term a2, Term b2 =>
              match _find_proof_single self fuel a1 a2 with
              | NotFound => Ok NoProof
              | OutOfFuel => Ok Unfinished
              | Found p_left =>
                  match _find_proof_single self fuel b1 b2 with
                  | NotFound => Ok NoProof
                  | OutOfFuel => Ok Unfinished
                  | Found p_right => Ok (AteProof p_left p_right)
                  end
              end
          | _, _, _, _ => Raise (TypeError msg_ate)
          end
      | _, _ => Raise (TypeError msg_unsupported)
      end
  end.

(* ================================================================== *)
(** * The specification's words, as definitions *)
(* ================================================================== *)








(** The shapes of the expressions handed to [find_proof]: "a single term",
    "a difference A - B". *)
Definition is_term (e : expr) : Prop := exists t, e = Term t.

Definition difference_of (e a b : expr) : Prop :=
  e = Add [(1%Z, a); ((-1)%Z, b)] \/ e = Add [((-1)%Z, b); (1%Z, a)].

Definition is_difference (e : expr) : Prop := exists a b, difference_of e a b.

Definition unsupported_shape (e : expr) : Prop :=
  ~ is_term e /\ ~ is_difference e.

(** What is known of [sp.simplify] on a term: it rebuilds the term from its
    simplified arguments, so a term comes back as a term, never as a sum. *)
Definition simplify_keeps_terms (simplify : expr -> expr) : Prop :=
  forall t, exists t', simplify (Term t) = Term t'.

(** Walks: [walk R s l t] goes from [s] to [t] through the vertices [l]
    (the last of which is [t]), each step in [R]. *)
Inductive walk (R : string -> string -> Prop)
  : string -> list string -> string -> Prop :=
| walk_nil (s : string) : walk R s [] s
| walk_cons (s u : string) (l : list string) (t : string) :
    R s u -> walk R u l t -> walk R s (u :: l) t.

Definition step_of (next : string -> list string) (x y : string) : Prop :=
  In y (next x).

Definition edge_rel (G : DiGraph) (u v : string) : Prop := In (u, v) (edges G).

(** The set an [nx.ancestors] call returns on a node of the graph. *)
Definition anc_list (G : DiGraph) (n : string) : list string :=
  filter (fun m => negb (String.eqb m n))
         (closure (predecessors G) (List.length (nodes G)) [n]).

(** The variable a condition is on, and the variables a term mentions. *)
Definition cond_var (c : condition) : string :=
  match c with
  | Do var _ => var
  | Eq lhs _ => lhs
  | Sym name => name
  end.

Definition outcome_var (y : outcome) : string :=
  match y with
  | OSym name => name
  | OEq lhs _ => lhs
  end.

Definition term_vars (t : CausalProbability) : list string :=
  outcome_var (_outcome t) :: map cond_var (_conditions t).

(** A condition "derived from a condition of T": one of T's conditions, or
    the observation an intervention of T turns into. *)
Definition derived_from (conds : list condition) (c : condition) : Prop :=
  In c conds \/ exists Z v, In (Do Z v) conds /\ c = Sym Z.

(** The [outs] an enumerator is left with when every candidate of a list
    passes its test: the candidates, first of each rendering. *)
Definition emit_all (cands : list CausalProbability) : list CausalProbability :=
  fst (fold_left (fun st c => emit c st) cands ([], [])).

(** Cycles of a directed graph.  A cycle is listed the networkx way: the
    vertices in order, the last one closing on the first. *)
Definition has_cycle (G : DiGraph) : Prop :=
  exists v l, l <> [] /\ walk (edge_rel G) v l v.

Definition acyclic (G : DiGraph) : Prop := ~ has_cycle G.

Definition is_simple_cycle (G : DiGraph) (c : list string) : Prop :=
  c <> [] /\ NoDup c /\ walk (edge_rel G) (last c "") c (last c "").

(** Every edge of a graph joins two of its nodes. *)
Definition wf_graph (G : DiGraph) : Prop :=
  forall u v, In (u, v) (edges G) -> In u (nodes G) /\ In v (nodes G).

(** What the code relies on from [nx.simple_cycles] on a graph [G]: the
    listed cycles are not empty, and every simple cycle of [G] is listed,
    in one of its rotations. *)
Definition lists_simple_cycles (G : DiGraph) (cycles : list (list string))
  : Prop :=
  (forall c, In c cycles -> c <> [])
  /\ (forall c, is_simple_cycle G c ->
        exists l1 l2, c = l1 ++ l2 /\ In (l2 ++ l1) cycles).

Definition wf_Graph (M : Graph) : Prop :=
  forall u v, In (u, v) (gedges M) -> In u (gnodes M) /\ In v (gnodes M).

(** The edges a parent-to-children mapping describes. *)
Definition structure_edge (cs : causal_structure) (u v : string) : Prop :=
  exists children, In (u, children) cs /\ In v children.

(** ** Proofs

    A valid proof from [start]: every step carries the label of a rule whose
    enumerator, applied to the previous term on the finder's graph, emits
    the step's term. *)
Definition rule_produces (self : CausalProofFinder) (prev : CausalProbability)
    (s : step) : Prop :=
  In s (rule_outputs (CausalExpr_init prev (finder_structure self))).

Fixpoint valid_proof (self : CausalProofFinder) (start : CausalProbability)
    (p : list step) : Prop :=
  match p with
  | [] => True
  | s :: rest => rule_produces self start s /\ valid_proof self (snd s) rest
  end.

(** The term a proof arrives at. *)
Definition proof_end (start : CausalProbability) (p : list step)
  : CausalProbability :=
  last (map snd p) start.

Definition reachable (self : CausalProofFinder) (A t : CausalProbability)
  : Prop :=
  exists q, valid_proof self A q /\ proof_end A q = t.

(** No two different terms reachable from [A] have the same state key. *)
Definition key_identifies_terms (self : CausalProofFinder)
    (A : CausalProbability) : Prop :=
  forall t1 t2, reachable self A t1 -> reachable self A t2 ->
    _state_key t1 = _state_key t2 -> t1 = t2.

(** The goal test of the search. *)
Definition is_goal (target_expr cur : CausalProbability) : bool :=
  _are_expressions_equivalent cur target_expr
  || String.eqb (_state_key cur) (_state_key target_expr).

(** A finite check of [key_identifies_terms]: a list of terms that holds the
    start, is closed under the enumerators and has pairwise distinct keys. *)
Definition closed_under_rules (self : CausalProofFinder)
    (L : list CausalProbability) : bool :=
  forallb (fun t =>
             forallb (fun s => existsb (CP_eqb (snd s)) L)
                     (rule_outputs (CausalExpr_init t (finder_structure self))))
          L.

Definition keys_distinct (L : list CausalProbability) : bool :=
  forallb (fun t1 =>
             forallb (fun t2 =>
                        negb (String.eqb (_state_key t1) (_state_key t2))
                        || CP_eqb t1 t2) L)
          L.

(** The terms the enumerators reach from the terms of [acc] in at most [n]
    rounds. *)
Definition add_term (acc : list CausalProbability) (t : CausalProbability)
  : list CausalProbability :=
  if existsb (CP_eqb t) acc then acc else acc ++ [t].

Fixpoint reach_terms (self : CausalProofFinder) (n : nat)
    (acc : list CausalProbability) : list CausalProbability :=
  match n with
  | 0 => acc
  | S k =>
      reach_terms self k
        (fold_left add_term
           (flat_map
              (fun t => map snd (rule_outputs
                                   (CausalExpr_init t (finder_structure self))))
              acc)
           acc)
  end.

(** ** The invariant of the search loop *)

Definition depth (e : CausalProbability * list step) : nat :=
  List.length (snd e).

Definition head_depth (queue : list (CausalProbability * list step)) : nat :=
  match queue with
  | [] => 0
  | e :: _ => depth e
  end.

(** Every visited term is still queued or has all its successors visited. *)
Definition closed_or_queued (self : CausalProofFinder) (A : CausalProbability)
    (queue : list (CausalProbability * list step)) (visited : list string)
  : Prop :=
  forall w, reachable self A w -> In (_state_key w) visited ->
    (exists p, In (w, p) queue)
    \/ (forall s, rule_produces self w s -> In (_state_key (snd s)) visited).

(** The end of a proof is visited, or the proof passes through a queued
    term no earlier than the depth that term is queued at. *)
Definition behind_frontier (A : CausalProbability)
    (queue : list (CausalProbability * list step)) (visited : list string)
    (q : list step) : Prop :=
  In (_state_key (proof_end A q)) visited
  \/ exists q1 q2 p,
       q = q1 ++ q2 /\ q2 <> [] /\ In (proof_end A q1, p) queue
       /\ (List.length p <= List.length q1)%nat.

Record search_inv (self : CausalProofFinder) (A B : CausalProbability)
    (queue : list (CausalProbability * list step)) (visited : list string)
  : Prop := mk_search_inv {
  inv_sorted : StronglySorted (fun e1 e2 => (depth e1 <= depth e2)%nat) queue;
  inv_bound : forall e, In e queue -> (depth e <= S (head_depth queue))%nat;
  inv_queue : forall e, In e queue ->
                reachable self A (fst e) /\ In (_state_key (fst e)) visited;
  inv_closed : closed_or_queued self A queue visited;
  inv_frontier : forall q, valid_proof self A q ->
                   behind_frontier A queue visited q;
  inv_nongoal : forall u, reachable self A u -> In (_state_key u) visited ->
                  is_goal B u = false
}.
Arguments inv_sorted {self A B queue visited}.
Arguments inv_bound {self A B queue visited}.
Arguments inv_queue {self A B queue visited}.
Arguments inv_closed {self A B queue visited}.
Arguments inv_frontier {self A B queue visited}.
Arguments inv_nongoal {self A B queue visited}.

(** ** A loop bound for the search

    [iterations b k] bounds the iterations the loop spends on a queued term
    that is [k] levels above the depth bound when no term has more than [b]
    successors; [enough_fuel] is that bound for the start term. *)
Fixpoint iterations (b k : nat) : nat :=
  match k with
  | 0 => 1
  | S k' => 1 + b * iterations b k'
  end.

Definition queue_weight (b d : nat)
    (queue : list (CausalProbability * list step)) : nat :=
  list_sum (map (fun e => iterations b (d - depth e)) queue).

Definition enough_fuel (self : CausalProofFinder) (A : CausalProbability)
  : nat :=
  S (iterations (2 * List.length (_conditions A)) (max_depth self)).

(* ================================================================== *)
(** * Proofs as the search builds them *)
(* ================================================================== *)

(** The state keys a proof passes through, the start included. *)
Definition keys_along (A : CausalProbability) (p : list step) : list string :=
  map _state_key (A :: map snd p).

(** A queued pair as the loop keeps it: the path is a valid proof from the
    start that ends at the queued term, passes through no state key twice,
    and every key on it is in [visited]. *)
Definition sound_entry (self : CausalProofFinder) (A : CausalProbability)
    (visited : list string) (e : CausalProbability * list step) : Prop :=
  valid_proof self A (snd e)
  /\ proof_end A (snd e) = fst e
  /\ NoDup (keys_along A (snd e))
  /\ incl (keys_along A (snd e)) visited.

(** The number of conditions of a term plus the number of its
    interventions: every rule application lowers it. *)
Definition rewrite_measure (t : CausalProbability) : nat :=
  List.length (_conditions t) + List.length (do_conditions t).

(** The vertices a parent-to-children mapping names: its keys and their
    children. *)
Definition structure_node (cs : causal_structure) (x : string) : Prop :=
  exists p children, In (p, children) cs /\ (x = p \/ In x children).

(** A directed cycle among the edges a mapping describes. *)
Definition structure_cycle (cs : causal_structure) : Prop :=
  exists v l, l <> [] /\ walk (structure_edge cs) v l v.

(* ================================================================== *)
(** * The moralization criterion, in words *)
(* ================================================================== *)

(** [x] is a member of [S] or an ancestor of one. *)
Definition ancestral (G : DiGraph) (S : list string) (x : string) : Prop :=
  exists n l, In n S /\ walk (edge_rel G) x l n.

(** Adjacency in the moral graph of the ancestral set of [S], once the
    vertices of [Zs] are taken out: two vertices of the ancestral set, none
    of them in [Zs], joined by an edge of [G] in either direction or parents
    of a common child that lies in the ancestral set. *)
Definition moral_adj (G : DiGraph) (S Zs : list string) (u v : string)
  : Prop :=
  ancestral G S u /\ ancestral G S v /\ ~ In u Zs /\ ~ In v Zs
  /\ (In (u, v) (edges G) \/ In (v, u) (edges G)
      \/ exists c, ancestral G S c
                   /\ In (u, c) (edges G) /\ In (v, c) (edges G)).

Definition moral_connected (G : DiGraph) (S Zs : list string) (s t : string)
  : Prop :=
  exists l, walk (moral_adj G S Zs) s l t.

(* ================================================================== *)
(** * The side conditions of the rules, in words *)
(* ================================================================== *)

(** The graph with the edges into the vertices of [bars] and the edges out
    of the vertices of [unders] taken out. *)
Definition mutilated (G : DiGraph) (bars unders : list string) : DiGraph :=
  mkDiGraph (nodes G)
    (filter (fun e => negb (mem_str (snd e) bars)
                      && negb (mem_str (fst e) unders))
            (edges G)).

(** A test passes when it returns [True]; [False] and an exception both
    leave the candidate out. *)
Definition passes (r : result bool) : bool :=
  match r with
  | Ok true => true
  | _ => false
  end.

(** The [seen] set of an enumerator holds the renderings of its [outs]. *)
Definition seen_tracks_outs (st : list CausalProbability * list string)
  : Prop :=
  snd st = map str_CP (fst st) /\ NoDup (snd st).

(** The side condition of Rule 1 for the observed variable [W]: the outcome
    and [W] are separated by the intervened and the other observed
    variables, in the graph without the edges into the intervened
    variables. *)
Definition rule_1_test (ce : CausalExpr) (W : string) : result bool :=
  let conditions := _conditions (expression ce) in
  is_d_separated (mutilated (graph ce) (do_vars_of conditions) [])
    (str_outcome (_outcome (expression ce))) W
    (do_vars_of conditions
     ++ filter (fun v => negb (String.eqb v W)) (obs_vars_of conditions)).

(** The side condition of Rule 2 for the intervention on [Z] at index
    [idx]: the outcome and [Z] are separated by the other intervened and the
    observed variables, in the graph without the edges into the other
    intervened variables and without the edges out of [Z]. *)
Definition rule_2_test (ce : CausalExpr) (idx : nat) (Z : string)
  : result bool :=
  let conditions := _conditions (expression ce) in
  let others := other_do_vars_of (do_entries conditions) idx in
  is_d_separated (mutilated (graph ce) others [Z])
    (str_outcome (_outcome (expression ce))) Z
    (others ++ obs_vars_of conditions).

(** The side condition of Rule 3 for the intervention on [Z] at index
    [idx]: the outcome and [Z] are separated by the kept intervened and the
    observed variables, in the graph without the edges into the kept
    intervened variables and, unless [Z] reaches an observed variable there,
    without the edges into [Z].  The reachability test can raise. *)
Definition rule_3_test (ce : CausalExpr) (idx : nat) (Z : string)
  : result bool :=
  let conditions := _conditions (expression ce) in
  let kept := other_do_vars_of (do_entries conditions) idx in
  is_anc <- is_ancestor_of_obs (mutilated (graph ce) kept []) Z
              (obs_vars_of conditions) ;;
  Ok (passes
        (is_d_separated
           (mutilated (graph ce) (if is_anc then kept else kept ++ [Z]) [])
           (str_outcome (_outcome (expression ce))) Z
           (kept ++ obs_vars_of conditions))).

(* ================================================================== *)
(** * causal_equiv.py: the other methods of [CausalExpr] *)
(* ================================================================== *)

(** [CausalExpr._is_d_separated]: the test on the expression's own graph;
    any exception is logged and answered with [False]. *)
Definition _is_d_separated (ce : CausalExpr) (X Y : string)
    (Z : list string) : bool :=
  match _custom_d_separation X Y Z (graph ce) with
  | Ok b => b
  | Raise _ => false                   (* except Exception: return False *)
  end.

(* ================================================================== *)
(** * find_proof.py: [explore_all_equivalent_expressions] *)
(* ================================================================== *)

(** The dict [all_reached]: key to (expression, label of the last rule), in
    insertion order. *)
Definition reached_map : Type :=
  list (string * (CausalProbability * string)).

(** [d[k] = v] *)
Fixpoint dict_set (k : string) (v : CausalProbability * string)
    (d : reached_map) : reached_map :=
  match d with
  | [] => [(k, v)]
  | (k', v') :: rest =>
      if String.eqb k' k then (k', v) :: rest
      else (k', v') :: dict_set k v rest
  end.

(** The [for rule_label, nxt in ...] loop of the exploration. *)
Fixpoint explore_scan (depth : nat) (succs : list step)
    (queue : list (CausalProbability * nat)) (visited : list string)
    (all_reached : reached_map)
  : list (CausalProbability * nat) * list string * reached_map :=
  match succs with
  | [] => (queue, visited, all_reached)
  | (label, nxt) :: rest =>
      let k := _state_key nxt in
      if mem_str k visited
      then explore_scan depth rest queue visited all_reached
      else explore_scan depth rest
             (queue ++ [(nxt, S depth)]) (visited ++ [k])
             (dict_set k (nxt, label) all_reached)
  end.

(** The [while queue] loop; [fuel] bounds its iterations and [None] says
    the bound was hit. *)
Fixpoint explore_loop (self : CausalProofFinder) (depth_bound : nat)
    (fuel : nat) (queue : list (CausalProbability * nat))
    (visited : list string) (all_reached : reached_map)
  : option reached_map :=
  match fuel with
  | 0 => None
  | S fuel' =>
      match queue with
      | [] => Some all_reached
      | (cur, depth) :: queue' =>
          if Nat.leb depth_bound depth
          then explore_loop self depth_bound fuel' queue' visited all_reached
          else
            let '(queue'', visited'', all_reached'') :=
              explore_scan depth (_do_calculus_successors self cur)
                queue' visited all_reached in
            explore_loop self depth_bound fuel' queue'' visited''
              all_reached''
      end
  end.

Definition msg_start : string :=
  "Start expression must be a CausalProbability instance".

Definition explore_all_equivalent_expressions (self : CausalProofFinder)
    (fuel : nat) (start_expr : expr) (depth_arg : option nat)
  : result (option reached_map) :=
  let depth_bound :=
    match depth_arg with
    | None => max_depth self
    | Some d => d
    end in
  match start_expr with
  | Term start =>
      let start_key := _state_key start in
      Ok (explore_loop self depth_bound fuel [(start, 0)] [start_key]
            [(start_key, (start, "Initial"))])
  | _ => Raise (TypeError msg_start)
  end.

(** What an entry of the result says: the key is the state key of the
    term, and the term is the start, labelled "Initial", or the end of a
    valid proof from the start within the depth bound whose last step
    carries the label. *)
Definition reached_entry (self : CausalProofFinder) (A : CausalProbability)
    (D : nat) (e : string * (CausalProbability * string)) : Prop :=
  fst e = _state_key (fst (snd e))
  /\ ((fst (snd e) = A /\ snd (snd e) = "Initial")
      \/ exists q,
           valid_proof self A (q ++ [(snd (snd e), fst (snd e))])
           /\ (S (List.length q) <= D)%nat).

(** A queued pair of the exploration: a term with the length of a valid
    proof that reaches it. *)
Definition explore_queued (self : CausalProofFinder) (A : CausalProbability)
    (e : CausalProbability * nat) : Prop :=
  exists q, valid_proof self A q /\ proof_end A q = fst e
            /\ List.length q = snd e.

Record explore_inv (self : CausalProofFinder) (A : CausalProbability)
    (D : nat) (queue : list (CausalProbability * nat))
    (visited : list string) (all_reached : reached_map) : Prop :=
  mk_explore_inv {
  ei_keys : map fst all_reached = visited;
  ei_nodup : NoDup visited;
  ei_start : exists rest, all_reached = (_state_key A, (A, "Initial")) :: rest;
  ei_entries : forall e, In e all_reached -> reached_entry self A D e;
  ei_queue : forall e, In e queue ->
               explore_queued self A e /\ In (_state_key (fst e)) visited
}.
Arguments ei_keys {self A D queue visited all_reached}.
Arguments ei_nodup {self A D queue visited all_reached}.
Arguments ei_start {self A D queue visited all_reached}.
Arguments ei_entries {self A D queue visited all_reached}.
Arguments ei_queue {self A D queue visited all_reached}.

(** The part of the invariant that makes the exploration exhaustive. *)
Record explore_front (self : CausalProofFinder) (A : CausalProbability)
    (queue : list (CausalProbability * nat)) (visited : list string)
  : Prop := mk_explore_front {
  ef_sorted : StronglySorted (fun e1 e2 => (snd e1 <= snd e2)%nat) queue;
  ef_bound : forall e, In e queue ->
               (snd e <= S (match queue with
                            | [] => 0
                            | e0 :: _ => snd e0
                            end))%nat;
  ef_closed : forall w, reachable self A w -> In (_state_key w) visited ->
                (exists d, In (w, d) queue)
                \/ (forall s, rule_produces self w s ->
                      In (_state_key (snd s)) visited);
  ef_frontier : forall q, valid_proof self A q ->
                  In (_state_key (proof_end A q)) visited
                  \/ exists q1 q2 d,
                       q = q1 ++ q2 /\ q2 <> []
                       /\ In (proof_end A q1, d) queue
                       /\ (d <= List.length q1)%nat
}.
Arguments ef_sorted {self A queue visited}.
Arguments ef_bound {self A queue visited}.
Arguments ef_closed {self A queue visited}.
Arguments ef_frontier {self A queue visited}.

(** The loop bound of the exploration, as [queue_weight] for the search. *)
Definition explore_weight (b D : nat) (queue : list (CausalProbability * nat))
  : nat :=
  list_sum (map (fun e => iterations b (D - snd e)) queue).

Definition explore_fuel (A : CausalProbability) (D : nat) : nat :=
  S (iterations (2 * List.length (_conditions A)) D).

(** [CausalExpr._get_moral_graph]: nodes, skeleton, and an edge between
    every two parents of a node.  The adjacency of an [nx.Graph] does not
    record how often or in which direction an edge was added. *)
Definition _get_moral_graph (ce : CausalExpr) (graph : DiGraph) : Graph :=
  moralize graph.

(* ================================================================== *)
(** * causal_equiv.py: [has_descendant_in_set] *)
(* ================================================================== *)

(** The [for child in graph.successors(node)] loop over the recursive call
    [rec]; the set [visited] is shared by all calls, so it is threaded
    through. *)
Fixpoint descend_children
    (rec : string -> list string -> option (result (bool * list string)))
    (conditioned_set : list string) (children : list string)
    (visited : list string) : option (result (bool * list string)) :=
  match children with
  | [] => Some (Ok (false, visited))
  | child :: rest =>
      if mem_str child conditioned_set then Some (Ok (true, visited))
      else
        match rec child visited with
        | Some (Ok (true, visited')) => Some (Ok (true, visited'))
        | Some (Ok (false, visited')) =>
            descend_children rec conditioned_set rest visited'
        | Some (Raise e) => Some (Raise e)
        | None => None
        end
  end.

(** [fuel] bounds the depth of the recursion ([None]: the bound was hit);
    [graph.successors] raises on a node the graph does not have.  The result
    is the returned boolean with the final [visited]. *)
Fixpoint has_descendant_in_set (fuel : nat) (graph : DiGraph) (node : string)
    (conditioned_set : list string) (visited : list string)
  : option (result (bool * list string)) :=
  match fuel with
  | 0 => None
  | S fuel' =>
      if mem_str node visited then Some (Ok (false, visited))
      else
        let visited := visited ++ [node] in
        if has_node graph node
        then descend_children
               (fun child v =>
                  has_descendant_in_set fuel' graph child conditioned_set v)
               conditioned_set (successors graph node) visited
        else Some (Raise NetworkXError)
  end.

(** The vertices not yet visited, counted. *)
Definition unvisited (G : DiGraph) (visited : list string) : nat :=
  List.length (filter (fun n => negb (mem_str n visited)) (nodes G)).

(** [d] is a descendant of [node] that lies in [S]. *)
Definition descendant_in (G : DiGraph) (node : string) (S : list string)
  : Prop :=
  exists d l, In d S /\ l <> [] /\ walk (edge_rel G) node l d.

(** The vertices of [v] that are not in [visited] have all their children
    in [v] and none of them in [S]. *)
Definition closed_beyond (G : DiGraph) (S visited v : list string) : Prop :=
  forall x, In x v -> ~ In x visited ->
    forall y, In (x, y) (edges G) -> In y v /\ ~ In y S.

(** What a call on [node] that starts with [visited] answers. *)
Definition descend_ok (G : DiGraph) (S : list string) (node : string)
    (visited : list string) (r : option (result (bool * list string)))
  : Prop :=
  exists b v,
    r = Some (Ok (b, v))
    /\ incl visited v
    /\ (b = true -> descendant_in G node S)
    /\ (b = false -> In node v /\ closed_beyond G S visited v).

(* ================================================================== *)
(** * causal_equiv.py: [suggest_fix] *)
(* ================================================================== *)

(** The suggestions, each by its message template and the values the
    f-string fills in. *)
Inductive suggestion : Type :=
| No_conditioning_needed (Y : string)
    (* "All observed variables are d-separated from {Y} in the
       interventional graph. Consider using P({Y}) instead ..." *)
| Mediator (z Y : string)
    (* "{z} is a mediator between a cause and {Y}. Avoid conditioning on
       {z} to prevent post-treatment bias." *)
| Only_observed (z Y : string)
    (* "{z} causes {Y}, but is only observed. Consider using do({z}) if you
       intend an intervention." *)
| May_bias (z Y : string) (given : list string).
    (* "Conditioning on {z} may bias results; {Y} is not d-separated from
       {z} given {do_vars + others}." *)

(** [obs_vars] of [suggest_fix]: the [str] of every condition that is not a
    [Do], an equality included. *)
Definition suggest_obs_vars (conditions : list condition) : list string :=
  flat_map (fun c => match c with
                     | Do _ _ => []
                     | _ => [str_condition c]
                     end) conditions.

(** The first loop: [all_dsep], with its [break]; the test is not guarded by
    a [try]. *)
Fixpoint all_dsep_loop (Y : string) (do_vars obs_vars : list string)
    (g_do : DiGraph) (todo : list string) : result bool :=
  match todo with
  | [] => Ok true
  | z :: rest =>
      let others := filter (fun v => negb (String.eqb v z)) obs_vars in
      b <- _custom_d_separation Y z (do_vars ++ others) g_do ;;
      if b then all_dsep_loop Y do_vars obs_vars g_do rest else Ok false
  end.

(** [any(nx.has_path(self.graph, x, z) for x in obs_vars if x != z)] *)
Fixpoint any_has_path (graph : DiGraph) (z : string) (xs : list string)
  : result bool :=
  match xs with
  | [] => Ok false
  | x :: rest =>
      if String.eqb x z then any_has_path graph z rest
      else
        b <- has_path graph x z ;;
        if b then Ok true else any_has_path graph z rest
  end.

(** The second loop. *)
Fixpoint suggest_loop (ce : CausalExpr) (Y : string)
    (do_vars obs_vars : list string) (g_do : DiGraph) (all_dsep : bool)
    (todo : list string) (suggestions : list suggestion)
  : result (list suggestion) :=
  match todo with
  | [] => Ok suggestions
  | z :: rest =>
      suggestions <-
        (if has_edge (graph ce) z Y
         then
           is_mediator <- any_has_path (graph ce) z obs_vars ;;
           Ok (suggestions
               ++ [if is_mediator then Mediator z Y else Only_observed z Y])
         else Ok suggestions) ;;
      let others := filter (fun v => negb (String.eqb v z)) obs_vars in
      b <- _custom_d_separation Y z (do_vars ++ others) g_do ;;
      let suggestions :=
        if b then suggestions
        else suggestions ++ [May_bias z Y (do_vars ++ others)] in
      let suggestions :=
        if all_dsep && negb (match obs_vars with [] => true | _ => false end)
        then suggestions ++ [No_conditioning_needed Y]
        else suggestions in
      suggest_loop ce Y do_vars obs_vars g_do all_dsep rest suggestions
  end.

Definition suggest_fix (ce : CausalExpr) : result (list suggestion) :=
  let Y := str_outcome (_outcome (expression ce)) in
  let conditions := _conditions (expression ce) in
  let do_vars := do_vars_of conditions in
  let obs_vars := suggest_obs_vars conditions in
  let g_do := _create_intervention_graph ce do_vars in
  all_dsep <- all_dsep_loop Y do_vars obs_vars g_do obs_vars ;;
  if all_dsep && negb (match obs_vars with [] => true | _ => false end)
  then Ok [No_conditioning_needed Y]
  else suggest_loop ce Y do_vars obs_vars g_do all_dsep obs_vars [].

(* ================================================================== *)
(** * Basic facts: membership and boolean equalities *)
(* ================================================================== *)

Lemma mem_str_In (x : string) (l : list string) :
  mem_str x l = true <-> In x l.
Proof.
  unfold mem_str. rewrite existsb_exists. split.
  - intros [y [Hy Heq]]. apply String.eqb_eq in Heq. now subst.
  - intros H. exists x. split; [assumption | apply String.eqb_refl].
Qed.

Lemma mem_str_not_In (x : string) (l : list string) :
  mem_str x l = false <-> ~ In x l.
Proof.
  rewrite <- mem_str_In. destruct (mem_str x l); split; congruence.
Qed.

Lemma value_eqb_eq (a b : value) : value_eqb a b = true <-> a = b.
Proof.
  destruct a, b; simpl; split; intros H; try discriminate.
  - apply Z.eqb_eq in H. now subst.
  - inversion H. apply Z.eqb_refl.
  - apply String.eqb_eq in H. now subst.
  - inversion H. apply String.eqb_refl.
Qed.

Lemma opt_value_eqb_eq (a b : option value) :
  opt_value_eqb a b = true <-> a = b.
Proof.
  destruct a, b; simpl; split; intros H; try discriminate; try reflexivity.
  - apply value_eqb_eq in H. now subst.
  - inversion H. now apply value_eqb_eq.
Qed.

Lemma condition_eqb_eq (c d : condition) : condition_eqb c d = true <-> c = d.
Proof.
  destruct c, d; simpl; split; intros H; try discriminate.
  - apply andb_true_iff in H. destruct H as [H1 H2].
    apply String.eqb_eq in H1. apply opt_value_eqb_eq in H2. now subst.
  - inversion H. rewrite String.eqb_refl. now apply opt_value_eqb_eq.
  - apply andb_true_iff in H. destruct H as [H1 H2].
    apply String.eqb_eq in H1. apply value_eqb_eq in H2. now subst.
  - inversion H. rewrite String.eqb_refl. now apply value_eqb_eq.
  - apply String.eqb_eq in H. now subst.
  - inversion H. apply String.eqb_refl.
Qed.

Lemma condition_eqb_refl (c : condition) : condition_eqb c c = true.
Proof. now apply condition_eqb_eq. Qed.

Lemma outcome_eqb_eq (a b : outcome) : outcome_eqb a b = true <-> a = b.
Proof.
  destruct a, b; simpl; split; intros H; try discriminate.
  - apply String.eqb_eq in H. now subst.
  - inversion H. apply String.eqb_refl.
  - apply andb_true_iff in H. destruct H as [H1 H2].
    apply String.eqb_eq in H1. apply value_eqb_eq in H2. now subst.
  - inversion H. rewrite String.eqb_refl. now apply value_eqb_eq.
Qed.

Lemma mem_cond_In (c : condition) (l : list condition) :
  mem_cond c l = true <-> In c l.
Proof.
  unfold mem_cond. rewrite existsb_exists. split.
  - intros [d [Hd Heq]]. apply condition_eqb_eq in Heq. now subst.
  - intros H. exists c. split; [assumption | apply condition_eqb_refl].
Qed.

Lemma list_eqb_cond_eq (l1 l2 : list condition) :
  list_eqb condition_eqb l1 l2 = true <-> l1 = l2.
Proof.
  revert l2. induction l1 as [|c l1 IH]; intros [|d l2]; simpl;
    split; intros H; try discriminate; try reflexivity.
  - apply andb_true_iff in H. destruct H as [H1 H2].
    apply condition_eqb_eq in H1. apply IH in H2. now subst.
  - inversion H; subst. rewrite condition_eqb_refl. now apply IH.
Qed.

Lemma CP_eqb_eq (a b : CausalProbability) : CP_eqb a b = true <-> a = b.
Proof.
  destruct a as [y1 c1], b as [y2 c2]. unfold CP_eqb. simpl.
  rewrite andb_true_iff, outcome_eqb_eq, list_eqb_cond_eq.
  split; [intros [-> ->]; reflexivity | intros H; inversion H; auto].
Qed.

(* ================================================================== *)
(** * The order of the sort keys *)
(* ================================================================== *)

Lemma ascii_compare_refl (a : ascii) : Ascii.compare a a = Datatypes.Eq.
Proof. unfold Ascii.compare. apply N.compare_refl. Qed.

Lemma ascii_compare_lt_trans (a b c : ascii) :
  Ascii.compare a b = Lt -> Ascii.compare b c = Lt -> Ascii.compare a c = Lt.
Proof.
  unfold Ascii.compare. rewrite !N.compare_lt_iff. apply N.lt_trans.
Qed.

Lemma string_compare_refl (s : string) : String.compare s s = Datatypes.Eq.
Proof.
  induction s as [|a s IH]; simpl; [reflexivity|].
  now rewrite ascii_compare_refl.
Qed.

Lemma string_compare_lt_trans (s1 s2 s3 : string) :
  String.compare s1 s2 = Lt -> String.compare s2 s3 = Lt ->
  String.compare s1 s3 = Lt.
Proof.
  revert s2 s3.
  induction s1 as [|a s1 IH]; intros [|b s2] [|c s3]; simpl;
    try congruence.
  destruct (Ascii.compare a b) eqn:Eab; try discriminate;
    destruct (Ascii.compare b c) eqn:Ebc; try discriminate; intros H1 H2.
  - apply Ascii.compare_eq_iff in Eab, Ebc. subst.
    rewrite ascii_compare_refl. eauto.
  - apply Ascii.compare_eq_iff in Eab. subst. now rewrite Ebc.
  - apply Ascii.compare_eq_iff in Ebc. subst. now rewrite Eab.
  - now rewrite (ascii_compare_lt_trans _ _ _ Eab Ebc).
Qed.

Lemma key_compare_refl (a : sort_key) : key_compare a a = Datatypes.Eq.
Proof.
  destruct a as [[g v] x]. simpl.
  now rewrite Nat.compare_refl, !string_compare_refl.
Qed.

Lemma key_compare_eq (a b : sort_key) :
  key_compare a b = Datatypes.Eq -> a = b.
Proof.
  destruct a as [[g1 v1] x1], b as [[g2 v2] x2]. simpl.
  destruct (Nat.compare g1 g2) eqn:Eg; try discriminate.
  destruct (String.compare v1 v2) eqn:Ev; try discriminate.
  intros Ex. apply Nat.compare_eq_iff in Eg.
  apply String.compare_eq_iff in Ev, Ex. now subst.
Qed.

Lemma key_compare_antisym (a b : sort_key) :
  key_compare a b = CompOpp (key_compare b a).
Proof.
  destruct a as [[g1 v1] x1], b as [[g2 v2] x2]. simpl.
  rewrite (Nat.compare_antisym g2 g1), (String.compare_antisym v1 v2),
    (String.compare_antisym x1 x2).
  destruct (Nat.compare g2 g1); simpl; try reflexivity.
  destruct (String.compare v2 v1); simpl; reflexivity.
Qed.

Lemma key_compare_lt_trans (a b c : sort_key) :
  key_compare a b = Lt -> key_compare b c = Lt -> key_compare a c = Lt.
Proof.
  destruct a as [[g1 v1] x1], b as [[g2 v2] x2], c as [[g3 v3] x3]. simpl.
  destruct (Nat.compare g1 g2) eqn:E12; try discriminate;
    destruct (Nat.compare g2 g3) eqn:E23; try discriminate;
    try apply Nat.compare_eq_iff in E12; try apply Nat.compare_eq_iff in E23;
    try rewrite Nat.compare_lt_iff in E12;
    try rewrite Nat.compare_lt_iff in E23; subst.
  - rewrite Nat.compare_refl.
    destruct (String.compare v1 v2) eqn:F12; try discriminate;
      destruct (String.compare v2 v3) eqn:F23; try discriminate;
      try apply String.compare_eq_iff in F12;
      try apply String.compare_eq_iff in F23; subst; intros H1 H2.
    + rewrite string_compare_refl. eapply string_compare_lt_trans; eauto.
    + now rewrite F23.
    + now rewrite F12.
    + now rewrite (string_compare_lt_trans _ _ _ F12 F23).
  - intros _ _. apply Nat.compare_lt_iff in E23. now rewrite E23.
  - intros _ _. apply Nat.compare_lt_iff in E12. now rewrite E12.
  - intros _ _.
    assert (H : (g1 < g3)%nat) by lia.
    apply Nat.compare_lt_iff in H. now rewrite H.
Qed.

Lemma key_leb_refl (a : sort_key) : key_leb a a = true.
Proof. unfold key_leb. now rewrite key_compare_refl. Qed.

Lemma key_leb_total (a b : sort_key) :
  key_leb a b = false -> key_leb b a = true.
Proof.
  unfold key_leb. rewrite (key_compare_antisym b a).
  destruct (key_compare a b); simpl; congruence.
Qed.

Lemma key_leb_trans (a b c : sort_key) :
  key_leb a b = true -> key_leb b c = true -> key_leb a c = true.
Proof.
  unfold key_leb.
  destruct (key_compare a b) eqn:E1; try discriminate;
    destruct (key_compare b c) eqn:E2; try discriminate; intros _ _.
  - apply key_compare_eq in E1, E2. subst. now rewrite key_compare_refl.
  - apply key_compare_eq in E1. subst. now rewrite E2.
  - apply key_compare_eq in E2. subst. now rewrite E1.
  - now rewrite (key_compare_lt_trans _ _ _ E1 E2).
Qed.

(** The canonical order on conditions, as a relation. *)
Definition cond_le (c d : condition) : Prop := cond_leb c d = true.

Lemma insert_cond_perm (c : condition) (l : list condition) :
  Permutation (c :: l) (insert_cond c l).
Proof.
  induction l as [|d l IH]; simpl; [constructor; constructor|].
  destruct (cond_leb c d); [apply Permutation_refl|].
  eapply perm_trans; [apply perm_swap|]. now constructor.
Qed.

Lemma sorted_conditions_perm (l : list condition) :
  Permutation l (sorted_conditions l).
Proof.
  induction l as [|c l IH]; simpl; [constructor|].
  eapply perm_trans; [|apply insert_cond_perm]. now constructor.
Qed.

Lemma sorted_conditions_In (c : condition) (l : list condition) :
  In c (sorted_conditions l) <-> In c l.
Proof.
  split; apply Permutation_in;
    [apply Permutation_sym|]; apply sorted_conditions_perm.
Qed.

Lemma insert_cond_sorted (c : condition) (l : list condition) :
  StronglySorted cond_le l -> StronglySorted cond_le (insert_cond c l).
Proof.
  induction 1 as [|d l Hs IH Hall]; simpl.
  - constructor; constructor.
  - destruct (cond_leb c d) eqn:E.
    + constructor; [constructor; assumption|].
      constructor; [exact E|].
      eapply Forall_impl; [|exact Hall].
      intros e He. unfold cond_le, cond_leb in *.
      eapply key_leb_trans; eauto.
    + constructor; [assumption|].
      apply (Permutation_Forall (insert_cond_perm c l)).
      constructor; [|assumption].
      unfold cond_le, cond_leb in *. now apply key_leb_total.
Qed.

Lemma sorted_conditions_sorted (l : list condition) :
  StronglySorted cond_le (sorted_conditions l).
Proof.
  induction l as [|c l IH]; simpl; [constructor|].
  now apply insert_cond_sorted.
Qed.

(* ================================================================== *)
(** * Construction of terms: duplicates and canonical order *)
(* ================================================================== *)



Lemma set_eqb_true (a b : list condition) :
  set_eqb a b = true <-> (forall c, In c a <-> In c b).
Proof.
  unfold set_eqb. rewrite andb_true_iff, !forallb_forall. split.
  - intros [H1 H2] c. split; intros H.
    + now apply mem_cond_In, H1.
    + now apply mem_cond_In, H2.
  - intros H. split; intros c Hc; apply mem_cond_In, H, Hc.
Qed.

Lemma equivalent_iff (t u : CausalProbability) :
  _are_expressions_equivalent t u = true <->
  _outcome t = _outcome u
  /\ (forall c, In c (do_conditions t) <-> In c (do_conditions u))
  /\ (forall c, In c (obs_conditions t) <-> In c (obs_conditions u)).
Proof.
  unfold _are_expressions_equivalent.
  destruct (outcome_eqb (_outcome t) (_outcome u)) eqn:E; simpl.
  - apply outcome_eqb_eq in E.
    rewrite andb_true_iff, !set_eqb_true. tauto.
  - split; [discriminate|]. intros [H _].
    apply outcome_eqb_eq in H. congruence.
Qed.






(* ================================================================== *)
(** * [find_proof]: the shapes it accepts and the errors it raises *)
(* ================================================================== *)

Lemma split_summands_length (ts : list (Z * expr)) :
  forall pos neg p n,
    split_summands ts pos neg = Some (p, n) ->
    (List.length p + List.length n
     = List.length ts + List.length pos + List.length neg)%nat.
Proof.
  induction ts as [|[coeff rest] ts IH]; intros pos neg p n; simpl.
  - intros H. inversion H. lia.
  - destruct (Z.eqb coeff 1).
    + intros H. apply IH in H. rewrite length_app in H. simpl in H. lia.
    + destruct (Z.eqb coeff (-1)); [|discriminate].
      intros H. apply IH in H. rewrite length_app in H. simpl in H. lia.
Qed.

Lemma as_subtraction_pair_Some (simplify : expr -> expr) (e a b : expr) :
  _as_subtraction_pair simplify e = Some (a, b)
  <-> difference_of (simplify e) a b.
Proof.
  unfold _as_subtraction_pair, difference_of.
  generalize (simplify e). clear e. intros e. split.
  - destruct e as [t|name|ts]; try discriminate.
    destruct (split_summands ts [] []) as [[p n]|] eqn:E; [|discriminate].
    pose proof (split_summands_length _ _ _ _ _ E) as Hlen. simpl in Hlen.
    destruct p as [|a' [|]]; try discriminate.
    destruct n as [|b' [|]]; try discriminate.
    intros H. inversion H; subst. simpl in Hlen.
    destruct ts as [|[c1 r1] [|[c2 r2] [|]]]; simpl in Hlen; try lia.
    simpl in E.
    destruct (Z.eqb_spec c1 1) as [->|H1].
    + destruct (Z.eqb_spec c2 1) as [->|H2]; simpl in E; [discriminate|].
      destruct (Z.eqb_spec c2 (-1)) as [->|H3]; [|discriminate].
      inversion E; subst. now left.
    + destruct (Z.eqb_spec c1 (-1)) as [->|H1']; [|discriminate].
      destruct (Z.eqb_spec c2 1) as [->|H2]; simpl in E.
      * inversion E; subst. now right.
      * destruct (Z.eqb c2 (-1)); discriminate.
  - intros [-> | ->]; reflexivity.
Qed.

Lemma as_subtraction_pair_None (simplify : expr -> expr) (e : expr) :
  ~ is_difference (simplify e) -> _as_subtraction_pair simplify e = None.
Proof.
  intros H. destruct (_as_subtraction_pair simplify e) as [[a b]|] eqn:E;
    [|reflexivity].
  exfalso. apply H. exists a, b. now apply as_subtraction_pair_Some.
Qed.

Lemma difference_not_term (e a b : expr) :
  difference_of e a b -> forall t, e <> Term t.
Proof. intros [-> | ->] t; discriminate. Qed.

(** [find_proof] leaves the first branch exactly when the two expressions
    are not both terms. *)
Lemma find_proof_second_case (simplify : expr -> expr)
    (self : CausalProofFinder) (fuel : nat) (start target : expr) :
  ~ (is_term start /\ is_term target) ->
  find_proof simplify self fuel start target
  = match _as_subtraction_pair simplify start,
          _as_subtraction_pair simplify target with
    | Some (A1, B1), Some (A2, B2) =>
        match A1, B1, A2, B2 with
        | Term a1, Term b1, Term a2, Term b2 =>
            match _find_proof_single self fuel a1 a2 with
            | NotFound => Ok NoProof
            | OutOfFuel => Ok Unfinished
            | Found p_left =>
                match _find_proof_single self fuel b1 b2 with
                | NotFound => Ok NoProof
                | OutOfFuel => Ok Unfinished
                | Found p_right => Ok (AteProof p_left p_right)
                end
            end
        | _, _, _, _ => Raise (TypeError msg_ate)
        end
    | _, _ => Raise (TypeError msg_unsupported)
    end.
Proof.
  intros Hnot. unfold find_proof.
  destruct start as [s| |]; try reflexivity.
  destruct target as [t| |]; try reflexivity.
  exfalso. apply Hnot. split; eexists; reflexivity.
Qed.

(** C2, as the code has it: [find_proof] has no [UnsupportedExpression]
    error; the only exceptions it raises are two [TypeError]s.  When the
    two expressions are not both terms, the shape that decides is the one
    [sp.simplify] returns: if the simplified start or the simplified target
    is not a difference, the "Unsupported expression type" [TypeError] is
    raised; if both are differences and one of the four operands is not a
    term, the "ATE terms" [TypeError] is raised. *)
Theorem C2_unsupported_shape_raises_TypeError
    (simplify : expr -> expr) (self : CausalProofFinder) (fuel : nat)
    (start target : expr) :
  (forall e, find_proof simplify self fuel start target = Raise e ->
     e = TypeError msg_unsupported \/ e = TypeError msg_ate)
  /\ (~ (is_term start /\ is_term target) ->
      (~ is_difference (simplify start) \/ ~ is_difference (simplify target) ->
       find_proof simplify self fuel start target
       = Raise (TypeError msg_unsupported))
      /\ (forall a1 b1 a2 b2,
            difference_of (simplify start) a1 b1 ->
            difference_of (simplify target) a2 b2 ->
            ~ (is_term a1 /\ is_term b1 /\ is_term a2 /\ is_term b2) ->
            find_proof simplify self fuel start target
            = Raise (TypeError msg_ate))).
Proof.
  split.
  - intros e. unfold find_proof.
    destruct start as [s| |]; destruct target as [t| |];
      try discriminate; cbv zeta;
      repeat match goal with
             | |- context [_as_subtraction_pair simplify ?x] =>
                 destruct (_as_subtraction_pair simplify x) as [[? ?]|]
             end;
      repeat match goal with
             | |- context [match ?x with Term _ => _ | _ => _ end] =>
                 destruct x
             end;
      repeat match goal with
             | |- context [_find_proof_single ?a ?b ?c ?d] =>
                 destruct (_find_proof_single a b c d)
             end;
      try discriminate;
      intros H; inversion H; auto.
  - intros Hnot. rewrite (find_proof_second_case _ _ _ _ _ Hnot). split.
    + intros [H|H]; apply as_subtraction_pair_None in H; rewrite H.
      * reflexivity.
      * destruct (_as_subtraction_pair simplify start) as [[? ?]|];
          reflexivity.
    + intros a1 b1 a2 b2 Hs Ht Hterms.
      apply as_subtraction_pair_Some in Hs, Ht. rewrite Hs, Ht.
      destruct a1 as [x1| |]; try reflexivity.
      destruct b1 as [y1| |]; try reflexivity.
      destruct a2 as [x2| |]; try reflexivity.
      destruct b2 as [y2| |]; try reflexivity.
      exfalso. apply Hterms. repeat split; eexists; reflexivity.
Qed.

(** The theorem at a symbol against a term, and at [X - P(Y)] against
    [P(Y | do(X)) - P(Y)], expressions SymPy returns as they are; and at
    the unevaluated [X - X], which SymPy cancels to [0], so that the
    message is the one for an unsupported expression although the
    expression is written as a difference. *)
Lemma C2_unsupported_shape_witness :
  let simplify := fun e : expr => e in
  let cancel := fun e : expr =>
    match e with
    | Add [(_, Atom a); (_, Atom b)] => if String.eqb a b then Atom "0" else e
    | _ => e
    end in
  find_proof simplify (mkFinder [("X", ["Y"])] 3) 5
    (Atom "X") (Term (CausalProbability_new (OSym "Y") [Do "X" None]))
  = Raise (TypeError msg_unsupported)
  /\ find_proof simplify (mkFinder [("X", ["Y"])] 3) 5
       (Add [(1%Z, Atom "X");
             ((-1)%Z, Term (CausalProbability_new (OSym "Y") []))])
       (Add [(1%Z, Term (CausalProbability_new (OSym "Y") [Do "X" None]));
             ((-1)%Z, Term (CausalProbability_new (OSym "Y") []))])
     = Raise (TypeError msg_ate)
  /\ find_proof cancel (mkFinder [("X", ["Y"])] 3) 5
       (Add [(1%Z, Atom "X"); ((-1)%Z, Atom "X")])
       (Add [(1%Z, Term (CausalProbability_new (OSym "Y") [Do "X" None]));
             ((-1)%Z, Term (CausalProbability_new (OSym "Y") []))])
     = Raise (TypeError msg_unsupported).
Proof.
  intros simplify cancel. split; [|split].
  - apply (proj2 (C2_unsupported_shape_raises_TypeError simplify
                    (mkFinder [("X", ["Y"])] 3) 5 (Atom "X")
                    (Term (CausalProbability_new (OSym "Y") [Do "X" None])))).
    + intros [[t Ht] _]. discriminate.
    + left. intros [a [b [H|H]]]; discriminate.
  - apply (proj2 (proj2 (C2_unsupported_shape_raises_TypeError simplify
                           (mkFinder [("X", ["Y"])] 3) 5
                           (Add [(1%Z, Atom "X");
                                 ((-1)%Z,
                                  Term (CausalProbability_new (OSym "Y") []))])
                           (Add [(1%Z,
                                  Term (CausalProbability_new (OSym "Y")
                                          [Do "X" None]));
                                 ((-1)%Z,
                                  Term (CausalProbability_new (OSym "Y") []))]))
                    ltac:(intros [[t Ht] _]; discriminate))
             (Atom "X") (Term (CausalProbability_new (OSym "Y") []))
             (Term (CausalProbability_new (OSym "Y") [Do "X" None]))
             (Term (CausalProbability_new (OSym "Y") []))).
    + left. reflexivity.
    + left. reflexivity.
    + intros [[t Ht] _]. discriminate.
  - apply (proj2 (C2_unsupported_shape_raises_TypeError cancel
                    (mkFinder [("X", ["Y"])] 3) 5
                    (Add [(1%Z, Atom "X"); ((-1)%Z, Atom "X")])
                    (Add [(1%Z,
                           Term (CausalProbability_new (OSym "Y")
                                   [Do "X" None]));
                          ((-1)%Z,
                           Term (CausalProbability_new (OSym "Y") []))]))).
    + intros [[t Ht] _]. discriminate.
    + left. intros [a [b [H|H]]]; discriminate.
Defined.

(** C2 as claimed fails: a symbol is neither a term nor a difference, and
    [sp.simplify] returns it as it is; [find_proof] on it raises a
    [TypeError], not an [UnsupportedExpression]. *)
Lemma C2_counterexample :
  let simplify := fun e : expr => e in
  let raised := TypeError msg_unsupported in
  unsupported_shape (Atom "X")
  /\ find_proof simplify (mkFinder [("X", ["Y"])] 3) 5
       (Atom "X") (Term (CausalProbability_new (OSym "Y") [Do "X" None]))
     = Raise raised
  /\ exn_class raised = "TypeError"
  /\ exn_class raised <> "UnsupportedExpression".
Proof.
  intros simplify raised. split; [|split; [|split]].
  - split; [intros [t Ht]; discriminate|].
    intros [a [b [H|H]]]; discriminate.
  - reflexivity.
  - reflexivity.
  - discriminate.
Qed.

(* ================================================================== *)
(** * Reachability *)
(* ================================================================== *)

Lemma fold_add_new_In (x : string) (l acc : list string) :
  In x (fold_left add_new l acc) <-> In x acc \/ In x l.
Proof.
  revert acc. induction l as [|y l IH]; intros acc; simpl; [tauto|].
  rewrite IH. unfold add_new.
  destruct (mem_str y acc) eqn:E.
  - apply mem_str_In in E. split; [tauto|].
    intros [H|[->|H]]; tauto.
  - rewrite in_app_iff. simpl. tauto.
Qed.

Lemma mem_str_ext (a b : list string) :
  (forall x, In x a <-> In x b) -> forall x, mem_str x a = mem_str x b.
Proof.
  intros H x. destruct (mem_str x b) eqn:E.
  - apply mem_str_In. apply H. now apply mem_str_In.
  - apply mem_str_not_In. intros Hx. apply H in Hx.
    apply mem_str_In in Hx. congruence.
Qed.

Section ReachFacts.
Variable next : string -> list string.

Lemma expand_In (x : string) (acc : list string) :
  In x (expand next acc) <->
  In x acc \/ exists y, In y acc /\ In x (next y).
Proof.
  unfold expand. rewrite fold_add_new_In, in_flat_map. tauto.
Qed.

Lemma closure_spec (n : nat) :
  forall acc t,
    In t (closure next n acc) <->
    exists s l, In s acc /\ walk (step_of next) s l t
                /\ (List.length l <= n)%nat.
Proof.
  induction n as [|n IH]; intros acc t; simpl.
  - split.
    + intros H. exists t, [].
      split; [assumption|]. split; [apply walk_nil|simpl; lia].
    + intros [s [l [Hs [Hw Hl]]]].
      destruct l; [|simpl in Hl; lia]. inversion Hw; now subst.
  - rewrite IH. split.
    + intros [s [l [Hs [Hw Hl]]]]. apply expand_In in Hs.
      destruct Hs as [Hs|[y [Hy Hs]]].
      * exists s, l. split; [assumption|]. split; [assumption|lia].
      * exists y, (s :: l). split; [assumption|].
        split; [now apply walk_cons|simpl; lia].
    + intros [s [l [Hs [Hw Hl]]]].
      destruct Hw as [s|s u l t Hsu Hw].
      * exists s, []. split; [apply expand_In; now left|].
        split; [apply walk_nil|simpl; lia].
      * exists u, l. split; [apply expand_In; right; now exists s|].
        split; [assumption|simpl in Hl; lia].
Qed.
End ReachFacts.

Lemma walk_snoc (R : string -> string -> Prop) (s u t : string)
    (l : list string) :
  walk R s l u -> R u t -> walk R s (l ++ [t]) t.
Proof.
  induction 1 as [s|s v l u Hsv Hw IH]; intros Hr; simpl.
  - constructor; [assumption|constructor].
  - constructor; auto.
Qed.

Lemma walk_reverse (R : string -> string -> Prop) :
  (forall x y, R x y -> R y x) ->
  forall s l t, walk R s l t ->
    exists l', walk R t l' s /\ List.length l' = List.length l.
Proof.
  intros Hsym s l t Hw.
  induction Hw as [s|s u l t Hsu Hw [l' [Hw' Hl]]].
  - exists []. split; [constructor|reflexivity].
  - exists (l' ++ [s]). split.
    + eapply walk_snoc; eauto.
    + rewrite length_app. simpl. lia.
Qed.

Lemma walk_incl (R R' : string -> string -> Prop) :
  (forall x y, R x y -> R' x y) ->
  forall s l t, walk R s l t -> walk R' s l t.
Proof. intros H s l t Hw. induction Hw; constructor; auto. Qed.

Lemma successors_In (G : DiGraph) (u v : string) :
  In v (successors G u) <-> In (u, v) (edges G).
Proof.
  unfold successors. rewrite in_map_iff. split.
  - intros [[a b] [Hb Hin]]. apply filter_In in Hin. simpl in *.
    destruct Hin as [Hin Ha]. apply String.eqb_eq in Ha. now subst.
  - intros H. exists (u, v). split; [reflexivity|].
    apply filter_In. split; [assumption|apply String.eqb_refl].
Qed.

Lemma predecessors_In (G : DiGraph) (u v : string) :
  In u (predecessors G v) <-> In (u, v) (edges G).
Proof.
  unfold predecessors. rewrite in_map_iff. split.
  - intros [[a b] [Ha Hin]]. apply filter_In in Hin. simpl in *.
    destruct Hin as [Hin Hb]. apply String.eqb_eq in Hb. now subst.
  - intros H. exists (u, v). split; [reflexivity|].
    apply filter_In. split; [assumption|apply String.eqb_refl].
Qed.

Lemma neighbors_In (M : Graph) (u v : string) :
  In v (neighbors M u) <-> In (u, v) (gedges M) \/ In (v, u) (gedges M).
Proof.
  unfold neighbors. rewrite in_flat_map. split.
  - intros [[a b] [Hin H]]. simpl in H. apply in_app_or in H.
    destruct H as [H|H].
    + destruct (String.eqb_spec a u); [|contradiction].
      destruct H as [H|[]]. subst. now left.
    + destruct (String.eqb_spec b u); [|contradiction].
      destruct H as [H|[]]. subst. now right.
  - intros [H|H].
    + exists (u, v). split; [assumption|]. simpl.
      rewrite String.eqb_refl. simpl. now left.
    + exists (v, u). split; [assumption|]. simpl. apply in_or_app. right.
      rewrite String.eqb_refl. now left.
Qed.

Lemma neighbors_sym (M : Graph) (u v : string) :
  step_of (neighbors M) u v -> step_of (neighbors M) v u.
Proof. unfold step_of. rewrite !neighbors_In. tauto. Qed.

(** In an undirected graph reachability within a bound is symmetric. *)
Lemma Graph_closure_sym (M : Graph) (n : nat) (s t : string) :
  mem_str t (closure (neighbors M) n [s])
  = mem_str s (closure (neighbors M) n [t]).
Proof.
  assert (H : forall a b, In b (closure (neighbors M) n [a]) ->
                          In a (closure (neighbors M) n [b])).
  { intros a b Hb. apply closure_spec in Hb.
    destruct Hb as [a' [l [Ha [Hw Hl]]]].
    destruct Ha as [<-|[]].
    destruct (walk_reverse _ (neighbors_sym M) _ _ _ Hw) as [l' [Hw' Hl']].
    apply closure_spec. exists b, l'.
    split; [now left|]. split; [assumption|lia]. }
  destruct (mem_str s (closure (neighbors M) n [t])) eqn:E.
  - apply mem_str_In. apply H. now apply mem_str_In.
  - apply mem_str_not_In. intros Ht. apply H in Ht.
    apply mem_str_In in Ht. congruence.
Qed.

Lemma Graph_has_path_sym (M : Graph) (s t : string) :
  Graph_has_path M s t = Graph_has_path M t s.
Proof.
  unfold Graph_has_path. rewrite (andb_comm (Graph_has_node M s)).
  destruct (Graph_has_node M t && Graph_has_node M s); [|reflexivity].
  now rewrite Graph_closure_sym.
Qed.

(* ================================================================== *)
(** * The d-separation oracle *)
(* ================================================================== *)

Lemma ancestors_Ok (G : DiGraph) (n : string) :
  has_node G n = true -> ancestors G n = Ok (anc_list G n).
Proof. unfold ancestors, anc_list. now intros ->. Qed.

Lemma ancestors_Raise (G : DiGraph) (n : string) :
  has_node G n = false -> ancestors G n = Raise NetworkXError.
Proof. unfold ancestors. now intros ->. Qed.

(** The ancestor loop either raises [NetworkXError], when some node of the
    list is not in the graph, or returns the union. *)
Lemma collect_ancestors_spec (G : DiGraph) (todo : list string) :
  forall anc,
    (forallb (has_node G) todo = false ->
     collect_ancestors G todo anc = Raise NetworkXError)
    /\ (forallb (has_node G) todo = true ->
        exists r, collect_ancestors G todo anc = Ok r
                  /\ forall x, In x r <->
                       In x anc \/ exists n, In n todo /\ In x (anc_list G n)).
Proof.
  induction todo as [|n todo IH]; intros anc; simpl.
  - split; [discriminate|]. intros _. exists anc. split; [reflexivity|].
    intros x. split; [tauto|]. intros [H|[n [[] _]]]. assumption.
  - destruct (has_node G n) eqn:En; simpl.
    + rewrite (ancestors_Ok _ _ En). simpl.
      destruct (IH (fold_left add_new (anc_list G n) anc)) as [IH1 IH2].
      split; [exact IH1|]. intros Hall.
      destruct (IH2 Hall) as [r [Hr Hin]]. exists r. split; [exact Hr|].
      intros x. rewrite Hin, fold_add_new_In. split.
      * intros [[H|H]|[m [Hm H]]]; [tauto| |].
        -- right. exists n. tauto.
        -- right. exists m. tauto.
      * intros [H|[m [[<-|Hm] H]]]; [tauto|tauto|].
        right. exists m. tauto.
    + rewrite (ancestors_Raise _ _ En). simpl.
      split; [reflexivity|discriminate].
Qed.

Lemma removed_node_absent (M : Graph) (Z : list string) (z : string) :
  In z Z ->
  Graph_has_node
    (Graph_remove_nodes_from M (filter (fun z => Graph_has_node M z) Z)) z
  = false.
Proof.
  intros Hz. unfold Graph_has_node at 1. simpl.
  apply mem_str_not_In. intros H. apply filter_In in H.
  destruct H as [Hin Hnot].
  apply negb_true_iff, mem_str_not_In in Hnot. apply Hnot.
  apply filter_In. split; [assumption|]. now apply mem_str_In.
Qed.

(** C8: for distinct endpoints and a conditioning set of vertices of the
    graph that contains one of the endpoints, the oracle answers
    "separated". *)
Theorem C8_conditioning_on_endpoint_separates
    (G : DiGraph) (s t : string) (Z : list string) :
  s <> t ->
  (forall z, In z Z -> In z (nodes G)) ->
  In s Z \/ In t Z ->
  is_d_separated G s t Z = Ok true.
Proof.
  intros Hne HZ Hin. unfold is_d_separated.
  destruct (String.eqb_spec s t) as [Heq|_]; [contradiction|].
  destruct (negb (has_node G s) || negb (has_node G t)) eqn:Enodes;
    [reflexivity|].
  apply orb_false_iff in Enodes. destruct Enodes as [Hs Ht].
  apply negb_false_iff in Hs, Ht.
  destruct (collect_ancestors_spec G (s :: t :: Z) (s :: t :: Z)) as [_ Hok].
  destruct Hok as [anc [Hanc _]].
  { simpl. rewrite Hs, Ht. simpl. apply forallb_forall.
    intros z Hz. now apply mem_str_In, HZ. }
  rewrite Hanc. simpl.
  destruct Hin as [Hin|Hin].
  - rewrite (removed_node_absent (moralize (subgraph G anc)) Z s Hin).
    reflexivity.
  - rewrite (removed_node_absent (moralize (subgraph G anc)) Z t Hin).
    simpl. now rewrite orb_true_r.
Qed.

Lemma C8_conditioning_on_endpoint_witness :
  is_d_separated (mkDiGraph ["X"; "Y"] [("X", "Y")]) "X" "Y" ["Y"] = Ok true.
Proof.
  apply C8_conditioning_on_endpoint_separates.
  - discriminate.
  - intros z [<-|[]]. simpl. tauto.
  - right. simpl. tauto.
Defined.

Lemma subgraph_ext (G : DiGraph) (a b : list string) :
  (forall x, In x a <-> In x b) -> subgraph G a = subgraph G b.
Proof.
  intros H. unfold subgraph. f_equal.
  - apply filter_ext. intros x. now apply mem_str_ext.
  - apply filter_ext. intros [u v]. simpl.
    now rewrite (mem_str_ext _ _ H u), (mem_str_ext _ _ H v).
Qed.

(** C9: the oracle is symmetric in its two endpoints, for every graph,
    endpoints and conditioning set (an exception included). *)
Theorem C9_d_separation_symmetric
    (G : DiGraph) (s t : string) (Z : list string) :
  is_d_separated G s t Z = is_d_separated G t s Z.
Proof.
  unfold is_d_separated.
  rewrite (String.eqb_sym t s).
  destruct (String.eqb s t); [reflexivity|].
  rewrite (orb_comm (negb (has_node G t))).
  destruct (negb (has_node G s) || negb (has_node G t)); [reflexivity|].
  destruct (collect_ancestors_spec G (s :: t :: Z) (s :: t :: Z)) as [H1 H2].
  destruct (collect_ancestors_spec G (t :: s :: Z) (t :: s :: Z)) as [H3 H4].
  assert (Hall : forallb (has_node G) (t :: s :: Z)
                 = forallb (has_node G) (s :: t :: Z)).
  { simpl. now rewrite !andb_assoc, (andb_comm (has_node G t)). }
  rewrite Hall in H3, H4.
  destruct (forallb (has_node G) (s :: t :: Z)).
  - destruct (H2 eq_refl) as [r1 [Hr1 Hin1]].
    destruct (H4 eq_refl) as [r2 [Hr2 Hin2]].
    rewrite Hr1, Hr2. simpl.
    assert (Hsub : subgraph G r1 = subgraph G r2).
    { apply subgraph_ext. intros x. rewrite Hin1, Hin2. simpl.
      split; (intros [H|[n [Hn H]]];
              [left; tauto | right; exists n; split; [tauto|assumption]]). }
    rewrite Hsub.
    set (M := Graph_remove_nodes_from _ _).
    rewrite (orb_comm (negb (Graph_has_node M t))).
    destruct (negb (Graph_has_node M s) || negb (Graph_has_node M t));
      [reflexivity|].
    now rewrite Graph_has_path_sym.
  - rewrite (H1 eq_refl), (H3 eq_refl). reflexivity.
Qed.

(* ================================================================== *)
(** * The rule enumerators *)
(* ================================================================== *)

Lemma emit_In (cand u : CausalProbability)
    (st : list CausalProbability * list string) :
  In u (fst (emit cand st)) -> In u (fst st) \/ u = cand.
Proof.
  unfold emit. destruct (mem_str (str_CP cand) (snd st)); simpl; [tauto|].
  rewrite in_app_iff. simpl. intros [H|[H|[]]]; auto.
Qed.

(** An invariant of the [outs] of a loop whose body appends by [emit]. *)
Lemma fold_outs_inv (A : Type) (P : CausalProbability -> Prop)
    (f : list CausalProbability * list string -> A
         -> list CausalProbability * list string)
    (l : list A) :
  (forall st a, In a l ->
     (forall u, In u (fst st) -> P u) ->
     forall u, In u (fst (f st a)) -> P u) ->
  forall st, (forall u, In u (fst st) -> P u) ->
  forall u, In u (fst (fold_left f l st)) -> P u.
Proof.
  induction l as [|a l IH]; intros Hf st Hst u; simpl; [apply Hst|].
  apply IH.
  - intros st' a' Ha'. apply Hf. now right.
  - apply Hf; [now left|assumption].
Qed.

Lemma do_entries_from_In (conds : list condition) :
  forall i idx Z,
    In (idx, Z) (do_entries_from i conds) <->
    (i <= idx)%nat /\ exists v, nth_error conds (idx - i) = Some (Do Z v).
Proof.
  induction conds as [|c conds IH]; intros i idx Z; simpl.
  - split; [tauto|]. intros [_ [v H]]. destruct (idx - i)%nat; discriminate.
  - assert (Hstep : forall k, (S i <= k)%nat ->
              (k - i = S (k - S i))%nat) by (intros; lia).
    destruct c as [var val|l r|n]; simpl; rewrite ?IH.
    + split.
      * intros [H|[Hle [v Hv]]].
        -- inversion H; subst. split; [lia|]. exists val.
           now rewrite Nat.sub_diag.
        -- split; [lia|]. exists v. now rewrite (Hstep idx Hle).
      * intros [Hle [v Hv]].
        destruct (Nat.eq_dec i idx) as [->|Hne].
        -- rewrite Nat.sub_diag in Hv. simpl in Hv. inversion Hv. now left.
        -- right. split; [lia|]. exists v.
           rewrite (Hstep idx) in Hv by lia. exact Hv.
    + split.
      * intros [Hle [v Hv]]. split; [lia|]. exists v.
        now rewrite (Hstep idx Hle).
      * intros [Hle [v Hv]].
        destruct (Nat.eq_dec i idx) as [->|Hne].
        -- rewrite Nat.sub_diag in Hv. discriminate.
        -- split; [lia|]. exists v. rewrite (Hstep idx) in Hv by lia.
           exact Hv.
    + split.
      * intros [Hle [v Hv]]. split; [lia|]. exists v.
        now rewrite (Hstep idx Hle).
      * intros [Hle [v Hv]].
        destruct (Nat.eq_dec i idx) as [->|Hne].
        -- rewrite Nat.sub_diag in Hv. discriminate.
        -- split; [lia|]. exists v. rewrite (Hstep idx) in Hv by lia.
           exact Hv.
Qed.

Lemma do_entries_In (conds : list condition) (idx : nat) (Z : string) :
  In (idx, Z) (do_entries conds) <->
  exists v, nth_error conds idx = Some (Do Z v).
Proof.
  unfold do_entries. rewrite do_entries_from_In, Nat.sub_0_r.
  split; [tauto|]. intros H. split; [lia|assumption].
Qed.

Lemma set_at_In (c x : condition) (l : list condition) (idx : nat) :
  In c (set_at idx x l) -> c = x \/ In c l.
Proof.
  revert idx. induction l as [|d l IH]; intros [|i]; simpl; try tauto.
  - intros [H|H]; auto.
  - intros [H|H]; auto. apply IH in H. tauto.
Qed.

Lemma remove_at_In (c : condition) (l : list condition) (idx : nat) :
  In c (remove_at idx l) -> In c l.
Proof.
  revert idx. induction l as [|d l IH]; intros [|i]; simpl; try tauto.
  intros [H|H]; [now left|]. right. eapply IH; eauto.
Qed.

(** What each enumerator can emit. *)
Lemma apply_rule_1_all_In (ce : CausalExpr) (u : CausalProbability) :
  In u (apply_rule_1_all ce) ->
  exists W, In W (obs_vars_of (_conditions (expression ce)))
            /\ u = rule_1_candidate (_outcome (expression ce))
                                    (_conditions (expression ce)) W.
Proof.
  unfold apply_rule_1_all.
  apply (fold_outs_inv _
           (fun u => exists W,
                In W (obs_vars_of (_conditions (expression ce)))
                /\ u = rule_1_candidate (_outcome (expression ce))
                                        (_conditions (expression ce)) W)).
  - intros st W HW Hst v.
    destruct (_custom_d_separation _ _ _ _) as [[|]|e]; try apply Hst.
    intros Hv. apply emit_In in Hv. destruct Hv as [Hv| ->]; [now apply Hst|].
    now exists W.
  - intros v [].
Qed.

Lemma apply_rule_2_all_In (ce : CausalExpr) (u : CausalProbability) :
  In u (apply_rule_2_all ce) ->
  exists idx Z, In (idx, Z) (do_entries (_conditions (expression ce)))
                /\ u = rule_2_candidate (_outcome (expression ce))
                                        (_conditions (expression ce)) idx Z.
Proof.
  unfold apply_rule_2_all.
  apply (fold_outs_inv _
           (fun u => exists idx Z,
                In (idx, Z) (do_entries (_conditions (expression ce)))
                /\ u = rule_2_candidate (_outcome (expression ce))
                                        (_conditions (expression ce)) idx Z)).
  - intros st [idx Z] He Hst v.
    destruct (_custom_d_separation _ _ _ _) as [[|]|e]; try apply Hst.
    intros Hv. apply emit_In in Hv. destruct Hv as [Hv| ->]; [now apply Hst|].
    now exists idx, Z.
  - intros v [].
Qed.

Lemma rule_3_loop_In (ce : CausalExpr) (entries : list (nat * string))
    (P : CausalProbability -> Prop) :
  (forall idx, P (rule_3_candidate (_outcome (expression ce))
                                   (_conditions (expression ce)) idx)) ->
  forall todo st st',
    rule_3_loop ce entries todo st = Ok st' ->
    (forall u, In u (fst st) -> P u) ->
    forall u, In u (fst st') -> P u.
Proof.
  intros HP. induction todo as [|[idx Z] todo IH]; intros st st'; simpl.
  - intros H. inversion H; subst. auto.
  - destruct (is_ancestor_of_obs _ _ _) as [is_anc|e]; simpl; [|discriminate].
    intros H Hst. eapply IH; [exact H|].
    destruct (_custom_d_separation _ _ _ _) as [[|]|e]; try apply Hst.
    intros v Hv. apply emit_In in Hv. destruct Hv as [Hv| ->]; auto.
Qed.

Lemma apply_rule_3_all_In (ce : CausalExpr) (outs : list CausalProbability)
    (u : CausalProbability) :
  apply_rule_3_all ce = Ok outs -> In u outs ->
  exists idx, u = rule_3_candidate (_outcome (expression ce))
                                   (_conditions (expression ce)) idx.
Proof.
  unfold apply_rule_3_all.
  destruct (rule_3_loop _ _ _ _) as [st|e] eqn:E; simpl; [|discriminate].
  intros H. inversion H; subst.
  apply (rule_3_loop_In ce _
           (fun u => exists idx,
                u = rule_3_candidate (_outcome (expression ce))
                                     (_conditions (expression ce)) idx)
           ltac:(intros idx; now exists idx) _ _ _ E).
  intros v [].
Qed.

Lemma derived_vars (conds : list condition) (c : condition) :
  derived_from conds c -> In (cond_var c) (map cond_var conds).
Proof.
  intros [H|[Z [v [H ->]]]].
  - now apply in_map.
  - change (Sym Z) with (Sym (cond_var (Do Z v))). simpl.
    change Z with (cond_var (Do Z v)). now apply in_map.
Qed.

(** C10: every successor an enumerator emits keeps the outcome, has only
    conditions derived from conditions of the input term (one of them, or
    the observation on the variable of one of its interventions), and
    mentions only variables of the input term. *)
Theorem C10_no_rule_introduces (ce : CausalExpr) (u : CausalProbability) :
  In u (apply_rule_1_all ce)
  \/ In u (apply_rule_2_all ce)
  \/ (exists outs, apply_rule_3_all ce = Ok outs /\ In u outs) ->
  _outcome u = _outcome (expression ce)
  /\ (forall c, In c (_conditions u) ->
        derived_from (_conditions (expression ce)) c)
  /\ incl (term_vars u) (term_vars (expression ce)).
Proof.
  intros H.
  assert (Hd : _outcome u = _outcome (expression ce)
               /\ forall c, In c (_conditions u) ->
                    derived_from (_conditions (expression ce)) c).
  { destruct H as [H|[H|[outs [Ho H]]]].
    - apply apply_rule_1_all_In in H. destruct H as [W [_ ->]].
      split; [reflexivity|]. intros c Hc. simpl in Hc.
      apply sorted_conditions_In, filter_In in Hc. left. tauto.
    - apply apply_rule_2_all_In in H. destruct H as [idx [Z [He ->]]].
      split; [reflexivity|]. intros c Hc. simpl in Hc.
      apply sorted_conditions_In, set_at_In in Hc.
      destruct Hc as [->|Hc]; [|now left].
      apply do_entries_In in He. destruct He as [v Hv].
      right. exists Z, v. split; [|reflexivity].
      eapply nth_error_In; eauto.
    - destruct (apply_rule_3_all_In _ _ _ Ho H) as [idx ->].
      split; [reflexivity|]. intros c Hc. simpl in Hc.
      apply sorted_conditions_In, remove_at_In in Hc. now left. }
  destruct Hd as [Hy Hc]. split; [assumption|]. split; [assumption|].
  unfold term_vars. rewrite Hy. intros x [<-|Hx]; [now left|]. right.
  apply in_map_iff in Hx. destruct Hx as [c [<- Hin]].
  apply derived_vars. now apply Hc.
Qed.

Lemma C10_no_rule_introduces_witness :
  let ce := CausalExpr_init
              (CausalProbability_new (OSym "Y") [Do "X" None; Do "Z" None])
              [("X", ["Y"]); ("Z", []); ("Y", [])] in
  let u := CausalProbability_new (OSym "Y") [Do "X" None; Sym "Z"] in
  _outcome u = _outcome (expression ce)
  /\ (forall c, In c (_conditions u) ->
        derived_from (_conditions (expression ce)) c)
  /\ incl (term_vars u) (term_vars (expression ce)).
Proof.
  intros ce u. apply C10_no_rule_introduces.
  right. left. vm_compute. right. left. reflexivity.
Defined.

(** C1 fails on the code at this input: for [P(Y | do(Z=1))] over the graph
    with [Z] and [Y] isolated, the only Rule 2 successor is [P(Y | Z)]; it
    holds the bare observation [Z] and not the observation [Z=1]. *)
Theorem C1_rule_2_drops_value :
  let ce := CausalExpr_init
              (CausalProbability_new (OSym "Y") [Do "Z" (Some (VInt 1))])
              [("Z", []); ("Y", [])] in
  apply_rule_2_all ce = [CausalProbability_new (OSym "Y") [Sym "Z"]]
  /\ forall u, In u (apply_rule_2_all ce) ->
       In (Sym "Z") (_conditions u)
       /\ ~ In (Eq "Z" (VInt 1)) (_conditions u).
Proof.
  intros ce.
  assert (H : apply_rule_2_all ce
              = [CausalProbability_new (OSym "Y") [Sym "Z"]])
    by (vm_compute; reflexivity).
  split; [exact H|]. rewrite H. intros u [<-|[]]. simpl. split.
  - now left.
  - intros [Hc|[]]. discriminate.
Qed.

(** ** Terms whose outcome is an equality *)

Lemma nodes_remove_incoming (g : DiGraph) (X : string) :
  nodes (remove_incoming g X) = nodes g.
Proof. reflexivity. Qed.

Lemma nodes_remove_outgoing (g : DiGraph) (Z : string) :
  nodes (remove_outgoing g Z) = nodes g.
Proof. reflexivity. Qed.

Lemma nodes_fold_remove_incoming (vars : list string) (g : DiGraph) :
  nodes (fold_left remove_incoming vars g) = nodes g.
Proof.
  revert g. induction vars as [|v vars IH]; intros g; simpl; [reflexivity|].
  now rewrite IH.
Qed.

(** The not-in-graph branch of the oracle. *)
Lemma is_d_separated_absent_start (g : DiGraph) (start end_ : string)
    (Z : list string) :
  ~ In start (nodes g) -> start <> end_ ->
  is_d_separated g start end_ Z = Ok true.
Proof.
  intros Hn Hne. unfold is_d_separated.
  destruct (String.eqb_spec start end_) as [Heq|_]; [contradiction|].
  unfold has_node at 1. apply mem_str_not_In in Hn. now rewrite Hn.
Qed.

Lemma fold_left_ext_in (A B : Type) (f g : A -> B -> A) (l : list B) :
  (forall a b, In b l -> f a b = g a b) ->
  forall a, fold_left f l a = fold_left g l a.
Proof.
  induction l as [|b l IH]; intros H a; simpl; [reflexivity|].
  rewrite (H a b) by now left.
  apply IH. intros a' b' Hb'. apply H. now right.
Qed.

Lemma fold_left_map_emit (A : Type) (h : A -> CausalProbability)
    (l : list A) :
  forall st,
    fold_left (fun st c => emit c st) (map h l) st
    = fold_left (fun st a => emit (h a) st) l st.
Proof. induction l as [|a l IH]; intros st; simpl; [reflexivity|apply IH]. Qed.

Lemma obs_vars_of_vars (conds : list condition) (W : string) :
  In W (obs_vars_of conds) -> In W (map cond_var conds).
Proof.
  unfold obs_vars_of. rewrite in_flat_map, in_map_iff.
  intros [c [Hc HW]]. exists c. split; [|assumption].
  destruct c; simpl in *; tauto.
Qed.

Lemma do_entries_vars (conds : list condition) (idx : nat) (Z : string) :
  In (idx, Z) (do_entries conds) -> In Z (map cond_var conds).
Proof.
  intros H. apply do_entries_In in H. destruct H as [v Hv].
  apply nth_error_In in Hv. apply in_map_iff. now exists (Do Z v).
Qed.

Lemma is_ancestor_of_obs_Ok (g : DiGraph) (Z : string) (obs : list string) :
  obs = [] \/ (In Z (nodes g) /\ forall W, In W obs -> In W (nodes g)) ->
  exists b, is_ancestor_of_obs g Z obs = Ok b.
Proof.
  intros [->|[HZ Hobs]]; [now exists false|].
  induction obs as [|W obs IH]; simpl; [now exists false|].
  unfold has_path, has_node.
  assert (H1 : mem_str Z (nodes g) = true) by now apply mem_str_In.
  assert (H2 : mem_str W (nodes g) = true).
  { apply mem_str_In, Hobs. now left. }
  rewrite H1, H2. cbv beta iota delta [andb].
  destruct (mem_str W (closure _ _ _)); [now exists true|].
  apply IH. intros W' HW'. apply Hobs. now right.
Qed.

Lemma emit_all_represents (cands : list CausalProbability) :
  forall c, In c cands ->
    exists u, In u (emit_all cands) /\ str_CP u = str_CP c.
Proof.
  unfold emit_all.
  assert (H : forall l st,
             (forall s, In s (snd st) ->
                exists u, In u (fst st) /\ str_CP u = s) ->
             (forall s, In s (snd (fold_left (fun st c => emit c st) l st)) ->
                exists u, In u (fst (fold_left (fun st c => emit c st) l st))
                          /\ str_CP u = s)
             /\ (forall c, In c l ->
                   In (str_CP c)
                      (snd (fold_left (fun st c => emit c st) l st)))
             /\ (forall s, In s (snd st) ->
                   In s (snd (fold_left (fun st c => emit c st) l st)))).
  { induction l as [|d l IH]; intros st Hst; simpl.
    - split; [assumption|]. split; [intros c []|auto].
    - assert (Hst' : forall s, In s (snd (emit d st)) ->
                exists u, In u (fst (emit d st)) /\ str_CP u = s).
      { unfold emit. destruct (mem_str (str_CP d) (snd st)) eqn:E;
          [assumption|]. simpl. intros s Hs. apply in_app_or in Hs.
        destruct Hs as [Hs|[<-|[]]].
        - destruct (Hst s Hs) as [u [Hu Heq]]. exists u.
          split; [apply in_or_app; now left|assumption].
        - exists d. split; [apply in_or_app; right; now left|reflexivity]. }
      destruct (IH (emit d st) Hst') as [I1 [I2 I3]].
      split; [assumption|]. split.
      + intros c [<-|Hc]; [|now apply I2].
        apply I3. unfold emit.
        destruct (mem_str (str_CP d) (snd st)) eqn:E.
        * now apply mem_str_In.
        * simpl. apply in_or_app. right. now left.
      + intros s Hs. apply I3. unfold emit.
        destruct (mem_str (str_CP d) (snd st)); [assumption|].
        simpl. apply in_or_app. now left. }
  intros c Hc.
  destruct (H cands ([], [])) as [I1 [I2 _]]; [intros s []|].
  apply I1. now apply I2.
Qed.

Lemma rule_3_loop_vacuous (ce : CausalExpr) (entries : list (nat * string)) :
  (forall g W Zs, nodes g = nodes (graph ce) ->
     In W (map cond_var (_conditions (expression ce))) ->
     _custom_d_separation (str_outcome (_outcome (expression ce))) W Zs g
     = Ok true) ->
  obs_vars_of (_conditions (expression ce)) = []
  \/ (forall v, In v (map cond_var (_conditions (expression ce))) ->
        In v (nodes (graph ce))) ->
  forall todo st,
    incl todo (do_entries (_conditions (expression ce))) ->
    rule_3_loop ce entries todo st
    = Ok (fold_left
            (fun st e =>
               emit (rule_3_candidate (_outcome (expression ce))
                       (_conditions (expression ce)) (fst e)) st)
            todo st).
Proof.
  intros Hsep Hin.
  induction todo as [|[idx Z] todo IH]; intros st Hincl; simpl;
    [reflexivity|].
  assert (HZ : In Z (map cond_var (_conditions (expression ce)))).
  { eapply do_entries_vars. apply Hincl. now left. }
  destruct (is_ancestor_of_obs_Ok
              (fold_left remove_incoming (other_do_vars_of entries idx)
                 (graph ce)) Z
              (obs_vars_of (_conditions (expression ce)))) as [b Hb].
  { destruct Hin as [Hin|Hin]; [now left|right].
    rewrite nodes_fold_remove_incoming. split; [now apply Hin|].
    intros W HW. now apply Hin, obs_vars_of_vars. }
  rewrite Hb. simpl.
  rewrite Hsep;
    [|destruct b; rewrite ?nodes_remove_incoming;
      apply nodes_fold_remove_incoming | assumption].
  apply IH. intros e He. apply Hincl. now right.
Qed.

(** C4, as the code has it: when the outcome is an equality whose rendering
    [Eq(Y, v)] names neither a vertex of the graph nor a variable of a
    condition, every d-separation test of the enumerators answers
    "separated", so Rules 1 and 2 emit every candidate (the first of each
    rendering, and every candidate has its rendering among the outputs),
    whatever the edges; Rule 3 does so provided its reachability test cannot
    raise: the term has no observation, or every variable of a condition is
    a vertex. *)
Theorem C4_equality_outcome_tests_vacuous
    (ce : CausalExpr) (lhs : string) (rhs : value) :
  _outcome (expression ce) = OEq lhs rhs ->
  ~ In (str_Eq lhs rhs) (nodes (graph ce)) ->
  ~ In (str_Eq lhs rhs) (map cond_var (_conditions (expression ce))) ->
  (forall g W Zs, nodes g = nodes (graph ce) ->
     In W (map cond_var (_conditions (expression ce))) ->
     _custom_d_separation (str_outcome (_outcome (expression ce))) W Zs g
     = Ok true)
  /\ apply_rule_1_all ce
     = emit_all (map (rule_1_candidate (_outcome (expression ce))
                        (_conditions (expression ce)))
                     (obs_vars_of (_conditions (expression ce))))
  /\ apply_rule_2_all ce
     = emit_all (map (fun e => rule_2_candidate (_outcome (expression ce))
                                 (_conditions (expression ce)) (fst e) (snd e))
                     (do_entries (_conditions (expression ce))))
  /\ (obs_vars_of (_conditions (expression ce)) = []
      \/ (forall v, In v (map cond_var (_conditions (expression ce))) ->
            In v (nodes (graph ce))) ->
      apply_rule_3_all ce
      = Ok (emit_all
              (map (fun e => rule_3_candidate (_outcome (expression ce))
                               (_conditions (expression ce)) (fst e))
                   (do_entries (_conditions (expression ce))))))
  /\ (forall cands c, In c cands ->
        exists u, In u (emit_all cands) /\ str_CP u = str_CP c).
Proof.
  intros HY Hnode Hvar.
  assert (Hsep : forall g W Zs, nodes g = nodes (graph ce) ->
            In W (map cond_var (_conditions (expression ce))) ->
            _custom_d_separation (str_outcome (_outcome (expression ce)))
              W Zs g = Ok true).
  { intros g W Zs Hg HW. unfold _custom_d_separation.
    rewrite HY. simpl. apply is_d_separated_absent_start.
    - now rewrite Hg.
    - intros Heq. apply Hvar. now rewrite Heq. }
  split; [exact Hsep|]. split; [|split; [|split; [|apply emit_all_represents]]].
  - unfold apply_rule_1_all, emit_all. rewrite fold_left_map_emit. f_equal.
    apply fold_left_ext_in. intros st W HW.
    rewrite Hsep; [reflexivity| |now apply obs_vars_of_vars].
    apply nodes_fold_remove_incoming.
  - unfold apply_rule_2_all, emit_all. rewrite fold_left_map_emit. f_equal.
    apply fold_left_ext_in. intros st [idx Z] He.
    rewrite Hsep; [reflexivity| |eapply do_entries_vars; eauto].
    rewrite nodes_remove_outgoing. apply nodes_fold_remove_incoming.
  - intros Hin. unfold apply_rule_3_all, emit_all.
    rewrite (rule_3_loop_vacuous ce _ Hsep Hin); [|apply incl_refl].
    simpl. now rewrite fold_left_map_emit.
Qed.

Lemma C4_equality_outcome_witness :
  let ce := CausalExpr_init
              (CausalProbability_new (OEq "Y" (VInt 1))
                 [Do "X" None; Sym "W"])
              [("X", ["Y"; "W"]); ("W", ["Y"])] in
  apply_rule_1_all ce
  = [CausalProbability_new (OEq "Y" (VInt 1)) [Do "X" None]]
  /\ apply_rule_2_all ce
     = [CausalProbability_new (OEq "Y" (VInt 1)) [Sym "X"; Sym "W"]]
  /\ apply_rule_3_all ce
     = Ok [CausalProbability_new (OEq "Y" (VInt 1)) [Sym "W"]].
Proof.
  intros ce.
  destruct (C4_equality_outcome_tests_vacuous ce "Y" (VInt 1))
    as [_ [H1 [H2 [H3 _]]]].
  - reflexivity.
  - vm_compute. intros [H|[H|[H|[]]]]; discriminate.
  - vm_compute. intros [H|[H|[]]]; discriminate.
  - split; [exact H1|]. split; [exact H2|].
    apply H3. right. vm_compute. intros v [<-|[<-|[]]]; tauto.
Defined.

(** C4 as claimed fails twice.  A graph may have a vertex named like the
    rendering of the outcome: with the edge [Eq(Y, 1) -> W] the test for
    [P(Y=1 | W)] answers "not separated" and Rule 1 emits nothing.  And
    Rule 3 does not fire when an observed variable is missing from the
    graph: its reachability test raises [NodeNotFound], which leaves the
    enumerator. *)
Lemma C4_counterexample :
  (let ce := CausalExpr_init
               (CausalProbability_new (OEq "Y" (VInt 1)) [Sym "W"])
               [("Eq(Y, 1)", ["W"])] in
   _custom_d_separation (str_outcome (OEq "Y" (VInt 1))) "W" [] (graph ce)
   = Ok false
   /\ apply_rule_1_all ce = [])
  /\ (let ce := CausalExpr_init
                  (CausalProbability_new (OEq "Y" (VInt 1))
                     [Do "X" None; Sym "W"])
                  [("X", ["Y"])] in
      apply_rule_3_all ce = Raise NodeNotFound).
Proof. split; [split|]; vm_compute; reflexivity. Qed.

(* ================================================================== *)
(** * Walks, simple walks and cycles *)
(* ================================================================== *)

Lemma walk_nonempty_inv (R : string -> string -> Prop) (s t : string)
    (l : list string) :
  walk R s l t -> l <> [] ->
  exists u l', l = u :: l' /\ R s u /\ walk R u l' t.
Proof.
  intros H Hne. inversion H; subst; [congruence|]. eauto.
Qed.

Lemma walk_suffix (R : string -> string -> Prop) (l1 : list string) :
  forall s x l2 t, walk R s (l1 ++ x :: l2) t -> walk R x l2 t.
Proof.
  induction l1 as [|y l1 IH]; intros s x l2 t H; simpl in H;
    inversion H; subst; eauto.
Qed.

Lemma walk_last (R : string -> string -> Prop) (d : string) :
  forall s l t, walk R s l t -> l <> [] -> last l d = t.
Proof.
  intros s l t H. induction H as [s|s u l t Hsu Hw IH]; intros Hne;
    [congruence|].
  destruct l as [|v l].
  - inversion Hw; subst. reflexivity.
  - change (last (u :: v :: l) d) with (last (v :: l) d).
    apply IH. discriminate.
Qed.

Lemma walk_mid (R : string -> string -> Prop) (d : string)
    (l1 : list string) :
  forall s x l2 t,
    walk R s (l1 ++ x :: l2) t -> l1 <> [] -> R (last l1 d) x.
Proof.
  induction l1 as [|y l1 IH]; intros s x l2 t H Hne; [congruence|].
  simpl in H. inversion H; subst.
  destruct l1 as [|z l1].
  - simpl in *. match goal with Hw : walk R y _ t |- _ => inversion Hw end.
    assumption.
  - change (last (y :: z :: l1) d) with (last (z :: l1) d).
    eapply IH; [eassumption|discriminate].
Qed.

(** Every walk contains a walk with the same ends that repeats no vertex. *)
Lemma walk_simple (R : string -> string -> Prop) :
  forall s l t, walk R s l t ->
    exists l', walk R s l' t /\ NoDup (s :: l') /\ incl l' l.
Proof.
  intros s l t H. induction H as [s|s u l t Hsu Hw [l' [Hw' [Hnd Hincl]]]].
  - exists []. split; [constructor|]. split; [|apply incl_refl].
    constructor; [intros []|constructor].
  - destruct (string_dec s u) as [->|Hne].
    + exists l'. split; [assumption|]. split; [assumption|].
      now apply incl_tl.
    + destruct (in_dec string_dec s l') as [Hin|Hnin].
      * apply in_split in Hin. destruct Hin as [a [b ->]].
        exists b. split; [eapply walk_suffix; eassumption|]. split.
        -- inversion Hnd as [|? ? _ Hnd']; subst.
           now apply NoDup_app_remove_l in Hnd'.
        -- apply incl_tl. intros x Hx. apply Hincl, in_or_app.
           right. now right.
      * exists (u :: l'). split; [now constructor|]. split.
        -- constructor; [|assumption]. intros [Heq|Hin]; [congruence|tauto].
        -- intros x [<-|Hx]; [now left|right; now apply Hincl].
Qed.

Lemma walk_in_universe (next : string -> list string) (U : list string) :
  (forall x y, In x U -> In y (next x) -> In y U) ->
  forall s l t, In s U -> walk (step_of next) s l t -> incl l U.
Proof.
  intros Hclosed s l t Hs H. induction H as [s|s u l t Hsu Hw IH].
  - intros x [].
  - assert (Hu : In u U) by (eapply Hclosed; eauto).
    intros x [<-|Hx]; [assumption|]. now apply IH.
Qed.

(** With as many rounds as the universe has vertices the saturation
    reaches every vertex a walk reaches: the bound of the model of
    [nx.has_path] and [nx.ancestors] loses nothing. *)
Lemma closure_saturates (next : string -> list string) (U : list string) :
  (forall x y, In x U -> In y (next x) -> In y U) ->
  forall s l t, In s U -> walk (step_of next) s l t ->
    In t (closure next (List.length U) [s]).
Proof.
  intros Hclosed s l t Hs Hw.
  destruct (walk_simple _ _ _ _ Hw) as [l' [Hw' [Hnd _]]].
  apply closure_spec. exists s, l'. split; [now left|].
  split; [assumption|].
  assert (Hincl : incl (s :: l') U).
  { intros x [<-|Hx]; [assumption|].
    eapply walk_in_universe; eassumption. }
  pose proof (NoDup_incl_length Hnd Hincl) as Hlen. simpl in Hlen. lia.
Qed.

Lemma walk_edges_successors (G : DiGraph) (s t : string) (l : list string) :
  walk (edge_rel G) s l t <-> walk (step_of (successors G)) s l t.
Proof.
  split; apply walk_incl; intros x y; unfold step_of, edge_rel;
    apply successors_In.
Qed.

Lemma closure_complete (G : DiGraph) :
  wf_graph G ->
  forall s l t, In s (nodes G) -> walk (edge_rel G) s l t ->
    In t (closure (successors G) (List.length (nodes G)) [s]).
Proof.
  intros Hwf s l t Hs Hw. apply (closure_saturates _ _) with (l := l).
  - intros x y _ Hy. apply successors_In in Hy. now apply (Hwf x y).
  - assumption.
  - now apply walk_edges_successors.
Qed.

(** [nx.ancestors] on a node of the graph: the other vertices from which a
    walk leads to it. *)
Lemma ancestors_correct (G : DiGraph) (n : string) :
  wf_graph G -> In n (nodes G) ->
  ancestors G n = Ok (anc_list G n)
  /\ forall a, In a (anc_list G n) <->
       a <> n /\ exists l, walk (edge_rel G) a l n.
Proof.
  intros Hwf Hn. split; [now apply ancestors_Ok, mem_str_In|].
  assert (Hrev : forall x l y,
            walk (step_of (predecessors G)) x l y ->
            exists l', walk (edge_rel G) y l' x).
  { intros x l y H. induction H as [x|x u l y Hxu Hw [l' Hl']].
    - exists []. constructor.
    - exists (l' ++ [x]). eapply walk_snoc; [eassumption|].
      now apply predecessors_In. }
  assert (Hfwd : forall x l y,
            walk (edge_rel G) x l y ->
            exists l', walk (step_of (predecessors G)) y l' x).
  { intros x l y H. induction H as [x|x u l y Hxu Hw [l' Hl']].
    - exists []. constructor.
    - exists (l' ++ [x]). eapply walk_snoc; [eassumption|].
      now apply predecessors_In. }
  intros a. unfold anc_list. rewrite filter_In, negb_true_iff, String.eqb_neq.
  split.
  - intros [Hin Hne]. split; [assumption|].
    apply closure_spec in Hin. destruct Hin as [s [l [[<-|[]] [Hw _]]]].
    eapply Hrev; eassumption.
  - intros [Hne [l Hw]]. split; [|assumption].
    destruct (Hfwd _ _ _ Hw) as [l' Hw'].
    apply (closure_saturates _ _) with (l := l'); [|assumption|assumption].
    intros x y _ Hy. apply predecessors_In in Hy. now apply (Hwf y x).
Qed.

Lemma has_path_correct (G : DiGraph) (s t : string) :
  wf_graph G -> In s (nodes G) -> In t (nodes G) ->
  forall b, has_path G s t = Ok b ->
    (b = true <-> exists l, walk (edge_rel G) s l t).
Proof.
  intros Hwf Hs Ht b. unfold has_path, has_node.
  apply mem_str_In in Hs, Ht. rewrite Hs, Ht. simpl.
  intros H. inversion H; subst. clear H. rewrite mem_str_In. split.
  - intros H. apply closure_spec in H.
    destruct H as [s' [l [[<-|[]] [Hw _]]]].
    exists l. now apply walk_edges_successors.
  - intros [l Hw]. eapply closure_complete; eauto. now apply mem_str_In.
Qed.

(** The moral graph the oracle searches is well formed, so its bounded
    reachability is exact. *)
Lemma subgraph_wf (G : DiGraph) (keep : list string) :
  wf_graph G -> wf_graph (subgraph G keep).
Proof.
  intros Hwf u v H. simpl in *. apply filter_In in H.
  destruct H as [H Hk]. apply andb_true_iff in Hk. destruct Hk as [Hu Hv].
  simpl in Hu, Hv. destruct (Hwf u v H) as [H1 H2].
  split; apply filter_In; auto.
Qed.

Lemma parent_pairs_In (l : list string) (p q : string) :
  In (p, q) (parent_pairs l) -> In p l /\ In q l.
Proof.
  induction l as [|x l IH]; simpl; [tauto|].
  rewrite in_app_iff, in_map_iff.
  intros [[y [Heq Hy]]|H].
  - inversion Heq; subst. tauto.
  - apply IH in H. tauto.
Qed.

Lemma moralize_wf (G : DiGraph) : wf_graph G -> wf_Graph (moralize G).
Proof.
  intros Hwf u v H. simpl in *. apply in_app_or in H.
  destruct H as [H|H]; [now apply Hwf|].
  apply in_flat_map in H. destruct H as [child [_ H]].
  apply parent_pairs_In in H. destruct H as [Hu Hv].
  apply predecessors_In in Hu, Hv.
  split; [now apply (Hwf u child)|now apply (Hwf v child)].
Qed.

Lemma Graph_remove_nodes_wf (M : Graph) (ns : list string) :
  wf_Graph M -> wf_Graph (Graph_remove_nodes_from M ns).
Proof.
  intros Hwf u v H. simpl in *. apply filter_In in H.
  destruct H as [H Hk]. apply andb_true_iff in Hk. destruct Hk as [Hu Hv].
  simpl in Hu, Hv. destruct (Hwf u v H) as [H1 H2].
  split; apply filter_In; auto.
Qed.

Lemma Graph_has_path_correct (M : Graph) (s t : string) :
  wf_Graph M -> In s (gnodes M) -> In t (gnodes M) ->
  exists b, Graph_has_path M s t = Ok b
            /\ (b = true <-> exists l, walk (step_of (neighbors M)) s l t).
Proof.
  intros Hwf Hs Ht. unfold Graph_has_path, Graph_has_node.
  assert (Hs' := Hs). assert (Ht' := Ht).
  apply mem_str_In in Hs', Ht'. rewrite Hs', Ht'. simpl.
  eexists. split; [reflexivity|]. rewrite mem_str_In. split.
  - intros H. apply closure_spec in H.
    destruct H as [s' [l [[<-|[]] [Hw _]]]]. now exists l.
  - intros [l Hw]. apply (closure_saturates _ _) with (l := l);
      [|assumption|assumption].
    intros x y _ Hy. apply neighbors_In in Hy.
    destruct Hy as [Hy|Hy]; now apply Hwf in Hy.
Qed.

Lemma is_dag_iff_acyclic (G : DiGraph) :
  wf_graph G -> (is_directed_acyclic_graph G = true <-> acyclic G).
Proof.
  intros Hwf. unfold is_directed_acyclic_graph, acyclic.
  rewrite negb_true_iff. split.
  - intros Hdag [t [l0 [Hne Hw0]]].
    destruct (walk_nonempty_inv _ _ _ _ Hw0 Hne) as [u [l [-> [Hvu Hw]]]].
    assert (Hex : existsb
              (fun v => mem_str v (closure (successors G)
                                     (List.length (nodes G))
                                     (successors G v)))
              (nodes G) = true).
    { apply existsb_exists. exists t. split; [now apply (Hwf t u)|].
      apply mem_str_In.
      assert (Hu : In u (nodes G)) by now apply (Hwf t u).
      pose proof (closure_complete G Hwf u l t Hu Hw) as Hc.
      apply closure_spec in Hc. destruct Hc as [s [l' [Hs [Hw' Hl]]]].
      destruct Hs as [Hs|[]]. subst s.
      apply closure_spec. exists u, l'. split; [|now split].
      now apply successors_In. }
    congruence.
  - intros Hac.
    destruct (existsb _ (nodes G)) eqn:E; [|reflexivity].
    exfalso. apply Hac. apply existsb_exists in E.
    destruct E as [v [_ Hv]]. apply mem_str_In, closure_spec in Hv.
    destruct Hv as [s [l [Hs [Hw _]]]].
    exists v, (s :: l). split; [discriminate|].
    constructor; [now apply successors_In|].
    now apply walk_edges_successors.
Qed.

Lemma has_cycle_simple (G : DiGraph) :
  has_cycle G -> exists c, is_simple_cycle G c.
Proof.
  intros [t [l0 [Hne Hw0]]].
  destruct (walk_nonempty_inv _ _ _ _ Hw0 Hne) as [u [l [-> [Hvu Hw]]]].
  destruct (walk_simple _ _ _ _ Hw) as [l' [Hw' [Hnd _]]].
  exists (u :: l').
  assert (Hlast : last (u :: l') "" = t).
  { destruct l' as [|w l'].
    - inversion Hw'; subst. reflexivity.
    - change (last (u :: w :: l') "") with (last (w :: l') "").
      eapply walk_last; [eassumption|discriminate]. }
  split; [discriminate|]. split; [assumption|].
  rewrite Hlast. now constructor.
Qed.

Lemma last_app_nonempty (l2 l1 : list string) (d : string) :
  l1 <> [] -> last (l2 ++ l1) d = last l1 d.
Proof.
  intros Hne. induction l2 as [|x l2 IH]; [reflexivity|].
  simpl. rewrite IH. destruct (l2 ++ l1) eqn:E; [|reflexivity].
  apply app_eq_nil in E. destruct E. congruence.
Qed.

(** The closing edge of any rotation of a cycle is an edge of the cycle. *)
Lemma rotation_closing_edge (G : DiGraph) (c l1 l2 : list string) :
  is_simple_cycle G c -> c = l1 ++ l2 ->
  In (closing_edge (l2 ++ l1)) (edges G).
Proof.
  intros [Hne [_ Hw]] Hc. unfold closing_edge.
  assert (Hwhole : forall c', c' = c ->
            In (last c' "", hd "" c') (edges G)).
  { intros c' ->. destruct c as [|u l]; [congruence|].
    inversion Hw; subst. assumption. }
  destruct l2 as [|x l2].
  - simpl. apply Hwhole. now rewrite Hc, app_nil_r.
  - destruct l1 as [|y l1].
    + rewrite app_nil_r. apply Hwhole. now rewrite Hc.
    + rewrite last_app_nonempty by discriminate. simpl hd.
      rewrite Hc in Hw.
      apply (walk_mid (edge_rel G) "" (y :: l1) _ x l2 _ Hw). discriminate.
Qed.

(* ================================================================== *)
(** * Cycle repair *)
(* ================================================================== *)

Lemma edge_eqb_eq (e f : string * string) : edge_eqb e f = true <-> e = f.
Proof.
  destruct e as [a b], f as [c d]. unfold edge_eqb. simpl.
  rewrite andb_true_iff, !String.eqb_eq.
  split; [intros [-> ->]; reflexivity | intros H; inversion H; auto].
Qed.

Lemma mem_edge_In (e : string * string) (l : list (string * string)) :
  mem_edge e l = true <-> In e l.
Proof.
  unfold mem_edge. rewrite existsb_exists. split.
  - intros [f [Hf Heq]]. apply edge_eqb_eq in Heq. now subst.
  - intros H. exists e. split; [assumption|now apply edge_eqb_eq].
Qed.

Lemma remove_edge_In (G : DiGraph) (u v : string) (e : string * string) :
  In e (edges (remove_edge G u v)) <-> In e (edges G) /\ e <> (u, v).
Proof.
  unfold remove_edge. simpl. rewrite filter_In, negb_true_iff.
  split; intros [H1 H2]; (split; [assumption|]).
  - intros Heq. apply edge_eqb_eq in Heq. congruence.
  - destruct (edge_eqb e (u, v)) eqn:E; [|reflexivity].
    apply edge_eqb_eq in E. contradiction.
Qed.

Lemma break_cycles_spec (cycles : list (list string)) :
  (forall c, In c cycles -> c <> []) ->
  forall G log,
    exists G' log',
      break_cycles G cycles log = Ok (G', log')
      /\ nodes G' = nodes G
      /\ forall e, In e (edges G') <->
                   In e (edges G)
                   /\ forall c, In c cycles -> e <> closing_edge c.
Proof.
  induction cycles as [|cycle rest IH]; intros Hne G log.
  - exists G, log. split; [reflexivity|]. split; [reflexivity|].
    intros e. split; [intros H; split; [assumption|intros c []]|tauto].
  - assert (Hc : cycle <> []) by (apply Hne; now left).
    destruct cycle as [|first more]; [congruence|].
    assert (Hrest : forall c, In c rest -> c <> [])
      by (intros c Hin; apply Hne; now right).
    cbn [break_cycles].
    set (edge := closing_edge (first :: more)).
    destruct (has_edge G (fst edge) (snd edge)) eqn:E.
    + destruct (IH Hrest (remove_edge G (fst edge) (snd edge))
                  (log ++ [Info_removed_edge edge]))
        as [G' [log' [Hb [Hn He]]]].
      exists G', log'. split; [exact Hb|]. split; [exact Hn|].
      intros e. rewrite He, remove_edge_In.
      rewrite <- surjective_pairing. split.
      * intros [[H1 H2] H3]. split; [assumption|].
        intros c [<-|Hc']; auto.
      * intros [H1 H2]. split; [split; [assumption|]|].
        -- apply H2. now left.
        -- intros c Hc'. apply H2. now right.
    + destruct (IH Hrest G log) as [G' [log' [Hb [Hn He]]]].
      exists G', log'. split; [exact Hb|]. split; [exact Hn|].
      intros e. rewrite He. split.
      * intros [H1 H2]. split; [assumption|].
        intros c [<-|Hc']; [|now apply H2].
        intros ->. unfold has_edge in E.
        rewrite <- surjective_pairing in E.
        apply mem_edge_In in H1. fold edge in H1. congruence.
      * intros [H1 H2]. split; [assumption|].
        intros c Hc'. apply H2. now right.
Qed.

(** ** Building graphs from a structure *)

Lemma add_new_In (x n : string) (acc : list string) :
  In x (add_new acc n) <-> In x acc \/ x = n.
Proof.
  unfold add_new. destruct (mem_str n acc) eqn:E.
  - apply mem_str_In in E. split; [tauto|]. intros [H| ->]; assumption.
  - rewrite in_app_iff. simpl. split; [intros [H|[H|[]]]; auto|].
    intros [H| ->]; auto.
Qed.

Lemma add_edge_edges (G : DiGraph) (u v : string) (e : string * string) :
  In e (edges (add_edge G u v)) <-> In e (edges G) \/ e = (u, v).
Proof.
  unfold add_edge.
  destruct (has_edge (add_node (add_node G u) v) u v) eqn:E; simpl.
  - unfold has_edge in E. simpl in E. apply mem_edge_In in E.
    split; [tauto|]. intros [H| ->]; assumption.
  - rewrite in_app_iff. simpl. split; [intros [H|[H|[]]]; auto|].
    intros [H| ->]; auto.
Qed.

Lemma add_edge_nodes (G : DiGraph) (u v x : string) :
  In x (nodes (add_edge G u v)) <-> In x (nodes G) \/ x = u \/ x = v.
Proof.
  unfold add_edge.
  destruct (has_edge (add_node (add_node G u) v) u v); simpl;
    rewrite !add_new_In; tauto.
Qed.

Lemma wf_add_node (G : DiGraph) (n : string) :
  wf_graph G -> wf_graph (add_node G n).
Proof.
  intros Hwf u v H. simpl in *. rewrite !add_new_In.
  destruct (Hwf u v H). tauto.
Qed.

Lemma wf_add_edge (G : DiGraph) (u v : string) :
  wf_graph G -> wf_graph (add_edge G u v).
Proof.
  intros Hwf a b H. apply add_edge_edges in H. rewrite !add_edge_nodes.
  destruct H as [H|H].
  - destruct (Hwf a b H). tauto.
  - inversion H; subst. tauto.
Qed.

Lemma validation_inner_spec (p : string) (children : list string) :
  forall G0, wf_graph G0 ->
    wf_graph (fold_left
                (fun G child => add_edge (add_node G child) p child)
                children G0)
    /\ forall e,
         In e (edges (fold_left
                        (fun G child => add_edge (add_node G child) p child)
                        children G0))
         <-> In e (edges G0) \/ exists v, In v children /\ e = (p, v).
Proof.
  induction children as [|c children IH]; intros G0 Hwf; simpl.
  - split; [assumption|]. intros e. split; [tauto|].
    intros [H|[v [[] _]]]. assumption.
  - destruct (IH (add_edge (add_node G0 c) p c)) as [Hwf' He].
    { now apply wf_add_edge, wf_add_node. }
    split; [assumption|]. intros e. rewrite He, add_edge_edges. simpl.
    split.
    + intros [[H|H]|[v [Hv H]]]; [tauto| |].
      * right. exists c. tauto.
      * right. exists v. tauto.
    + intros [H|[v [[<-|Hv] H]]]; [tauto|tauto|].
      right. exists v. tauto.
Qed.

Lemma validation_fold_spec (cs : causal_structure) :
  forall G0, wf_graph G0 ->
    wf_graph (fold_left
                (fun G pc =>
                   fold_left
                     (fun G child => add_edge (add_node G child) (fst pc) child)
                     (snd pc) (add_node G (fst pc)))
                cs G0)
    /\ forall u v,
         In (u, v)
            (edges (fold_left
                      (fun G pc =>
                         fold_left
                           (fun G child =>
                              add_edge (add_node G child) (fst pc) child)
                           (snd pc) (add_node G (fst pc)))
                      cs G0))
         <-> In (u, v) (edges G0) \/ structure_edge cs u v.
Proof.
  induction cs as [|[p children] cs IH]; intros G0 Hwf; simpl.
  - split; [assumption|]. intros u v. split; [tauto|].
    intros [H|[ch [[] _]]]. assumption.
  - destruct (validation_inner_spec p children (add_node G0 p))
      as [Hwf1 He1]; [now apply wf_add_node|].
    destruct (IH _ Hwf1) as [Hwf2 He2].
    split; [assumption|]. intros u v. rewrite He2, He1. simpl.
    unfold structure_edge. simpl. split.
    + intros [[H|[w [Hw H]]]|[ch [Hch Hv]]]; [tauto| |].
      * inversion H; subst. right. exists children. tauto.
      * right. exists ch. tauto.
    + intros [H|[ch [[H|Hch] Hv]]]; [tauto| |].
      * inversion H; subst. left. right. exists v. tauto.
      * right. exists ch. tauto.
Qed.

Lemma validation_graph_spec (cs : causal_structure) :
  wf_graph (validation_graph cs)
  /\ forall u v, In (u, v) (edges (validation_graph cs))
                 <-> structure_edge cs u v.
Proof.
  destruct (validation_fold_spec cs empty_DiGraph) as [Hwf He].
  { intros u v []. }
  split; [exact Hwf|]. intros u v. unfold validation_graph.
  rewrite He. simpl. tauto.
Qed.

Lemma build_nodes_edges (cs : causal_structure) :
  forall G0,
    edges (fold_left
             (fun G pc => fold_left add_node (snd pc) (add_node G (fst pc)))
             cs G0)
    = edges G0.
Proof.
  assert (Hin : forall l G, edges (fold_left add_node l G) = edges G).
  { induction l as [|n l IH]; intros G; simpl; [reflexivity|].
    now rewrite IH. }
  induction cs as [|[p children] cs IH]; intros G0; simpl; [reflexivity|].
  now rewrite IH, Hin.
Qed.

Lemma build_inner_spec (p : string) (children : list string) :
  forall G0 e,
    In e (edges (fold_left (fun G child => add_edge G p child) children G0))
    <-> In e (edges G0) \/ exists v, In v children /\ e = (p, v).
Proof.
  induction children as [|c children IH]; intros G0 e; simpl.
  - split; [tauto|]. intros [H|[v [[] _]]]. assumption.
  - rewrite IH, add_edge_edges. split.
    + intros [[H|H]|[v [Hv H]]]; [tauto| |].
      * right. exists c. tauto.
      * right. exists v. tauto.
    + intros [H|[v [[<-|Hv] H]]]; [tauto|tauto|].
      right. exists v. tauto.
Qed.

Lemma build_edges_spec (cs : causal_structure) :
  forall G0 u v,
    In (u, v)
       (edges (fold_left
                 (fun G pc =>
                    fold_left (fun G child => add_edge G (fst pc) child)
                              (snd pc) G)
                 cs G0))
    <-> In (u, v) (edges G0) \/ structure_edge cs u v.
Proof.
  induction cs as [|[p children] cs IH]; intros G0 u v; simpl.
  - split; [tauto|]. intros [H|[ch [[] _]]]. assumption.
  - rewrite IH, build_inner_spec. unfold structure_edge. simpl. split.
    + intros [[H|[w [Hw H]]]|[ch [Hch Hv]]]; [tauto| |].
      * inversion H; subst. right. exists children. tauto.
      * right. exists ch. tauto.
    + intros [H|[ch [[H|Hch] Hv]]]; [tauto| |].
      * inversion H; subst. left. right. exists v. tauto.
      * right. exists ch. tauto.
Qed.

Lemma build_graph_edges (cs : causal_structure) (u v : string) :
  In (u, v) (edges (_build_graph cs)) <-> structure_edge cs u v.
Proof.
  unfold _build_graph. rewrite build_edges_spec, build_nodes_edges.
  simpl. tauto.
Qed.

Lemma rebuild_structure_edge (G : DiGraph) (u v : string) :
  wf_graph G ->
  (structure_edge (rebuild_structure G) u v <-> In (u, v) (edges G)).
Proof.
  intros Hwf. unfold structure_edge, rebuild_structure. split.
  - intros [ch [Hin Hv]]. apply in_flat_map in Hin.
    destruct Hin as [node [Hnode Hin]].
    destruct (successors G node) as [|c cs'] eqn:E; [contradiction|].
    destruct Hin as [Hin|[]]. inversion Hin; subst.
    apply successors_In. now rewrite E.
  - intros H. exists (successors G u).
    assert (Hv : In v (successors G u)) by now apply successors_In.
    split; [|assumption]. apply in_flat_map. exists u.
    split; [now apply (Hwf u v)|].
    destruct (successors G u); [contradiction|now left].
Qed.

(* ================================================================== *)
(** * Proofs and reachable terms *)
(* ================================================================== *)

Lemma last_cons_default (A : Type) (l : list A) :
  forall x d, last (x :: l) d = last l x.
Proof.
  induction l as [|y l IH]; intros x d; [reflexivity|].
  change (last (x :: y :: l) d) with (last (y :: l) d).
  now rewrite !IH.
Qed.

Lemma proof_end_snoc (A : CausalProbability) (q : list step) (s : step) :
  proof_end A (q ++ [s]) = snd s.
Proof. unfold proof_end. rewrite map_app. simpl. apply last_last. Qed.

Lemma proof_end_cons (A : CausalProbability) (s : step) (q : list step) :
  proof_end A (s :: q) = proof_end (snd s) q.
Proof.
  unfold proof_end. simpl map. apply last_cons_default.
Qed.

Lemma valid_proof_app (self : CausalProofFinder) (q1 q2 : list step) :
  forall A,
    valid_proof self A (q1 ++ q2) <->
    valid_proof self A q1 /\ valid_proof self (proof_end A q1) q2.
Proof.
  induction q1 as [|s q1 IH]; intros A; simpl.
  - unfold proof_end. simpl. tauto.
  - rewrite IH, proof_end_cons. tauto.
Qed.

Lemma proof_end_app (q1 q2 : list step) :
  forall A, proof_end A (q1 ++ q2) = proof_end (proof_end A q1) q2.
Proof.
  induction q1 as [|s q1 IH]; intros A; simpl; [reflexivity|].
  now rewrite !proof_end_cons, IH.
Qed.

Lemma reachable_refl (self : CausalProofFinder) (A : CausalProbability) :
  reachable self A A.
Proof. exists []. split; [exact I|reflexivity]. Qed.

Lemma reachable_step (self : CausalProofFinder) (A t : CausalProbability)
    (s : step) :
  reachable self A t -> rule_produces self t s -> reachable self A (snd s).
Proof.
  intros [q [Hq <-]] Hs. exists (q ++ [s]). split.
  - apply valid_proof_app. split; [assumption|]. simpl. tauto.
  - apply proof_end_snoc.
Qed.

(** ** What a rule does to the interventions *)

Lemma Permutation_filter_cond (f : condition -> bool) (l l' : list condition) :
  Permutation l l' -> Permutation (filter f l) (filter f l').
Proof.
  induction 1 as [|x l l' _ IH|x y l|l l' l'' _ IH1 _ IH2]; simpl.
  - constructor.
  - destruct (f x); [now constructor|assumption].
  - destruct (f x), (f y); try apply Permutation_refl. apply perm_swap.
  - eapply perm_trans; eassumption.
Qed.

Lemma do_conditions_new (y : outcome) (l : list condition) :
  Permutation (filter isinstance_Do l)
              (do_conditions (CausalProbability_new y l)).
Proof.
  unfold do_conditions. simpl.
  apply Permutation_filter_cond, sorted_conditions_perm.
Qed.

Lemma filter_do_rule_1 (W : string) (l : list condition) :
  filter isinstance_Do (filter (fun c => negb (dropped_by W c)) l)
  = filter isinstance_Do l.
Proof.
  induction l as [|c l IH]; simpl; [reflexivity|].
  destruct c as [v x|lhs rhs|n]; simpl.
  - now rewrite IH.
  - destruct (String.eqb lhs W); simpl; assumption.
  - destruct (String.eqb n W); simpl; assumption.
Qed.

Lemma set_at_app (l1 l2 : list condition) (d x : condition) :
  set_at (List.length l1) x (l1 ++ d :: l2) = l1 ++ x :: l2.
Proof. induction l1 as [|c l1 IH]; simpl; [reflexivity|now rewrite IH]. Qed.

Lemma remove_at_app (l1 l2 : list condition) (d : condition) :
  remove_at (List.length l1) (l1 ++ d :: l2) = l1 ++ l2.
Proof. induction l1 as [|c l1 IH]; simpl; [reflexivity|now rewrite IH]. Qed.

(** Taking the intervention at [idx] out of the list, by either rule. *)
Lemma do_entry_split (conds : list condition) (idx : nat) (Z : string) :
  In (idx, Z) (do_entries conds) ->
  exists v a b,
    In (Do Z v) conds
    /\ filter isinstance_Do conds = a ++ Do Z v :: b
    /\ filter isinstance_Do (set_at idx (Sym Z) conds) = a ++ b
    /\ filter isinstance_Do (remove_at idx conds) = a ++ b.
Proof.
  intros H. apply do_entries_In in H. destruct H as [v Hv].
  destruct (nth_error_split _ _ Hv) as [l1 [l2 [-> Hlen]]]. subst idx.
  exists v, (filter isinstance_Do l1), (filter isinstance_Do l2).
  split; [apply in_or_app; right; now left|].
  rewrite set_at_app, remove_at_app, !filter_app. simpl. auto.
Qed.

Lemma obs_var_dropped (conds : list condition) (W : string) :
  In W (obs_vars_of conds) ->
  exists c, In c conds /\ isinstance_Do c = false /\ dropped_by W c = true.
Proof.
  unfold obs_vars_of. rewrite in_flat_map. intros [c [Hc HW]].
  exists c. split; [assumption|].
  destruct c as [v x|lhs rhs|n]; simpl in *; [contradiction| |];
    destruct HW as [<-|[]]; now rewrite String.eqb_refl.
Qed.

Lemma rule_3_loop_In_entries (ce : CausalExpr) (entries : list (nat * string))
    (P : CausalProbability -> Prop) :
  forall todo st st',
    (forall idx Z, In (idx, Z) todo ->
       P (rule_3_candidate (_outcome (expression ce))
                           (_conditions (expression ce)) idx)) ->
    rule_3_loop ce entries todo st = Ok st' ->
    (forall u, In u (fst st) -> P u) ->
    forall u, In u (fst st') -> P u.
Proof.
  induction todo as [|[idx Z] todo IH]; intros st st' HP; simpl.
  - intros H. inversion H; subst. auto.
  - destruct (is_ancestor_of_obs _ _ _) as [is_anc|e]; simpl; [|discriminate].
    intros H Hst. eapply IH; [|exact H|].
    + intros i z Hin. eapply HP. right. eassumption.
    + destruct (_custom_d_separation _ _ _ _) as [[|]|e]; try apply Hst.
      intros v Hv. apply emit_In in Hv. destruct Hv as [Hv| ->]; auto.
      eapply HP. now left.
Qed.

(** Every output of the enumerators is one of the candidates. *)
Lemma rule_outputs_cases (ce : CausalExpr) (s : step) :
  In s (rule_outputs ce) ->
  (exists W, In W (obs_vars_of (_conditions (expression ce)))
     /\ snd s = rule_1_candidate (_outcome (expression ce))
                                 (_conditions (expression ce)) W)
  \/ (exists idx Z, In (idx, Z) (do_entries (_conditions (expression ce)))
        /\ (snd s = rule_2_candidate (_outcome (expression ce))
                                     (_conditions (expression ce)) idx Z
            \/ snd s = rule_3_candidate (_outcome (expression ce))
                                        (_conditions (expression ce)) idx)).
Proof.
  unfold rule_outputs. rewrite !in_app_iff, !in_map_iff.
  intros [[u [<- Hu]]|[[u [<- Hu]]|H]].
  - left. now apply apply_rule_1_all_In.
  - right. apply apply_rule_2_all_In in Hu.
    destruct Hu as [idx [Z [He ->]]]. exists idx, Z. auto.
  - right. destruct (apply_rule_3_all ce) as [outs|e] eqn:E; [|contradiction].
    apply in_map_iff in H. destruct H as [u [<- Hu]].
    unfold apply_rule_3_all in E.
    destruct (rule_3_loop _ _ _ _) as [st|e] eqn:El; [|discriminate].
    simpl in E. inversion E; subst. simpl snd. revert Hu.
    intros Hu.
    eapply (rule_3_loop_In_entries ce _
              (fun u => exists idx Z,
                   In (idx, Z) (do_entries (_conditions (expression ce)))
                   /\ (u = rule_2_candidate (_outcome (expression ce))
                             (_conditions (expression ce)) idx Z
                       \/ u = rule_3_candidate (_outcome (expression ce))
                                (_conditions (expression ce)) idx)));
      [|exact El| |exact Hu].
    + intros idx Z Hin. exists idx, Z. split; [exact Hin|now right].
    + intros v [].
Qed.

(** With no repeated intervention in the term, a successor is never
    equivalent to it, and has no repeated intervention either. *)
Lemma rule_output_changes (self : CausalProofFinder) (t : CausalProbability)
    (s : step) :
  NoDup (do_conditions t) -> rule_produces self t s ->
  _are_expressions_equivalent (snd s) t = false
  /\ NoDup (do_conditions (snd s)).
Proof.
  intros Hnd Hs. apply rule_outputs_cases in Hs. simpl in Hs.
  assert (Hneq : forall P : Prop,
            (_are_expressions_equivalent (snd s) t = true -> P -> False) ->
            P -> _are_expressions_equivalent (snd s) t = false).
  { intros P H HP. destruct (_are_expressions_equivalent (snd s) t) eqn:E;
      [exfalso; now apply (H eq_refl)|reflexivity]. }
  destruct Hs as [[W [HW Hu]]|[idx [Z [He Hu]]]].
  - rewrite Hu. split.
    + destruct (obs_var_dropped _ _ HW) as [c [Hc [Hdo Hdrop]]].
      rewrite <- Hu. apply (Hneq True); [|exact I]. intros Heq _.
      apply equivalent_iff in Heq. destruct Heq as [_ [_ Hobs]].
      assert (Hin : In c (obs_conditions t)).
      { apply filter_In. split; [assumption|]. now rewrite Hdo. }
      apply Hobs in Hin. rewrite Hu in Hin.
      apply filter_In in Hin. destruct Hin as [Hin _]. simpl in Hin.
      apply sorted_conditions_In, filter_In in Hin.
      destruct Hin as [_ Hin]. rewrite Hdrop in Hin. discriminate.
    + eapply Permutation_NoDup; [apply do_conditions_new|].
      now rewrite filter_do_rule_1.
  - destruct (do_entry_split _ _ _ He) as [v [a [b [Hin [Hsplit [H2 H3]]]]]].
    unfold do_conditions in Hnd. rewrite Hsplit in Hnd.
    assert (Hperm : Permutation (a ++ b) (do_conditions (snd s))).
    { destruct Hu as [-> | ->]; unfold rule_2_candidate, rule_3_candidate;
        [rewrite <- H2|rewrite <- H3]; apply do_conditions_new. }
    split.
    + apply (Hneq True); [|exact I]. intros Heq _.
      apply equivalent_iff in Heq. destruct Heq as [_ [Hdo _]].
      assert (Hd : In (Do Z v) (do_conditions t)).
      { apply filter_In. split; [assumption|reflexivity]. }
      apply Hdo in Hd.
      apply (Permutation_in _ (Permutation_sym Hperm)) in Hd.
      now apply NoDup_remove_2 in Hnd.
    + eapply Permutation_NoDup; [exact Hperm|].
      now apply NoDup_remove_1 in Hnd.
Qed.

Lemma reachable_no_repeated (self : CausalProofFinder)
    (A t : CausalProbability) :
  NoDup (do_conditions A) -> reachable self A t -> NoDup (do_conditions t).
Proof.
  intros Hnd [q [Hq <-]]. revert A Hnd Hq.
  induction q as [|s q IH]; intros A Hnd Hq; [assumption|].
  rewrite proof_end_cons. destruct Hq as [Hs Hq].
  apply IH; [|assumption].
  now apply (rule_output_changes self A s).
Qed.

(* ================================================================== *)
(** * The breadth-first search *)
(* ================================================================== *)

Lemma uniq_by_key_In (l : list step) :
  forall seen s, In s (uniq_by_key l seen) -> In s l.
Proof.
  induction l as [|[lbl out] l IH]; intros seen s; simpl; [tauto|].
  destruct (mem_str (_state_key out) seen).
  - intros H. right. eapply IH; eauto.
  - intros [H|H]; [now left|]. right. eapply IH; eauto.
Qed.

Lemma uniq_by_key_repr (l : list step) :
  forall seen lbl u,
    In (lbl, u) l ->
    In (_state_key u) seen
    \/ exists lbl' u', In (lbl', u') (uniq_by_key l seen)
                       /\ _state_key u' = _state_key u.
Proof.
  induction l as [|[lbl0 out] l IH]; intros seen lbl u; simpl; [tauto|].
  destruct (mem_str (_state_key out) seen) eqn:E.
  - apply mem_str_In in E. intros [H|H].
    + inversion H; subst. now left.
    + now apply (IH seen lbl u).
  - intros [H|H].
    + inversion H; subst. right. exists lbl, u. split; [now left|reflexivity].
    + destruct (IH (seen ++ [_state_key out]) lbl u H)
        as [Hin|[lbl' [u' [Hin Hk]]]].
      * apply in_app_or in Hin. destruct Hin as [Hin|[Hin|[]]]; [now left|].
        right. exists lbl0, out. split; [now left|assumption].
      * right. exists lbl', u'. split; [now right|assumption].
Qed.

Lemma successors_are_produced (self : CausalProofFinder)
    (t : CausalProbability) (s : step) :
  In s (_do_calculus_successors self t) -> rule_produces self t s.
Proof.
  unfold _do_calculus_successors, rule_produces. intros H.
  apply uniq_by_key_In, filter_In in H. tauto.
Qed.

Lemma produced_has_successor (self : CausalProofFinder)
    (t : CausalProbability) (s : step) :
  NoDup (do_conditions t) -> rule_produces self t s ->
  exists lbl' u', In (lbl', u') (_do_calculus_successors self t)
                  /\ _state_key u' = _state_key (snd s).
Proof.
  intros Hnd Hs.
  destruct (rule_output_changes self t s Hnd Hs) as [Hneq _].
  unfold _do_calculus_successors. destruct s as [lbl u].
  destruct (uniq_by_key_repr
              (filter (fun s => negb (_are_expressions_equivalent (snd s) t))
                 (rule_outputs (CausalExpr_init t (finder_structure self))))
              [] lbl u) as [[]|H]; [|exact H].
  apply filter_In. split; [exact Hs|]. simpl in *. now rewrite Hneq.
Qed.

Section Search.
Variable self : CausalProofFinder.
Variable B : CausalProbability.

Lemma scan_hit (path : list step) (succs : list step) :
  forall queue visited p,
    scan_successors B (_state_key B) path succs queue visited = Hit p ->
    List.length p = S (List.length path).
Proof.
  induction succs as [|[lbl nxt] succs IH]; intros queue visited p;
    cbn [scan_successors]; [discriminate|].
  destruct (mem_str (_state_key nxt) visited); [apply IH|].
  destruct (_are_expressions_equivalent nxt B
            || String.eqb (_state_key nxt) (_state_key B)); [|apply IH].
  intros H. inversion H; subst. rewrite length_app. simpl. lia.
Qed.

Lemma scan_carry (path : list step) (succs : list step) :
  forall queue visited queue'' visited'',
    scan_successors B (_state_key B) path succs queue visited
    = Carry queue'' visited'' ->
    exists added,
      queue'' = queue ++ added
      /\ (forall e, In e added ->
            exists lbl, In (lbl, fst e) succs
                        /\ snd e = path ++ [(lbl, fst e)]
                        /\ is_goal B (fst e) = false)
      /\ (forall k, In k visited -> In k visited'')
      /\ (forall lbl u, In (lbl, u) succs -> In (_state_key u) visited'')
      /\ (forall k, In k visited'' ->
            In k visited \/ exists e, In e added /\ _state_key (fst e) = k).
Proof.
  induction succs as [|[lbl nxt] succs IH];
    intros queue visited queue'' visited''; cbn [scan_successors].
  - intros H. inversion H; subst. exists []. rewrite app_nil_r.
    split; [reflexivity|]. split; [intros e []|]. split; [auto|].
    split; [intros l u []|auto].
  - destruct (mem_str (_state_key nxt) visited) eqn:Ev.
    + intros H. destruct (IH _ _ _ _ H) as [added [Hq [Ha [Hv [Hs Hn]]]]].
      exists added. split; [assumption|]. split.
      { intros e He. destruct (Ha e He) as [l [Hl Hrest]].
        exists l. split; [now right|assumption]. }
      split; [assumption|]. split; [|assumption].
      intros l u [Heq|Hin]; [|now apply (Hs l u)].
      inversion Heq; subst. apply Hv. now apply mem_str_In.
    + destruct (_are_expressions_equivalent nxt B
                || String.eqb (_state_key nxt) (_state_key B)) eqn:Eg;
        [discriminate|].
      intros H. destruct (IH _ _ _ _ H) as [added [Hq [Ha [Hv [Hs Hn]]]]].
      exists ((nxt, path ++ [(lbl, nxt)]) :: added).
      split; [rewrite Hq, <- app_assoc; reflexivity|]. split.
      { intros e [<-|He].
        - exists lbl. simpl. split; [now left|]. split; [reflexivity|].
          exact Eg.
        - destruct (Ha e He) as [l [Hl Hrest]].
          exists l. split; [now right|assumption]. }
      split; [intros k Hk; apply Hv, in_or_app; now left|]. split.
      { intros l u [Heq|Hin]; [|now apply (Hs l u)].
        inversion Heq; subst. apply Hv, in_or_app. right. now left. }
      intros k Hk. destruct (Hn k Hk) as [Hin|[e [He Hke]]].
      * apply in_app_or in Hin. destruct Hin as [Hin|[<-|[]]]; [now left|].
        right. exists (nxt, path ++ [(lbl, nxt)]). split; [now left|].
        reflexivity.
      * right. exists e. split; [now right|assumption].
Qed.

(** Once every queued path has reached the depth bound nothing is found. *)
Lemma bfs_loop_all_skipped (fuel : nat) :
  forall queue visited p,
    (forall e, In e queue -> (max_depth self <= List.length (snd e))%nat) ->
    bfs_loop self B (_state_key B) fuel queue visited <> Found p.
Proof.
  induction fuel as [|fuel IH]; intros queue visited p Hall;
    cbn [bfs_loop]; [discriminate|].
  destruct queue as [|[cur path] queue']; [discriminate|].
  assert (Hd : Nat.leb (max_depth self) (List.length path) = true).
  { apply Nat.leb_le. apply (Hall (cur, path)). now left. }
  rewrite Hd. apply IH. intros e He. apply Hall. now right.
Qed.

(** The depth bound on what the loop returns. *)
Lemma bfs_loop_length (fuel : nat) :
  forall queue visited p,
    bfs_loop self B (_state_key B) fuel queue visited = Found p ->
    (List.length p <= max_depth self)%nat.
Proof.
  induction fuel as [|fuel IH]; intros queue visited p; cbn [bfs_loop];
    [discriminate|].
  destruct queue as [|[cur path] queue']; [discriminate|].
  destruct (Nat.leb (max_depth self) (List.length path)) eqn:Ed; [apply IH|].
  apply Nat.leb_gt in Ed.
  destruct (_are_expressions_equivalent cur B
            || String.eqb (_state_key cur) (_state_key B)).
  - intros H. inversion H; subst. lia.
  - destruct (scan_successors _ _ _ _ _ _) as [new_path|queue'' visited'']
      eqn:Es; [|apply IH].
    intros H. inversion H; subst. apply scan_hit in Es. lia.
Qed.

End Search.

Lemma equivalent_refl (t : CausalProbability) :
  _are_expressions_equivalent t t = true.
Proof. apply equivalent_iff. repeat split; auto. Qed.

Lemma StronglySorted_app_intro (A : Type) (R : A -> A -> Prop)
    (l1 l2 : list A) :
  StronglySorted R l1 -> StronglySorted R l2 ->
  (forall x y, In x l1 -> In y l2 -> R x y) ->
  StronglySorted R (l1 ++ l2).
Proof.
  induction 1 as [|x l1 Hs IH Hall]; intros H2 Hc; simpl; [assumption|].
  constructor.
  - apply IH; [assumption|]. intros a b Ha Hb. apply Hc; [now right|assumption].
  - apply Forall_app. split; [assumption|].
    apply Forall_forall. intros y Hy. apply Hc; [now left|assumption].
Qed.

Lemma StronglySorted_constant (A : Type) (f : A -> nat) (n : nat)
    (l : list A) :
  (forall x, In x l -> f x = n) ->
  StronglySorted (fun a b => (f a <= f b)%nat) l.
Proof.
  induction l as [|x l IH]; intros H; constructor.
  - apply IH. intros y Hy. apply H. now right.
  - apply Forall_forall. intros y Hy.
    rewrite (H x), (H y); [lia|now right|now left].
Qed.

Section Shortest.
Variable self : CausalProofFinder.
Variables A B : CausalProbability.
Hypothesis Hnd : NoDup (do_conditions A).
Hypothesis Hkey : key_identifies_terms self A.

(** Following a proof from a visited term: its end is visited, or a queued
    term lies on the way. *)
Lemma follow_proof (queue : list (CausalProbability * list step))
    (visited : list string) (D : nat) :
  closed_or_queued self A queue visited ->
  (forall e, In e queue -> (depth e <= D)%nat) ->
  forall q2 q1,
    valid_proof self A (q1 ++ q2) ->
    In (_state_key (proof_end A q1)) visited ->
    (D <= List.length q1)%nat ->
    behind_frontier A queue visited (q1 ++ q2).
Proof.
  intros Hclosed Hdepth.
  induction q2 as [|s q2 IH]; intros q1 Hvalid Hvis Hlen.
  - left. now rewrite app_nil_r.
  - assert (Hreach : reachable self A (proof_end A q1)).
    { exists q1. apply valid_proof_app in Hvalid. tauto. }
    destruct (Hclosed _ Hreach Hvis) as [[p Hp]|Hall].
    + right. exists q1, (s :: q2), p. split; [reflexivity|].
      split; [discriminate|]. split; [assumption|].
      specialize (Hdepth _ Hp). unfold depth in Hdepth. simpl in Hdepth. lia.
    + assert (Hs : rule_produces self (proof_end A q1) s).
      { apply valid_proof_app in Hvalid. simpl in Hvalid. tauto. }
      replace (q1 ++ s :: q2) with ((q1 ++ [s]) ++ q2)
        by (rewrite <- app_assoc; reflexivity).
      apply IH.
      * rewrite <- app_assoc. exact Hvalid.
      * rewrite proof_end_snoc. now apply Hall.
      * rewrite length_app. simpl. lia.
Qed.

Lemma search_inv_initial :
  is_goal B A = false -> search_inv self A B [(A, [])] [_state_key A].
Proof.
  intros Hgoal.
  assert (Hsame : forall u, reachable self A u ->
            In (_state_key u) [_state_key A] -> u = A).
  { intros u Hu [Hk|[]]. apply Hkey; auto using reachable_refl. }
  constructor.
  - constructor; constructor.
  - intros e [<-|[]]. simpl. unfold depth. simpl. lia.
  - intros e [<-|[]]. simpl. split; [apply reachable_refl|now left].
  - intros w Hw Hv. left. exists []. left. now rewrite (Hsame w Hw Hv).
  - intros q Hq. destruct q as [|s q].
    + left. now left.
    + right. exists [], (s :: q), []. split; [reflexivity|].
      split; [discriminate|]. split; [now left|simpl; lia].
  - intros u Hu Hv. now rewrite (Hsame u Hu Hv).
Qed.

Lemma search_inv_step (cur : CausalProbability) (path : list step)
    (queue' : list (CausalProbability * list step)) (visited : list string)
    (queue'' : list (CausalProbability * list step))
    (visited'' : list string) :
  search_inv self A B ((cur, path) :: queue') visited ->
  scan_successors B (_state_key B) path (_do_calculus_successors self cur)
    queue' visited = Carry queue'' visited'' ->
  search_inv self A B queue'' visited''.
Proof.
  intros Inv Hscan.
  destruct (scan_carry B path _ _ _ _ _ Hscan)
    as [added [-> [Hadded [Hmono [Hsucc Hnew]]]]].
  destruct (inv_queue Inv (cur, path) (or_introl eq_refl)) as [Hcur Hcurv].
  simpl in Hcur, Hcurv.
  assert (Hndcur : NoDup (do_conditions cur))
    by (eapply reachable_no_repeated; eauto).
  assert (Hraw : forall s, rule_produces self cur s ->
            In (_state_key (snd s)) visited'').
  { intros s Hs.
    destruct (produced_has_successor self cur s Hndcur Hs)
      as [lbl' [u' [Hin Hk]]].
    rewrite <- Hk. eapply Hsucc. eassumption. }
  assert (Hadd : forall e, In e added ->
            reachable self A (fst e) /\ depth e = S (List.length path)
            /\ In (_state_key (fst e)) visited''
            /\ is_goal B (fst e) = false).
  { intros e He. destruct (Hadded e He) as [lbl [Hin [Hp Hg]]].
    split; [|split; [|split; [|assumption]]].
    - apply (reachable_step self A cur (lbl, fst e) Hcur).
      now apply successors_are_produced.
    - unfold depth. rewrite Hp, length_app. simpl. lia.
    - eapply Hsucc. eassumption. }
  pose proof (inv_sorted Inv) as Hsorted.
  inversion Hsorted as [|? ? Hsorted' Hhead]; subst.
  rewrite Forall_forall in Hhead.
  assert (Hold : forall e, In e queue' ->
            (List.length path <= depth e <= S (List.length path))%nat).
  { intros e He. split; [now apply (Hhead e)|].
    apply (inv_bound Inv e). now right. }
  assert (Hall : forall e, In e (queue' ++ added) ->
            (List.length path <= depth e <= S (List.length path))%nat).
  { intros e He. apply in_app_or in He. destruct He as [He|He];
      [now apply Hold|].
    destruct (Hadd e He) as [_ [Hd _]]. lia. }
  assert (Hclosed : closed_or_queued self A (queue' ++ added) visited'').
  { intros w Hw Hv. destruct (Hnew _ Hv) as [Hv'|[e [He Hk]]].
    - destruct (inv_closed Inv w Hw Hv') as [[p [Hp|Hp]]|Hs].
      + inversion Hp; subst. now right.
      + left. exists p. apply in_or_app. now left.
      + right. intros s Hps. now apply Hmono, Hs.
    - left. exists (snd e).
      destruct (Hadd e He) as [Hre _].
      rewrite <- (Hkey _ _ Hre Hw Hk), <- surjective_pairing.
      apply in_or_app. now right. }
  constructor.
  - apply StronglySorted_app_intro; [assumption| |].
    + apply StronglySorted_constant with (n := S (List.length path)).
      intros e He. now destruct (Hadd e He) as [_ [Hd _]].
    + intros x y Hx Hy. destruct (Hold x Hx) as [_ Hxd].
      destruct (Hadd y Hy) as [_ [Hyd _]]. lia.
  - intros e He. destruct (Hall e He) as [_ Hup].
    destruct (queue' ++ added) as [|e0 rest]; [contradiction|].
    simpl. destruct (Hall e0 (or_introl eq_refl)) as [Hlow _]. lia.
  - intros e He. apply in_app_or in He. destruct He as [He|He].
    + destruct (inv_queue Inv e (or_intror He)) as [Hr Hv].
      split; [assumption|now apply Hmono].
    + destruct (Hadd e He) as [Hr [_ [Hv _]]]. now split.
  - exact Hclosed.
  - intros q Hq. destruct (inv_frontier Inv q Hq)
      as [Hv|[q1 [q2 [p [Heq [Hne [Hin Hlen]]]]]]].
    + left. now apply Hmono.
    + destruct Hin as [Hin|Hin].
      * injection Hin as Hc Hp. subst p q.
        destruct q2 as [|s q2]; [congruence|].
        assert (Hs : rule_produces self cur s).
        { rewrite Hc. apply valid_proof_app in Hq. simpl in Hq. tauto. }
        replace (q1 ++ s :: q2) with ((q1 ++ [s]) ++ q2)
          by (rewrite <- app_assoc; reflexivity).
        apply (follow_proof (queue' ++ added) visited''
                 (S (List.length path)) Hclosed).
        -- intros e He. now destruct (Hall e He).
        -- rewrite <- app_assoc. exact Hq.
        -- rewrite proof_end_snoc. now apply Hraw.
        -- rewrite length_app. simpl. lia.
      * right. exists q1, q2, p. split; [assumption|].
        split; [assumption|]. split; [|assumption].
        apply in_or_app. now left.
  - intros u Hu Hv. destruct (Hnew _ Hv) as [Hv'|[e [He Hk]]].
    + now apply (inv_nongoal Inv).
    + destruct (Hadd e He) as [Hre [_ [_ Hg]]].
      now rewrite <- (Hkey _ _ Hre Hu Hk).
Qed.

Lemma bfs_loop_minimal (fuel : nat) :
  forall queue visited p,
    search_inv self A B queue visited ->
    bfs_loop self B (_state_key B) fuel queue visited = Found p ->
    forall q, valid_proof self A q -> proof_end A q = B ->
      (List.length p <= List.length q)%nat.
Proof.
  induction fuel as [|fuel IH]; intros queue visited p Inv; cbn [bfs_loop];
    [discriminate|].
  destruct queue as [|[cur path] queue']; [discriminate|].
  pose proof (inv_sorted Inv) as Hsorted.
  inversion Hsorted as [|? ? _ Hhead]; subst.
  rewrite Forall_forall in Hhead.
  destruct (Nat.leb (max_depth self) (List.length path)) eqn:Ed.
  { intros H. exfalso. apply Nat.leb_le in Ed.
    apply (bfs_loop_all_skipped self B fuel queue' visited p); [|exact H].
    intros e He. specialize (Hhead e He). unfold depth in Hhead.
    simpl in Hhead. lia. }
  destruct (inv_queue Inv (cur, path) (or_introl eq_refl)) as [Hcur Hcurv].
  simpl in Hcur, Hcurv.
  pose proof (inv_nongoal Inv cur Hcur Hcurv) as Hg.
  unfold is_goal in Hg. rewrite Hg.
  destruct (scan_successors _ _ _ _ _ _) as [new_path|queue'' visited'']
    eqn:Es.
  - intros H. inversion H; subst. apply scan_hit in Es.
    intros q Hq Hend. rewrite Es.
    destruct (inv_frontier Inv q Hq)
      as [Hv|[q1 [q2 [p0 [Heq [Hne [Hin Hlen]]]]]]].
    + exfalso. rewrite Hend in Hv.
      assert (HB : reachable self A B) by (exists q; auto).
      pose proof (inv_nongoal Inv B HB Hv) as HgB.
      unfold is_goal in HgB. rewrite equivalent_refl in HgB. discriminate.
    + assert (Hd : (List.length path <= List.length p0)%nat).
      { destruct Hin as [Hin|Hin]; [inversion Hin; lia|].
        apply (Hhead _ Hin). }
      subst q. rewrite length_app.
      destruct q2; [congruence|]. simpl. lia.
  - intros H. eapply IH; [|exact H].
    eapply search_inv_step; eassumption.
Qed.

End Shortest.

(* ================================================================== *)
(** * Termination of the search *)
(* ================================================================== *)

Lemma emit_length (cand : CausalProbability)
    (st : list CausalProbability * list string) :
  (List.length (fst (emit cand st)) <= S (List.length (fst st)))%nat.
Proof.
  unfold emit. destruct (mem_str _ _); simpl; [lia|].
  rewrite length_app. simpl. lia.
Qed.

Lemma fold_outs_length (X : Type)
    (f : list CausalProbability * list string -> X
         -> list CausalProbability * list string)
    (l : list X) :
  (forall st a, (List.length (fst (f st a)) <= S (List.length (fst st)))%nat) ->
  forall st,
    (List.length (fst (fold_left f l st))
     <= List.length l + List.length (fst st))%nat.
Proof.
  intros Hf. induction l as [|a l IH]; intros st; simpl; [lia|].
  specialize (IH (f st a)). specialize (Hf st a). lia.
Qed.

Lemma apply_rule_1_all_length (ce : CausalExpr) :
  (List.length (apply_rule_1_all ce)
   <= List.length (obs_vars_of (_conditions (expression ce))))%nat.
Proof.
  unfold apply_rule_1_all.
  eapply Nat.le_trans; [apply fold_outs_length|simpl; lia].
  intros st W. destruct (_custom_d_separation _ _ _ _) as [[|]|e];
    try lia. apply emit_length.
Qed.

Lemma apply_rule_2_all_length (ce : CausalExpr) :
  (List.length (apply_rule_2_all ce)
   <= List.length (do_entries (_conditions (expression ce))))%nat.
Proof.
  unfold apply_rule_2_all.
  eapply Nat.le_trans; [apply fold_outs_length|simpl; lia].
  intros st [idx Z]. destruct (_custom_d_separation _ _ _ _) as [[|]|e];
    try lia. apply emit_length.
Qed.

Lemma rule_3_loop_length (ce : CausalExpr) (entries : list (nat * string)) :
  forall todo st st',
    rule_3_loop ce entries todo st = Ok st' ->
    (List.length (fst st') <= List.length todo + List.length (fst st))%nat.
Proof.
  induction todo as [|[idx Z] todo IH]; intros st st'; simpl.
  - intros H. inversion H; subst. lia.
  - destruct (is_ancestor_of_obs _ _ _) as [is_anc|e]; simpl; [|discriminate].
    intros H. apply IH in H.
    destruct (_custom_d_separation _ _ _ _) as [[|]|e]; try lia.
    pose proof (emit_length
                  (rule_3_candidate (_outcome (expression ce))
                     (_conditions (expression ce)) idx) st). lia.
Qed.

Lemma entries_obs_length (conds : list condition) :
  forall i,
    (List.length (do_entries_from i conds) + List.length (obs_vars_of conds)
     = List.length conds)%nat.
Proof.
  induction conds as [|c conds IH]; intros i; [reflexivity|].
  specialize (IH (S i)). unfold obs_vars_of in *.
  destruct c; simpl in *; lia.
Qed.

Lemma rule_outputs_length (ce : CausalExpr) :
  (List.length (rule_outputs ce)
   <= 2 * List.length (_conditions (expression ce)))%nat.
Proof.
  unfold rule_outputs. rewrite !length_app, !length_map.
  pose proof (apply_rule_1_all_length ce) as H1.
  pose proof (apply_rule_2_all_length ce) as H2.
  pose proof (entries_obs_length (_conditions (expression ce)) 0) as He.
  fold (do_entries (_conditions (expression ce))) in He.
  assert (H3 : (List.length
                  match apply_rule_3_all ce with
                  | Ok outs => map (pair (rule_label 3)) outs
                  | Raise _ => []
                  end
                <= List.length (do_entries (_conditions (expression ce))))%nat).
  { unfold apply_rule_3_all.
    destruct (rule_3_loop _ _ _ _) as [st|e] eqn:E; simpl; [|lia].
    rewrite length_map. apply rule_3_loop_length in E. simpl in E. lia. }
  lia.
Qed.

Lemma uniq_by_key_length (l : list step) :
  forall seen, (List.length (uniq_by_key l seen) <= List.length l)%nat.
Proof.
  induction l as [|[lbl out] l IH]; intros seen; simpl; [lia|].
  destruct (mem_str _ _); simpl.
  - specialize (IH seen). lia.
  - specialize (IH (seen ++ [_state_key out])). lia.
Qed.

Lemma successors_length (self : CausalProofFinder) (t : CausalProbability) :
  (List.length (_do_calculus_successors self t)
   <= 2 * List.length (_conditions t))%nat.
Proof.
  unfold _do_calculus_successors.
  eapply Nat.le_trans; [apply uniq_by_key_length|].
  eapply Nat.le_trans; [apply filter_length_le|].
  apply (rule_outputs_length (CausalExpr_init t (finder_structure self))).
Qed.

Lemma set_at_length (idx : nat) (x : condition) (l : list condition) :
  List.length (set_at idx x l) = List.length l.
Proof.
  revert idx. induction l as [|c l IH]; intros [|i]; simpl; auto.
Qed.

Lemma remove_at_length (idx : nat) (l : list condition) :
  (List.length (remove_at idx l) <= List.length l)%nat.
Proof.
  revert idx. induction l as [|c l IH]; intros [|i]; simpl; try lia.
  specialize (IH i). lia.
Qed.

(** No rule makes a term longer. *)
Lemma produced_conditions_length (self : CausalProofFinder)
    (t : CausalProbability) (s : step) :
  rule_produces self t s ->
  (List.length (_conditions (snd s)) <= List.length (_conditions t))%nat.
Proof.
  intros H. apply rule_outputs_cases in H. simpl in H.
  assert (Hsort : forall y l,
            List.length (_conditions (CausalProbability_new y l))
            = List.length l).
  { intros y l. simpl. symmetry.
    apply Permutation_length, sorted_conditions_perm. }
  destruct H as [[W [_ ->]]|[idx [Z [_ [-> | ->]]]]];
    unfold rule_1_candidate, rule_2_candidate, rule_3_candidate;
    rewrite Hsort.
  - apply filter_length_le.
  - now rewrite set_at_length.
  - apply remove_at_length.
Qed.

Lemma iterations_pos (b k : nat) : (1 <= iterations b k)%nat.
Proof. destruct k; simpl; lia. Qed.

Lemma queue_weight_app (b d : nat)
    (q1 q2 : list (CausalProbability * list step)) :
  queue_weight b d (q1 ++ q2) = (queue_weight b d q1 + queue_weight b d q2)%nat.
Proof. unfold queue_weight. now rewrite map_app, list_sum_app. Qed.

Lemma queue_weight_constant (b d k : nat)
    (q : list (CausalProbability * list step)) :
  (forall e, In e q -> depth e = k) ->
  queue_weight b d q = (List.length q * iterations b (d - k))%nat.
Proof.
  intros H. induction q as [|e q IH]; [reflexivity|].
  unfold queue_weight in *. simpl. rewrite IH.
  - rewrite (H e); [lia|now left].
  - intros e' He'. apply H. now right.
Qed.

Section Termination.
Variable self : CausalProofFinder.
Variable B : CausalProbability.

Lemma scan_carry_length (path : list step) (succs : list step) :
  forall queue visited queue'' visited'',
    scan_successors B (_state_key B) path succs queue visited
    = Carry queue'' visited'' ->
    exists added,
      queue'' = queue ++ added
      /\ (List.length added <= List.length succs)%nat
      /\ forall e, In e added ->
           depth e = S (List.length path)
           /\ exists lbl, In (lbl, fst e) succs.
Proof.
  induction succs as [|[lbl nxt] succs IH];
    intros queue visited queue'' visited''; cbn [scan_successors].
  - intros H. inversion H; subst. exists []. rewrite app_nil_r.
    split; [reflexivity|]. split; [simpl; lia|intros e []].
  - destruct (mem_str (_state_key nxt) visited).
    + intros H. destruct (IH _ _ _ _ H) as [added [Hq [Hl Ha]]].
      exists added. split; [assumption|]. split; [simpl; lia|].
      intros e He. destruct (Ha e He) as [Hd [l Hin]].
      split; [assumption|]. exists l. now right.
    + destruct (_are_expressions_equivalent nxt B
                || String.eqb (_state_key nxt) (_state_key B));
        [discriminate|].
      intros H. destruct (IH _ _ _ _ H) as [added [Hq [Hl Ha]]].
      exists ((nxt, path ++ [(lbl, nxt)]) :: added).
      split; [rewrite Hq, <- app_assoc; reflexivity|].
      split; [simpl; lia|].
      intros e [<-|He].
      * split; [unfold depth; simpl; rewrite length_app; simpl; lia|].
        exists lbl. now left.
      * destruct (Ha e He) as [Hd [l Hin]].
        split; [assumption|]. exists l. now right.
Qed.

(** The loop ends within [queue_weight] iterations when every queued term
    has at most [n] conditions and [b] is at least [2 * n]. *)
Lemma bfs_loop_terminates (n b : nat) (fuel : nat) :
  (2 * n <= b)%nat ->
  forall queue visited,
    (forall e, In e queue -> (List.length (_conditions (fst e)) <= n)%nat) ->
    (queue_weight b (max_depth self) queue < fuel)%nat ->
    bfs_loop self B (_state_key B) fuel queue visited <> OutOfFuel.
Proof.
  intros Hb.
  induction fuel as [|fuel IH]; intros queue visited Hn Hw; [lia|].
  cbn [bfs_loop].
  destruct queue as [|[cur path] queue']; [discriminate|].
  assert (Hrest : forall e, In e queue' ->
            (List.length (_conditions (fst e)) <= n)%nat)
    by (intros e He; apply Hn; now right).
  change ((cur, path) :: queue') with ([(cur, path)] ++ queue') in Hw.
  rewrite queue_weight_app in Hw.
  assert (Hone : queue_weight b (max_depth self) [(cur, path)]
                 = iterations b (max_depth self - List.length path)).
  { unfold queue_weight, depth. simpl. lia. }
  rewrite Hone in Hw. clear Hone.
  destruct (Nat.leb (max_depth self) (List.length path)) eqn:Ed.
  { apply IH; [assumption|].
    pose proof (iterations_pos b (max_depth self - List.length path)). lia. }
  apply Nat.leb_gt in Ed.
  destruct (_are_expressions_equivalent cur B
            || String.eqb (_state_key cur) (_state_key B)); [discriminate|].
  destruct (scan_successors _ _ _ _ _ _) as [new_path|queue'' visited'']
    eqn:Es; [discriminate|].
  destruct (scan_carry_length path _ _ _ _ _ Es) as [added [-> [Hl Ha]]].
  assert (Hcur : (List.length (_conditions cur) <= n)%nat)
    by (apply (Hn (cur, path)); now left).
  pose proof (successors_length self cur) as Hs.
  apply IH.
  - intros e He. apply in_app_or in He. destruct He as [He|He];
      [now apply Hrest|].
    destruct (Ha e He) as [_ [lbl Hin]].
    apply successors_are_produced, produced_conditions_length in Hin.
    simpl in Hin. lia.
  - rewrite queue_weight_app.
    rewrite (queue_weight_constant _ _ (S (List.length path)) added)
      by (intros e He; now destruct (Ha e He)).
    replace (max_depth self - List.length path)%nat
      with (S (max_depth self - S (List.length path)))%nat in Hw by lia.
    cbn [iterations] in Hw.
    assert (Hmul : (List.length added
                    * iterations b (max_depth self - S (List.length path))
                    <= b * iterations b
                             (max_depth self - S (List.length path)))%nat).
    { apply Nat.mul_le_mono_r. lia. }
    lia.
Qed.

End Termination.

(** With [enough_fuel] the model of the search never stops for lack of
    fuel: [_find_proof_single] returns a proof or [None]. *)
Lemma find_proof_single_terminates (self : CausalProofFinder)
    (A B : CausalProbability) (fuel : nat) :
  (enough_fuel self A <= fuel)%nat ->
  _find_proof_single self fuel A B <> OutOfFuel.
Proof.
  intros Hfuel. unfold _find_proof_single.
  destruct (_are_expressions_equivalent A B); [discriminate|].
  apply (bfs_loop_terminates self B (List.length (_conditions A))
           (2 * List.length (_conditions A))); [lia| |].
  - intros e [<-|[]]. simpl. lia.
  - unfold enough_fuel in Hfuel.
    assert (Hone : queue_weight (2 * List.length (_conditions A))
                     (max_depth self) [(A, [])]
                   = iterations (2 * List.length (_conditions A))
                       (max_depth self)).
    { unfold queue_weight, depth, list_sum.
      cbn [map fold_right snd List.length]. rewrite Nat.sub_0_r. lia. }
    rewrite Hone. lia.
Qed.

(* ================================================================== *)
(** * The search: depth bound and shortest proofs *)
(* ================================================================== *)

(** A finite certificate that keys identify the reachable terms. *)
Lemma key_identifies_by_list (self : CausalProofFinder)
    (A : CausalProbability) (L : list CausalProbability) :
  In A L -> closed_under_rules self L = true -> keys_distinct L = true ->
  key_identifies_terms self A.
Proof.
  intros HA Hclosed Hkeys.
  assert (Hin : forall t, reachable self A t -> In t L).
  { intros t [q [Hq <-]]. revert A HA Hq.
    induction q as [|s q IH]; intros A HA Hq; [exact HA|].
    rewrite proof_end_cons. destruct Hq as [Hs Hq]. apply IH; [|exact Hq].
    unfold closed_under_rules in Hclosed.
    rewrite forallb_forall in Hclosed. specialize (Hclosed A HA).
    rewrite forallb_forall in Hclosed. specialize (Hclosed s Hs).
    apply existsb_exists in Hclosed. destruct Hclosed as [u [Hu Heq]].
    apply CP_eqb_eq in Heq. now rewrite Heq. }
  intros t1 t2 H1 H2 Hk. apply Hin in H1, H2.
  unfold keys_distinct in Hkeys. rewrite forallb_forall in Hkeys.
  specialize (Hkeys t1 H1). rewrite forallb_forall in Hkeys.
  specialize (Hkeys t2 H2). rewrite Hk, String.eqb_refl in Hkeys.
  simpl in Hkeys. now apply CP_eqb_eq.
Qed.

(** What the search does keep: a proof returned by the single-term search
    is at most [max_depth] steps long; when the start term repeats no
    intervention and no two different terms reachable from it share a state
    key, it is no longer than any valid proof from the start to the target;
    with depth bound 0 a pair that is not equivalent yields [None]; and
    with [enough_fuel] the search always ends with a proof or [None]. *)
Theorem bfs_depth_bound_and_shortest
    (self : CausalProofFinder) (A B : CausalProbability) :
  (forall fuel p,
     _find_proof_single self fuel A B = Found p ->
     (List.length p <= max_depth self)%nat
     /\ (NoDup (do_conditions A) -> key_identifies_terms self A ->
         forall q, valid_proof self A q -> proof_end A q = B ->
                   (List.length p <= List.length q)%nat))
  /\ (max_depth self = 0%nat ->
      _are_expressions_equivalent A B = false ->
      forall fuel, (2 <= fuel)%nat ->
        _find_proof_single self fuel A B = NotFound)
  /\ (forall fuel, (enough_fuel self A <= fuel)%nat ->
        _find_proof_single self fuel A B <> OutOfFuel).
Proof.
  split; [|split; [|intros fuel; apply find_proof_single_terminates]].
  - intros fuel p. unfold _find_proof_single.
    destruct (_are_expressions_equivalent A B) eqn:Eeq.
    + intros H. inversion H; subst. simpl. split; [lia|]. intros; lia.
    + intros H. split; [eapply bfs_loop_length; eassumption|].
      intros Hnd Hkey q Hq Hend.
      destruct (is_goal B A) eqn:Eg.
      * destruct fuel as [|fuel]; [discriminate|]. cbn [bfs_loop] in H.
        destruct (Nat.leb (max_depth self) (List.length (@nil step))).
        -- destruct fuel; discriminate.
        -- unfold is_goal in Eg. rewrite Eg in H. inversion H. simpl. lia.
      * eapply (bfs_loop_minimal self A B Hnd Hkey); try eassumption.
        now apply search_inv_initial.
  - intros Hd Heq fuel Hfuel. unfold _find_proof_single. rewrite Heq.
    destruct fuel as [|[|fuel]]; try lia.
    cbn [bfs_loop]. rewrite Hd. reflexivity.
Qed.

Lemma bfs_depth_bound_and_shortest_witness :
  let self := mkFinder [("X", ["Y"]); ("Z", []); ("Y", [])] 3 in
  let A := CausalProbability_new (OSym "Y") [Do "X" None; Do "Z" None] in
  let B := CausalProbability_new (OSym "Y") [Do "X" None; Sym "Z"] in
  let p := [(rule_label 2, B)] in
  ((List.length p <= max_depth self)%nat
   /\ (List.length p <= List.length [(rule_label 2, B)])%nat)
  /\ _find_proof_single (mkFinder [("X", ["Y"])] 0) 2 A B = NotFound.
Proof.
  intros self A B p. split.
  - destruct (proj1 (bfs_depth_bound_and_shortest self A B) 20 p)
      as [Hlen Hmin]; [vm_compute; reflexivity|].
    split; [exact Hlen|]. apply Hmin.
    + vm_compute. repeat constructor; simpl; intuition discriminate.
    + apply (key_identifies_by_list self A (reach_terms self 4 [A]));
        vm_compute; auto.
    + vm_compute. intuition.
    + reflexivity.
  - apply (proj1 (proj2 (bfs_depth_bound_and_shortest
                           (mkFinder [("X", ["Y"])] 0) A B))).
    + reflexivity.
    + vm_compute. reflexivity.
    + lia.
Defined.

(** C7: the search does not return a shortest proof on a term that
    repeats an intervention.  From [P(Y | do(Z), do(Z))] to [P(Y)], with
    [Z] and [Y] isolated and depth bound 10, the two applications of Rule 3
    [q] are a valid proof within the bound, and the search returns the three
    steps [p] (Rule 2, Rule 1, Rule 3): [_do_calculus_successors] discards
    the Rule 3 successor [P(Y | do(Z))] of the start, which the equivalence
    test, comparing sets of conditions, takes for the start itself. *)
Theorem C7_bfs_returns_longer_proof :
  let self := mkFinder [("Z", []); ("Y", [])] 10 in
  let A := CausalProbability_new (OSym "Y") [Do "Z" None; Do "Z" None] in
  let B := CausalProbability_new (OSym "Y") [] in
  let q := [(rule_label 3, CausalProbability_new (OSym "Y") [Do "Z" None]);
            (rule_label 3, B)] in
  let p := [(rule_label 2,
             CausalProbability_new (OSym "Y") [Do "Z" None; Sym "Z"]);
            (rule_label 1, CausalProbability_new (OSym "Y") [Do "Z" None]);
            (rule_label 3, B)] in
  _find_proof_single self 50 A B = Found p
  /\ valid_proof self A q /\ proof_end A q = B
  /\ (List.length q <= max_depth self)%nat
  /\ (List.length q < List.length p)%nat
  /\ In (rule_label 3, CausalProbability_new (OSym "Y") [Do "Z" None])
        (rule_outputs (CausalExpr_init A (finder_structure self)))
  /\ ~ In (CausalProbability_new (OSym "Y") [Do "Z" None])
         (map snd (_do_calculus_successors self A)).
Proof.
  intros self A B q p.
  split; [vm_compute; reflexivity|].
  split; [vm_compute; intuition|].
  split; [reflexivity|].
  split; [simpl; lia|]. split; [simpl; lia|].
  split; [vm_compute; intuition|].
  vm_compute. intros [H|[]]. discriminate.
Qed.

(* ================================================================== *)
(** * Cyclic structures handed to the proof finder *)
(* ================================================================== *)

Lemma validate_cyclic (simple_cycles : DiGraph -> list (list string))
    (cs : causal_structure) :
  lists_simple_cycles (validation_graph cs)
    (simple_cycles (validation_graph cs)) ->
  has_cycle (validation_graph cs) ->
  exists G_fixed removed,
    _validate_causal_structure simple_cycles cs
    = (rebuild_structure G_fixed,
       [Warning_contains_cycles;
        Warning_cycles_detected (simple_cycles (validation_graph cs))]
       ++ removed ++ [Info_fixed])
    /\ wf_graph G_fixed
    /\ forall e, In e (edges G_fixed) <->
         In e (edges (validation_graph cs))
         /\ forall c, In c (simple_cycles (validation_graph cs)) ->
                      e <> closing_edge c.
Proof.
  intros [Hne _] Hcyc.
  destruct (validation_graph_spec cs) as [Hwf He].
  assert (Hdag : is_directed_acyclic_graph (validation_graph cs) = false).
  { destruct (is_directed_acyclic_graph (validation_graph cs)) eqn:E;
      [|reflexivity].
    apply is_dag_iff_acyclic in E; [contradiction|assumption]. }
  destruct (break_cycles_spec _ Hne (validation_graph cs) [])
    as [G_fixed [removed [Hb [Hn Hedges]]]].
  exists G_fixed, removed. split; [|split; [|exact Hedges]].
  - unfold _validate_causal_structure.
    destruct cs as [|pc cs'].
    + exfalso. destruct Hcyc as [v [l [Hl Hw]]].
      destruct (walk_nonempty_inv _ _ _ _ Hw Hl) as [u [l' [_ [[] _]]]].
    + rewrite Hdag, Hb. reflexivity.
  - intros u v H. rewrite Hn. apply Hwf. now apply Hedges.
Qed.

(* ================================================================== *)
(** * What the single-term search returns *)
(* ================================================================== *)

Lemma keys_along_snoc (A : CausalProbability) (p : list step) (s : step) :
  keys_along A (p ++ [s]) = keys_along A p ++ [_state_key (snd s)].
Proof.
  unfold keys_along. rewrite map_app. simpl. now rewrite map_app.
Qed.

Lemma sound_entry_mono (self : CausalProofFinder) (A : CausalProbability)
    (visited visited' : list string) (e : CausalProbability * list step) :
  incl visited visited' ->
  sound_entry self A visited e -> sound_entry self A visited' e.
Proof.
  intros Hi [H1 [H2 [H3 H4]]]. repeat split; try assumption.
  eapply incl_tran; eassumption.
Qed.

Lemma sound_entry_extend (self : CausalProofFinder) (A : CausalProbability)
    (visited : list string) (cur : CausalProbability) (path : list step)
    (s : step) :
  sound_entry self A visited (cur, path) ->
  rule_produces self cur s ->
  ~ In (_state_key (snd s)) visited ->
  sound_entry self A (visited ++ [_state_key (snd s)]) (snd s, path ++ [s]).
Proof.
  intros [H1 [H2 [H3 H4]]] Hs Hfresh. simpl in *.
  unfold sound_entry. cbn [fst snd]. split; [|split; [|split]].
  - apply valid_proof_app. split; [assumption|]. rewrite H2. simpl. tauto.
  - apply proof_end_snoc.
  - rewrite keys_along_snoc.
    apply NoDup_app; [assumption|constructor; [intros []|constructor]|].
    intros k Hk [<-|[]]. apply Hfresh. now apply H4.
  - rewrite keys_along_snoc. intros k Hk. apply in_app_or in Hk.
    apply in_or_app. destruct Hk as [Hk|Hk]; [left; now apply H4|now right].
Qed.

Section Returned.
Variable self : CausalProofFinder.
Variables A B : CausalProbability.

Lemma scan_sound (cur : CausalProbability) (path : list step)
    (succs : list step) :
  (forall s, In s succs -> rule_produces self cur s) ->
  forall queue visited,
    sound_entry self A visited (cur, path) ->
    (forall e, In e queue -> sound_entry self A visited e) ->
    match scan_successors B (_state_key B) path succs queue visited with
    | Hit p =>
        valid_proof self A p /\ is_goal B (proof_end A p) = true
        /\ NoDup (keys_along A p)
    | Carry queue'' visited'' =>
        forall e, In e queue'' -> sound_entry self A visited'' e
    end.
Proof.
  induction succs as [|[lbl nxt] succs IH]; intros Hprod queue visited Hcur Hq;
    cbn [scan_successors]; [exact Hq|].
  assert (Hrest : forall s, In s succs -> rule_produces self cur s)
    by (intros s Hs; apply Hprod; now right).
  destruct (mem_str (_state_key nxt) visited) eqn:Ev; [now apply IH|].
  apply mem_str_not_In in Ev.
  pose proof (sound_entry_extend self A visited cur path (lbl, nxt) Hcur
                (Hprod _ (or_introl eq_refl)) Ev) as Hnew.
  cbn [snd] in Hnew.
  destruct (_are_expressions_equivalent nxt B
            || String.eqb (_state_key nxt) (_state_key B)) eqn:Eg.
  - destruct Hnew as [H1 [H2 [H3 _]]]. cbn [fst snd] in *.
    split; [assumption|]. split; [|assumption].
    rewrite <- H2 in Eg. exact Eg.
  - apply IH; [assumption| |].
    + eapply sound_entry_mono; [|exact Hcur]. apply incl_appl, incl_refl.
    + intros e He. apply in_app_or in He. destruct He as [He|[<-|[]]].
      * eapply sound_entry_mono; [|now apply Hq]. apply incl_appl, incl_refl.
      * exact Hnew.
Qed.

Lemma bfs_loop_sound (fuel : nat) :
  forall queue visited p,
    (forall e, In e queue -> sound_entry self A visited e) ->
    bfs_loop self B (_state_key B) fuel queue visited = Found p ->
    valid_proof self A p /\ is_goal B (proof_end A p) = true
    /\ NoDup (keys_along A p).
Proof.
  induction fuel as [|fuel IH]; intros queue visited p Hq; cbn [bfs_loop];
    [discriminate|].
  destruct queue as [|[cur path] queue']; [discriminate|].
  assert (Hrest : forall e, In e queue' -> sound_entry self A visited e)
    by (intros e He; apply Hq; now right).
  pose proof (Hq _ (or_introl eq_refl)) as Hcur.
  destruct (Nat.leb (max_depth self) (List.length path)); [now apply IH|].
  destruct (_are_expressions_equivalent cur B
            || String.eqb (_state_key cur) (_state_key B)) eqn:Eg.
  - intros H. inversion H; subst. destruct Hcur as [H1 [H2 [H3 _]]].
    cbn [fst snd] in *. split; [assumption|]. split; [|assumption].
    rewrite H2. exact Eg.
  - pose proof (scan_sound cur path (_do_calculus_successors self cur)
                  (successors_are_produced self cur) queue' visited Hcur Hrest)
      as Hscan.
    destruct (scan_successors _ _ _ _ _ _) as [new_path|queue'' visited''].
    + intros H. inversion H; subst. exact Hscan.
    + now apply IH.
Qed.

End Returned.

(** X1.  A proof returned by the single-term search is a derivation: every
    step is emitted by the enumerator of the rule its label names, applied
    to the term before it; the last term passes the goal test (it is
    equivalent to the target or has its state key); and no state key occurs
    twice along the proof, the start included. *)
Theorem returned_proof_is_valid (self : CausalProofFinder)
    (A B : CausalProbability) (fuel : nat) (p : list step) :
  _find_proof_single self fuel A B = Found p ->
  valid_proof self A p
  /\ is_goal B (proof_end A p) = true
  /\ NoDup (keys_along A p).
Proof.
  unfold _find_proof_single.
  destruct (_are_expressions_equivalent A B) eqn:Eeq.
  - intros H. inversion H; subst. split; [exact I|]. split.
    + unfold is_goal, proof_end. simpl. now rewrite Eeq.
    + repeat constructor. intros [].
  - apply bfs_loop_sound. intros e [<-|[]].
    repeat split; simpl.
    + repeat constructor. intros [].
    + intros k Hk. exact Hk.
Qed.

Lemma returned_proof_is_valid_witness :
  let self := mkFinder [("X", ["Y"]); ("Z", []); ("Y", [])] 3 in
  let A := CausalProbability_new (OSym "Y") [Do "X" None; Do "Z" None] in
  let B := CausalProbability_new (OSym "Y") [Sym "X"] in
  let p := [(rule_label 2, CausalProbability_new (OSym "Y") [Do "Z" None; Sym "X"]);
            (rule_label 3, B)] in
  valid_proof self A p
  /\ is_goal B (proof_end A p) = true
  /\ NoDup (keys_along A p).
Proof.
  intros self A B p.
  apply (returned_proof_is_valid self A B 20 p).
  vm_compute. reflexivity.
Defined.

(* ================================================================== *)
(** * When the search returns nothing *)
(* ================================================================== *)

Section Exhausted.
Variable self : CausalProofFinder.
Variables A B : CausalProbability.
Hypothesis Hnd : NoDup (do_conditions A).
Hypothesis Hkey : key_identifies_terms self A.

Lemma target_not_visited (queue : list (CausalProbability * list step))
    (visited : list string) (q : list step) :
  search_inv self A B queue visited ->
  valid_proof self A q -> proof_end A q = B ->
  ~ In (_state_key (proof_end A q)) visited.
Proof.
  intros Inv Hq Hend Hv. rewrite Hend in Hv.
  assert (HB : reachable self A B) by (exists q; auto).
  pose proof (inv_nongoal Inv B HB Hv) as Hg.
  unfold is_goal in Hg. rewrite equivalent_refl in Hg. discriminate.
Qed.

Lemma bfs_loop_exhausted (fuel : nat) :
  forall queue visited,
    search_inv self A B queue visited ->
    bfs_loop self B (_state_key B) fuel queue visited = NotFound ->
    forall q, valid_proof self A q -> proof_end A q = B ->
      (max_depth self < List.length q)%nat.
Proof.
  induction fuel as [|fuel IH]; intros queue visited Inv; cbn [bfs_loop];
    [discriminate|].
  destruct queue as [|[cur path] queue'].
  - intros _ q Hq Hend. exfalso.
    destruct (inv_frontier Inv q Hq) as [Hv|[q1 [q2 [p [_ [_ [[] _]]]]]]].
    now apply (target_not_visited [] visited q).
  - pose proof (inv_sorted Inv) as Hsorted.
    inversion Hsorted as [|? ? _ Hhead]; subst.
    rewrite Forall_forall in Hhead.
    destruct (Nat.leb (max_depth self) (List.length path)) eqn:Ed.
    + intros _ q Hq Hend. apply Nat.leb_le in Ed.
      destruct (inv_frontier Inv q Hq)
        as [Hv|[q1 [q2 [p [Heq [Hne [Hin Hlen]]]]]]].
      * exfalso. now apply (target_not_visited _ visited q Inv).
      * assert (Hd : (List.length path <= List.length p)%nat).
        { destruct Hin as [Hin|Hin]; [inversion Hin; lia|].
          apply (Hhead _ Hin). }
        subst q. rewrite length_app. destruct q2; [congruence|]. simpl. lia.
    + destruct (inv_queue Inv (cur, path) (or_introl eq_refl)) as [Hcur Hcurv].
      simpl in Hcur, Hcurv.
      pose proof (inv_nongoal Inv cur Hcur Hcurv) as Hg.
      unfold is_goal in Hg. rewrite Hg.
      destruct (scan_successors _ _ _ _ _ _) as [new_path|queue'' visited'']
        eqn:Es; [discriminate|].
      apply IH. eapply search_inv_step; eassumption.
Qed.

End Exhausted.

(** X2.  [None] is a negative answer within the depth bound: when the start
    term repeats no intervention and state keys tell apart the terms
    reachable from it, a search that returns [None] means that every valid
    proof from the start to the target has more than [max_depth] steps. *)
Theorem none_means_no_short_proof (self : CausalProofFinder)
    (A B : CausalProbability) (fuel : nat) :
  NoDup (do_conditions A) -> key_identifies_terms self A ->
  _find_proof_single self fuel A B = NotFound ->
  forall q, valid_proof self A q -> proof_end A q = B ->
    (max_depth self < List.length q)%nat.
Proof.
  intros Hnd Hkey. unfold _find_proof_single.
  destruct (_are_expressions_equivalent A B) eqn:Eeq; [discriminate|].
  destruct (is_goal B A) eqn:Eg.
  - destruct fuel as [|fuel]; [discriminate|]. cbn [bfs_loop].
    destruct (Nat.leb (max_depth self) (List.length (@nil step))) eqn:Ed.
    + intros _ q Hq Hend. apply Nat.leb_le in Ed. simpl in Ed.
      destruct q as [|s q]; [|simpl; lia].
      unfold proof_end in Hend. simpl in Hend. subst B.
      rewrite equivalent_refl in Eeq. discriminate.
    + unfold is_goal in Eg. rewrite Eg. discriminate.
  - apply (bfs_loop_exhausted self A B Hnd Hkey).
    now apply search_inv_initial.
Qed.

Lemma none_means_no_short_proof_witness :
  let self := mkFinder [("X", []); ("Z", []); ("Y", [])] 1 in
  let A := CausalProbability_new (OSym "Y") [Do "X" None; Do "Z" None] in
  let B := CausalProbability_new (OSym "Y") [] in
  let q := [(rule_label 3, CausalProbability_new (OSym "Y") [Do "Z" None]);
            (rule_label 3, B)] in
  _find_proof_single self 20 A B = NotFound
  /\ (max_depth self < List.length q)%nat.
Proof.
  intros self A B q. split; [vm_compute; reflexivity|].
  apply (none_means_no_short_proof self A B 20).
  - vm_compute. repeat constructor; simpl; intuition discriminate.
  - apply (key_identifies_by_list self A (reach_terms self 4 [A]));
      vm_compute; auto.
  - vm_compute. reflexivity.
  - vm_compute. intuition.
  - reflexivity.
Defined.

(* ================================================================== *)
(** * Every rule application lowers the measure *)
(* ================================================================== *)

Lemma filter_length_lt (X : Type) (f : X -> bool) (l : list X) (x : X) :
  In x l -> f x = false -> (List.length (filter f l) < List.length l)%nat.
Proof.
  induction l as [|a l IH]; intros Hin Hf; [contradiction|].
  simpl. destruct Hin as [->|Hin].
  - rewrite Hf. pose proof (filter_length_le f l). lia.
  - specialize (IH Hin Hf). destruct (f a); simpl; lia.
Qed.

Lemma new_conditions_length (y : outcome) (l : list condition) :
  List.length (_conditions (CausalProbability_new y l)) = List.length l.
Proof.
  simpl. symmetry. apply Permutation_length, sorted_conditions_perm.
Qed.

Lemma new_do_conditions_length (y : outcome) (l : list condition) :
  List.length (do_conditions (CausalProbability_new y l))
  = List.length (filter isinstance_Do l).
Proof. symmetry. apply Permutation_length, do_conditions_new. Qed.

Lemma rule_step_decreases (self : CausalProofFinder) (t : CausalProbability)
    (s : step) :
  rule_produces self t s -> (rewrite_measure (snd s) < rewrite_measure t)%nat.
Proof.
  intros Hs. unfold rule_produces in Hs. apply rule_outputs_cases in Hs.
  cbn [CausalExpr_init expression] in Hs. unfold rewrite_measure.
  destruct Hs as [[W [HW ->]]|[idx [Z [He [-> | ->]]]]].
  - unfold rule_1_candidate.
    rewrite new_conditions_length, new_do_conditions_length, filter_do_rule_1.
    destruct (obs_var_dropped _ _ HW) as [c [Hc [_ Hd]]].
    assert (Hlt : (List.length
                     (filter (fun c => negb (dropped_by W c)) (_conditions t))
                   < List.length (_conditions t))%nat).
    { apply (filter_length_lt _ _ _ c); [assumption|]. now rewrite Hd. }
    unfold do_conditions. lia.
  - unfold rule_2_candidate.
    rewrite new_conditions_length, new_do_conditions_length, set_at_length.
    destruct (do_entry_split _ _ _ He) as [v [a [b [_ [H1 [H2 _]]]]]].
    unfold do_conditions. rewrite H1, H2, !length_app. simpl. lia.
  - unfold rule_3_candidate.
    rewrite new_conditions_length, new_do_conditions_length.
    destruct (do_entry_split _ _ _ He) as [v [a [b [_ [H1 [_ H3]]]]]].
    pose proof (remove_at_length idx (_conditions t)).
    unfold do_conditions. rewrite H1, H3, !length_app. simpl. lia.
Qed.

(** X3.  No derivation is longer than the start term allows: along a valid
    proof the number of conditions plus the number of interventions of the
    term drops by at least one at every step (Rule 1 removes observations,
    Rule 2 turns an intervention into an observation, Rule 3 removes an
    intervention), so a valid proof from a term has at most that many
    steps. *)
Theorem valid_proof_length_bound (self : CausalProofFinder)
    (q : list step) :
  forall A, valid_proof self A q ->
    (List.length q + rewrite_measure (proof_end A q) <= rewrite_measure A)%nat.
Proof.
  induction q as [|s q IH]; intros A Hq.
  - unfold proof_end. simpl. lia.
  - destruct Hq as [Hs Hq]. rewrite proof_end_cons.
    specialize (IH _ Hq). apply rule_step_decreases in Hs. simpl. lia.
Qed.

Lemma valid_proof_length_bound_witness :
  let self := mkFinder [("Z", []); ("Y", [])] 10 in
  let A := CausalProbability_new (OSym "Y") [Do "Z" None] in
  let q := [(rule_label 2, CausalProbability_new (OSym "Y") [Sym "Z"]);
            (rule_label 1, CausalProbability_new (OSym "Y") [])] in
  (List.length q + rewrite_measure (proof_end A q) <= rewrite_measure A)%nat.
Proof.
  intros self A q. apply (valid_proof_length_bound self q A).
  vm_compute. intuition.
Defined.

(* ================================================================== *)
(** * The successors of a term *)
(* ================================================================== *)

Lemma uniq_by_key_fresh (l : list step) :
  forall seen,
    NoDup (map (fun s => _state_key (snd s)) (uniq_by_key l seen))
    /\ forall s, In s (uniq_by_key l seen) -> ~ In (_state_key (snd s)) seen.
Proof.
  induction l as [|[lbl out] l IH]; intros seen; simpl.
  - split; [constructor|intros s []].
  - destruct (mem_str (_state_key out) seen) eqn:E; [apply IH|].
    apply mem_str_not_In in E.
    destruct (IH (seen ++ [_state_key out])) as [Hnd Hfresh].
    split.
    + simpl. constructor; [|assumption].
      intros Hin. apply in_map_iff in Hin. destruct Hin as [s [Hk Hs]].
      apply (Hfresh s Hs). rewrite Hk. apply in_or_app. right. now left.
    + intros s [<-|Hs]; [exact E|].
      intros Hin. apply (Hfresh s Hs). apply in_or_app. now left.
Qed.

Lemma rule_outputs_labels (ce : CausalExpr) (s : step) :
  In s (rule_outputs ce) ->
  fst s = rule_label 1 \/ fst s = rule_label 2 \/ fst s = rule_label 3.
Proof.
  unfold rule_outputs. intros H.
  apply in_app_or in H. destruct H as [H|H].
  { apply in_map_iff in H. destruct H as [u [<- _]]. now left. }
  apply in_app_or in H. destruct H as [H|H].
  { apply in_map_iff in H. destruct H as [u [<- _]]. right. now left. }
  destruct (apply_rule_3_all ce) as [outs|e]; [|contradiction].
  apply in_map_iff in H. destruct H as [u [<- _]]. right. now right.
Qed.

(** X4.  What [_do_calculus_successors] returns for a term: no two
    successors share a state key; each is emitted by the enumerator of the
    rule its label names and is not equivalent to the term itself; there are
    at most twice as many as the term has conditions; and every rule output
    that is not equivalent to the term has its state key among them. *)
Theorem successors_invariants (self : CausalProofFinder)
    (t : CausalProbability) :
  NoDup (map (fun s => _state_key (snd s)) (_do_calculus_successors self t))
  /\ (forall s, In s (_do_calculus_successors self t) ->
        rule_produces self t s
        /\ _are_expressions_equivalent (snd s) t = false
        /\ (fst s = rule_label 1 \/ fst s = rule_label 2
            \/ fst s = rule_label 3))
  /\ (List.length (_do_calculus_successors self t)
      <= 2 * List.length (_conditions t))%nat
  /\ (forall s, rule_produces self t s ->
        _are_expressions_equivalent (snd s) t = false ->
        exists s', In s' (_do_calculus_successors self t)
                   /\ _state_key (snd s') = _state_key (snd s)).
Proof.
  split; [|split; [|split]].
  - unfold _do_calculus_successors. apply uniq_by_key_fresh.
  - intros s Hs. unfold _do_calculus_successors in Hs.
    apply uniq_by_key_In, filter_In in Hs. destruct Hs as [Hin Hneq].
    split; [exact Hin|]. split.
    + now destruct (_are_expressions_equivalent (snd s) t).
    + eapply rule_outputs_labels. exact Hin.
  - apply successors_length.
  - intros [lbl u] Hs Hneq. unfold _do_calculus_successors.
    destruct (uniq_by_key_repr
                (filter (fun s => negb (_are_expressions_equivalent (snd s) t))
                   (rule_outputs (CausalExpr_init t (finder_structure self))))
                [] lbl u) as [[]|[lbl' [u' [Hin Hk]]]].
    + apply filter_In. split; [exact Hs|]. simpl in *. now rewrite Hneq.
    + exists (lbl', u'). split; assumption.
Qed.

(* ================================================================== *)
(** * [find_proof] on differences *)
(* ================================================================== *)

(** The answer for a pair of differences, from the two single searches. *)
Lemma find_proof_pairs (simplify : expr -> expr) (self : CausalProofFinder)
    (fuel : nat) (start target : expr) (a1 b1 a2 b2 : CausalProbability) :
  ~ (is_term start /\ is_term target) ->
  _as_subtraction_pair simplify start = Some (Term a1, Term b1) ->
  _as_subtraction_pair simplify target = Some (Term a2, Term b2) ->
  find_proof simplify self fuel start target
  = Ok match _find_proof_single self fuel a1 a2 with
       | NotFound => NoProof
       | OutOfFuel => Unfinished
       | Found p_left =>
           match _find_proof_single self fuel b1 b2 with
           | NotFound => NoProof
           | OutOfFuel => Unfinished
           | Found p_right => AteProof p_left p_right
           end
       end.
Proof.
  intros Hshape Hs Ht.
  rewrite (find_proof_second_case _ _ _ _ _ Hshape), Hs, Ht.
  destruct (_find_proof_single self fuel a1 a2);
    try reflexivity;
    destruct (_find_proof_single self fuel b1 b2); reflexivity.
Qed.

(** X5.  On two expressions, not both single terms, that [sp.simplify]
    returns as differences of terms, [find_proof] is the two single-term
    searches on the operands of the simplified differences, left operand
    against left operand and right against right, whichever way round the
    summands of each difference are listed: it returns the pair of proofs
    when both searches find one, and [None] as soon as one of them returns
    [None]. *)
Theorem find_proof_difference (simplify : expr -> expr)
    (self : CausalProofFinder) (fuel : nat)
    (start target : expr) (a1 b1 a2 b2 : CausalProbability) :
  ~ (is_term start /\ is_term target) ->
  difference_of (simplify start) (Term a1) (Term b1) ->
  difference_of (simplify target) (Term a2) (Term b2) ->
  find_proof simplify self fuel start target
  = Ok match _find_proof_single self fuel a1 a2 with
       | NotFound => NoProof
       | OutOfFuel => Unfinished
       | Found p_left =>
           match _find_proof_single self fuel b1 b2 with
           | NotFound => NoProof
           | OutOfFuel => Unfinished
           | Found p_right => AteProof p_left p_right
           end
       end.
Proof.
  intros Hshape Hs Ht. apply find_proof_pairs.
  - exact Hshape.
  - now apply as_subtraction_pair_Some.
  - now apply as_subtraction_pair_Some.
Qed.

(** The theorem from [P(Y | do(X)) - P(Y | do(W))] to
    [P(Y | X) - P(Y | W)] over three isolated vertices; SymPy returns both
    differences as they are. *)
Lemma find_proof_difference_witness :
  let simplify := fun e : expr => e in
  let self := mkFinder [("X", []); ("W", []); ("Y", [])] 3 in
  let a1 := CausalProbability_new (OSym "Y") [Do "X" None] in
  let b1 := CausalProbability_new (OSym "Y") [Do "W" None] in
  let a2 := CausalProbability_new (OSym "Y") [Sym "X"] in
  let b2 := CausalProbability_new (OSym "Y") [Sym "W"] in
  find_proof simplify self 20
    (Add [((-1)%Z, Term b1); (1%Z, Term a1)])
    (Add [(1%Z, Term a2); ((-1)%Z, Term b2)])
  = Ok (AteProof [(rule_label 2, a2)] [(rule_label 2, b2)]).
Proof.
  intros simplify self a1 b1 a2 b2.
  rewrite (find_proof_difference simplify self 20 _ _ a1 b1 a2 b2).
  - vm_compute. reflexivity.
  - intros [[t Ht] _]. discriminate.
  - right. reflexivity.
  - left. reflexivity.
Defined.

(** X6.  A term cannot be matched against a difference: when exactly one of
    the two expressions is a single term, [find_proof] raises the
    [TypeError] for unsupported expressions, whatever the other one is and
    whatever [sp.simplify] makes of it; of [sp.simplify] this uses only
    that it returns a term for a term. *)
Theorem find_proof_term_against_other (simplify : expr -> expr)
    (self : CausalProofFinder) (fuel : nat) (start target : expr) :
  simplify_keeps_terms simplify ->
  (is_term start /\ ~ is_term target) \/ (~ is_term start /\ is_term target) ->
  find_proof simplify self fuel start target = Raise (TypeError msg_unsupported).
Proof.
  intros Hkeep Hone.
  assert (Hterm : forall t, _as_subtraction_pair simplify (Term t) = None).
  { intros t. unfold _as_subtraction_pair.
    destruct (Hkeep t) as [t' ->]. reflexivity. }
  rewrite find_proof_second_case by tauto.
  destruct Hone as [[[s ->] _]|[_ [t ->]]]; rewrite Hterm.
  - reflexivity.
  - destruct (_as_subtraction_pair simplify start) as [[A1 B1]|]; reflexivity.
Qed.

Lemma find_proof_term_against_other_witness :
  let simplify := fun e : expr => e in
  find_proof simplify (mkFinder [("X", ["Y"])] 3) 20
    (Term (CausalProbability_new (OSym "Y") [Do "X" None]))
    (Add [(1%Z, Term (CausalProbability_new (OSym "Y") [Do "X" None]));
          ((-1)%Z, Term (CausalProbability_new (OSym "Y") []))])
  = Raise (TypeError msg_unsupported).
Proof.
  intros simplify. apply find_proof_term_against_other.
  - intros t. exists t. reflexivity.
  - left. split.
    + eexists. reflexivity.
    + intros [t Ht]. discriminate.
Defined.

(* ================================================================== *)
(** * Structural equivalence *)
(* ================================================================== *)

(** X7.  [_are_expressions_equivalent] is an equivalence relation on terms,
    and it ignores how conditions are listed: two terms built from the same
    outcome and from condition lists with the same elements, in any order
    and with any repetition, are equivalent. *)
Theorem equivalence_relation_on_terms :
  (forall t, _are_expressions_equivalent t t = true)
  /\ (forall t u, _are_expressions_equivalent t u
                  = _are_expressions_equivalent u t)
  /\ (forall t u v, _are_expressions_equivalent t u = true ->
        _are_expressions_equivalent u v = true ->
        _are_expressions_equivalent t v = true)
  /\ (forall y C C', (forall c, In c C <-> In c C') ->
        _are_expressions_equivalent (CausalProbability_new y C)
                                    (CausalProbability_new y C') = true).
Proof.
  split; [exact equivalent_refl|]. split; [|split].
  - assert (Hsym : forall t u, _are_expressions_equivalent t u = true ->
                               _are_expressions_equivalent u t = true).
    { intros t u H. apply equivalent_iff in H. apply equivalent_iff.
      destruct H as [H1 [H2 H3]]. split; [now symmetry|].
      split; intros c; [now rewrite H2|now rewrite H3]. }
    intros t u.
    destruct (_are_expressions_equivalent t u) eqn:E1;
      destruct (_are_expressions_equivalent u t) eqn:E2; try reflexivity.
    + apply Hsym in E1. congruence.
    + apply Hsym in E2. congruence.
  - intros t u v H1 H2. apply equivalent_iff in H1, H2. apply equivalent_iff.
    destruct H1 as [A1 [A2 A3]], H2 as [B1 [B2 B3]].
    split; [congruence|].
    split; intros c; [now rewrite A2, B2|now rewrite A3, B3].
  - intros y C C' H. apply equivalent_iff. split; [reflexivity|].
    unfold do_conditions, obs_conditions. simpl.
    split; intros c; rewrite !filter_In, !sorted_conditions_In, H; tauto.
Qed.

(* ================================================================== *)
(** * Validation of structures without cycles, and of repaired ones *)
(* ================================================================== *)

Lemma validation_graph_cycle (cs : causal_structure) :
  has_cycle (validation_graph cs) <-> structure_cycle cs.
Proof.
  destruct (validation_graph_spec cs) as [_ Hedges].
  split; intros [v [l [Hne Hw]]]; exists v, l; (split; [assumption|]);
    (eapply walk_incl; [|exact Hw]); intros x y Hxy; now apply Hedges.
Qed.

Lemma validate_acyclic (simple_cycles : DiGraph -> list (list string))
    (cs : causal_structure) :
  acyclic (validation_graph cs) ->
  _validate_causal_structure simple_cycles cs = (cs, []).
Proof.
  intros Hac. unfold _validate_causal_structure.
  destruct cs as [|pc cs']; [reflexivity|].
  destruct (validation_graph_spec (pc :: cs')) as [Hwf _].
  apply (is_dag_iff_acyclic _ Hwf) in Hac. now rewrite Hac.
Qed.

(** X8.  A structure without a directed cycle is kept exactly as the user
    gave it: the constructor logs nothing, rebuilds nothing, and the finder
    holds the mapping unchanged, in its order and with its childless
    keys. *)
Theorem acyclic_structure_is_kept
    (simple_cycles : DiGraph -> list (list string))
    (cs : causal_structure) (d : nat) :
  ~ structure_cycle cs ->
  _validate_causal_structure simple_cycles cs = (cs, [])
  /\ CausalProofFinder_init simple_cycles cs d = mkFinder cs d.
Proof.
  intros Hno.
  assert (H : _validate_causal_structure simple_cycles cs = (cs, [])).
  { apply validate_acyclic. intros Hc. apply Hno.
    now apply validation_graph_cycle. }
  split; [exact H|]. unfold CausalProofFinder_init. now rewrite H.
Qed.

Lemma acyclic_structure_is_kept_witness :
  let cs := [("X", ["Z"; "Y"]); ("Z", ["Y"]); ("Y", [])] in
  _validate_causal_structure (fun _ => []) cs = (cs, [])
  /\ CausalProofFinder_init (fun _ => []) cs 5 = mkFinder cs 5.
Proof.
  intros cs. apply acyclic_structure_is_kept.
  intros Hc. apply validation_graph_cycle in Hc. revert Hc.
  apply (is_dag_iff_acyclic _ (proj1 (validation_graph_spec cs))).
  vm_compute. reflexivity.
Defined.

(** The graph left after the closing edges of the listed cycles are removed
    has no cycle. *)
Lemma repaired_acyclic (G G' : DiGraph) (cycles : list (list string)) :
  lists_simple_cycles G cycles ->
  (forall e, In e (edges G') <->
     In e (edges G) /\ forall c, In c cycles -> e <> closing_edge c) ->
  acyclic G'.
Proof.
  intros [_ Hall] Hedges Hc. apply has_cycle_simple in Hc.
  destruct Hc as [c Hc].
  assert (Hc0 : is_simple_cycle G c).
  { destruct Hc as [H1 [H2 H3]]. split; [assumption|]. split; [assumption|].
    eapply walk_incl; [|exact H3]. intros x y Hxy. now apply Hedges in Hxy. }
  destruct (Hall c Hc0) as [l1 [l2 [Heq Hin]]].
  pose proof (rotation_closing_edge _ c l1 l2 Hc Heq) as Hedge.
  apply Hedges in Hedge. destruct Hedge as [_ Hno]. now apply (Hno _ Hin).
Qed.

(** X9.  Repair is stable: when [nx.simple_cycles] lists the simple cycles
    of a cyclic structure, the structure the finder keeps after the repair
    is accepted unchanged, with nothing logged, by the validation of any
    later finder built from it. *)
Theorem repaired_structure_is_stable
    (simple_cycles simple_cycles' : DiGraph -> list (list string))
    (cs : causal_structure) (d : nat) :
  lists_simple_cycles (validation_graph cs)
    (simple_cycles (validation_graph cs)) ->
  has_cycle (validation_graph cs) ->
  _validate_causal_structure simple_cycles'
    (finder_structure (CausalProofFinder_init simple_cycles cs d))
  = (finder_structure (CausalProofFinder_init simple_cycles cs d), []).
Proof.
  intros Hlist Hcyc.
  destruct (validate_cyclic simple_cycles cs Hlist Hcyc)
    as [G_fixed [removed [Hval [Hwf Hedges]]]].
  unfold CausalProofFinder_init. rewrite Hval. cbn [fst finder_structure].
  apply validate_acyclic. intros Hc.
  apply (repaired_acyclic _ G_fixed _ Hlist Hedges).
  destruct Hc as [v [l [Hne Hw]]]. exists v, l. split; [assumption|].
  eapply walk_incl; [|exact Hw]. intros x y Hxy.
  apply (proj2 (validation_graph_spec _)) in Hxy.
  now apply (rebuild_structure_edge _ _ _ Hwf).
Qed.

Lemma repaired_structure_is_stable_witness :
  let simple_cycles := fun _ : DiGraph => [["A"; "B"]] in
  let cs := [("A", ["B"]); ("B", ["A"])] in
  _validate_causal_structure (fun _ => [])
    (finder_structure (CausalProofFinder_init simple_cycles cs 3))
  = ([("A", ["B"])], []).
Proof.
  intros simple_cycles cs.
  apply (repaired_structure_is_stable simple_cycles (fun _ => []) cs 3).
  - split.
    + intros c [<-|[]]. discriminate.
    + intros c [Hne [Hnd Hw]].
      assert (Hedge : forall x y,
                edge_rel (validation_graph cs) x y ->
                (x = "A" /\ y = "B") \/ (x = "B" /\ y = "A")).
      { intros x y [H|[H|[]]]; inversion H; tauto. }
      destruct c as [|x [|y [|z c']]]; [congruence| | |].
      * exfalso. simpl in Hw. inversion Hw; subst.
        match goal with H : edge_rel _ x x |- _ =>
          destruct (Hedge _ _ H) as [[-> H']|[-> H']]; discriminate end.
      * simpl in Hw. inversion Hw as [|? ? ? ? H1 Hw1]; subst.
        destruct (Hedge _ _ H1) as [[-> ->]|[-> ->]].
        -- exists ["B"], ["A"]. split; [reflexivity|now left].
        -- exists [], ["A"; "B"]. split; [reflexivity|now left].
      * exfalso.
        change (last (x :: y :: z :: c') "") with (last (z :: c') "") in Hw.
        inversion Hw as [|? ? ? ? H1 Hw1]; subst.
        inversion Hw1 as [|? ? ? ? H2 Hw2]; subst.
        inversion Hw2 as [|? ? ? ? H3 Hw3]; subst.
        inversion Hnd as [|? ? Hx Hnd']; subst.
        destruct (Hedge _ _ H2) as [[-> ->]|[-> ->]];
          destruct (Hedge _ _ H3) as [[? ?]|[? ?]]; subst;
          try discriminate; apply Hx; right; left; reflexivity.
  - exists "A", ["B"; "A"]. split; [discriminate|].
    constructor; [vm_compute; left; reflexivity|].
    constructor; [vm_compute; right; left; reflexivity|]. constructor.
Defined.

(* ================================================================== *)
(** * The graph a [CausalExpr] builds *)
(* ================================================================== *)

(** The representation invariant of a networkx graph: edges join nodes, and
    neither a node nor an edge is stored twice. *)
Lemma NoDup_add_new (acc : list string) (n : string) :
  NoDup acc -> NoDup (add_new acc n).
Proof.
  intros H. unfold add_new. destruct (mem_str n acc) eqn:E; [assumption|].
  apply mem_str_not_In in E.
  apply NoDup_app; [assumption|constructor; [intros []|constructor]|].
  intros x Hx [<-|[]]. contradiction.
Qed.

Lemma add_node_simple (G : DiGraph) (n : string) :
  NoDup (nodes G) /\ NoDup (edges G) ->
  NoDup (nodes (add_node G n)) /\ NoDup (edges (add_node G n)).
Proof. intros [H1 H2]. split; [now apply NoDup_add_new|assumption]. Qed.

Lemma add_edge_simple (G : DiGraph) (u v : string) :
  NoDup (nodes G) /\ NoDup (edges G) ->
  NoDup (nodes (add_edge G u v)) /\ NoDup (edges (add_edge G u v)).
Proof.
  intros H. apply (add_node_simple G u) in H. apply (add_node_simple _ v) in H.
  unfold add_edge.
  destruct (has_edge (add_node (add_node G u) v) u v) eqn:E; [assumption|].
  destruct H as [H1 H2]. split; [assumption|]. cbn [edges].
  unfold has_edge in E.
  assert (Hnot : ~ In (u, v) (edges (add_node (add_node G u) v))).
  { intros Hin. apply mem_edge_In in Hin. congruence. }
  apply NoDup_app; [assumption|constructor; [intros []|constructor]|].
  intros x Hx [<-|[]]. contradiction.
Qed.

Lemma fold_add_node_spec (l : list string) :
  forall G,
    (NoDup (nodes G) /\ NoDup (edges G) ->
     NoDup (nodes (fold_left add_node l G))
     /\ NoDup (edges (fold_left add_node l G)))
    /\ forall x, In x (nodes (fold_left add_node l G)) <->
                 In x (nodes G) \/ In x l.
Proof.
  induction l as [|n l IH]; intros G; simpl; [tauto|].
  destruct (IH (add_node G n)) as [H1 H2]. split.
  - intros H. now apply H1, add_node_simple.
  - intros x. rewrite H2. unfold add_node at 1. cbn [nodes].
    rewrite add_new_In. intuition.
Qed.

Lemma build_nodes_spec (cs : causal_structure) :
  forall G0,
    (NoDup (nodes G0) /\ NoDup (edges G0) ->
     NoDup (nodes (fold_left
                     (fun G pc =>
                        fold_left add_node (snd pc) (add_node G (fst pc)))
                     cs G0))
     /\ NoDup (edges (fold_left
                        (fun G pc =>
                           fold_left add_node (snd pc) (add_node G (fst pc)))
                        cs G0)))
    /\ forall x,
         In x (nodes (fold_left
                        (fun G pc =>
                           fold_left add_node (snd pc) (add_node G (fst pc)))
                        cs G0))
         <-> In x (nodes G0) \/ structure_node cs x.
Proof.
  induction cs as [|[p children] cs IH]; intros G0; simpl.
  - split; [tauto|]. intros x. split; [tauto|].
    intros [H|[q [ch [[] _]]]]. exact H.
  - destruct (IH (fold_left add_node children (add_node G0 p))) as [H1 H2].
    destruct (fold_add_node_spec children (add_node G0 p)) as [F1 F2].
    split.
    + intros H. now apply H1, F1, add_node_simple.
    + intros x. rewrite H2, F2. unfold add_node at 1. cbn [nodes].
      rewrite add_new_In. unfold structure_node. split.
      * intros [[[H|H]|H]|[q [ch [Hin Hx]]]].
        -- now left.
        -- right. exists p, children. split; [now left|now left].
        -- right. exists p, children. split; [now left|now right].
        -- right. exists q, ch. split; [now right|assumption].
      * intros [H|[q [ch [[Heq|Hin] Hx]]]].
        -- left. left. now left.
        -- inversion Heq; subst. destruct Hx as [->|Hx];
             [left; left; now right|left; now right].
        -- right. exists q, ch. now split.
Qed.

Lemma fold_add_edge_spec (p : string) (children : list string) :
  forall G,
    (NoDup (nodes G) /\ NoDup (edges G) ->
     NoDup (nodes (fold_left (fun G child => add_edge G p child) children G))
     /\ NoDup (edges (fold_left (fun G child => add_edge G p child)
                        children G)))
    /\ forall x,
         In x (nodes (fold_left (fun G child => add_edge G p child)
                        children G))
         <-> In x (nodes G) \/ (children <> [] /\ x = p) \/ In x children.
Proof.
  induction children as [|c children IH]; intros G; simpl.
  - split; [tauto|]. intros x. split; [tauto|].
    intros [H|[[H _]|[]]]; [exact H|congruence].
  - destruct (IH (add_edge G p c)) as [H1 H2]. split.
    + intros H. now apply H1, add_edge_simple.
    + intros x. rewrite H2, add_edge_nodes. split.
      * intros [[H|[H|H]]|[[_ H]|H]]; subst; auto.
        -- right. left. split; [discriminate|reflexivity].
        -- right. left. split; [discriminate|reflexivity].
      * intros [H|[[_ H]|[H|H]]]; subst; auto.
Qed.

Lemma build_edges_nodes_spec (cs : causal_structure) :
  forall G0,
    (NoDup (nodes G0) /\ NoDup (edges G0) ->
     NoDup (nodes (fold_left
                     (fun G pc =>
                        fold_left (fun G child => add_edge G (fst pc) child)
                                  (snd pc) G)
                     cs G0))
     /\ NoDup (edges (fold_left
                        (fun G pc =>
                           fold_left (fun G child => add_edge G (fst pc) child)
                                     (snd pc) G)
                        cs G0)))
    /\ forall x,
         In x (nodes (fold_left
                        (fun G pc =>
                           fold_left (fun G child => add_edge G (fst pc) child)
                                     (snd pc) G)
                        cs G0))
         -> In x (nodes G0) \/ structure_node cs x.
Proof.
  induction cs as [|[p children] cs IH]; intros G0; simpl.
  - split; [tauto|]. intros x H. now left.
  - destruct (IH (fold_left (fun G child => add_edge G p child) children G0))
      as [H1 H2].
    destruct (fold_add_edge_spec p children G0) as [F1 F2].
    split.
    + intros H. now apply H1, F1.
    + intros x Hx. apply H2 in Hx. unfold structure_node.
      destruct Hx as [Hx|[q [ch [Hin Hq]]]].
      * apply F2 in Hx. destruct Hx as [Hx|[[_ ->]|Hx]].
        -- now left.
        -- right. exists p, children. split; [now left|now left].
        -- right. exists p, children. split; [now left|now right].
      * right. exists q, ch. split; [now right|assumption].
Qed.

Lemma fold_left_nodes_mono (X : Type) (f : DiGraph -> X -> DiGraph)
    (l : list X) :
  (forall G a x, In x (nodes G) -> In x (nodes (f G a))) ->
  forall G x, In x (nodes G) -> In x (nodes (fold_left f l G)).
Proof.
  intros Hf. induction l as [|a l IH]; intros G x Hx; simpl; [assumption|].
  apply IH. now apply Hf.
Qed.

(** X10.  [_build_graph] turns the mapping into the graph it describes: the
    vertices are exactly the keys and the children, the edges exactly the
    parent-child pairs, every edge joins two vertices, and no vertex or edge
    is stored twice, however often the mapping repeats it. *)
Theorem build_graph_spec (cs : causal_structure) :
  wf_graph (_build_graph cs)
  /\ NoDup (nodes (_build_graph cs))
  /\ NoDup (edges (_build_graph cs))
  /\ (forall x, In x (nodes (_build_graph cs)) <-> structure_node cs x)
  /\ (forall u v, In (u, v) (edges (_build_graph cs))
                  <-> structure_edge cs u v).
Proof.
  assert (Hnodes : forall x, In x (nodes (_build_graph cs))
                             <-> structure_node cs x).
  { intros x. unfold _build_graph. split.
    - intros Hx.
      apply (proj2 (build_edges_nodes_spec cs _)) in Hx.
      destruct Hx as [Hx|Hx]; [|exact Hx].
      apply (proj2 (build_nodes_spec cs empty_DiGraph)) in Hx.
      destruct Hx as [[]|Hx]. exact Hx.
    - intros Hx. apply fold_left_nodes_mono.
      + intros G [p ch] y Hy. cbn [fst snd].
        apply fold_left_nodes_mono; [|exact Hy].
        intros G' c z Hz. apply add_edge_nodes. now left.
      + apply (proj2 (build_nodes_spec cs empty_DiGraph)). now right. }
  assert (Hsimple : NoDup (nodes (_build_graph cs))
                    /\ NoDup (edges (_build_graph cs))).
  { unfold _build_graph.
    apply (proj1 (build_edges_nodes_spec cs _)).
    apply (proj1 (build_nodes_spec cs empty_DiGraph)).
    split; constructor. }
  split; [|split; [tauto|split; [tauto|split;
    [exact Hnodes|apply build_graph_edges]]]].
  intros u v Huv. apply build_graph_edges in Huv.
  destruct Huv as [children [Hin Hv]].
  split; apply Hnodes; exists u, children; (split; [assumption|]);
    [now left|now right].
Qed.

(* ================================================================== *)
(** * The repair of a cyclic structure *)
(* ================================================================== *)

Lemma build_graph_nodes (cs : causal_structure) (x : string) :
  In x (nodes (_build_graph cs)) <-> structure_node cs x.
Proof.
  unfold _build_graph. split.
  - intros Hx.
    apply (proj2 (build_edges_nodes_spec cs _)) in Hx.
    destruct Hx as [Hx|Hx]; [|exact Hx].
    apply (proj2 (build_nodes_spec cs empty_DiGraph)) in Hx.
    destruct Hx as [[]|Hx]. exact Hx.
  - intros Hx. apply fold_left_nodes_mono.
    + intros G [p ch] y Hy. cbn [fst snd].
      apply fold_left_nodes_mono; [|exact Hy].
      intros G' c z Hz. apply add_edge_nodes. now left.
    + apply (proj2 (build_nodes_spec cs empty_DiGraph)). now right.
Qed.

(** The rebuilt mapping names exactly the vertices that still have an
    edge. *)
Lemma rebuild_structure_node (G : DiGraph) (x : string) :
  wf_graph G ->
  (structure_node (rebuild_structure G) x
   <-> exists y, In (x, y) (edges G) \/ In (y, x) (edges G)).
Proof.
  intros Hwf. unfold structure_node, rebuild_structure. split.
  - intros [p [ch [Hin Hx]]]. apply in_flat_map in Hin.
    destruct Hin as [node [Hnode Hin]].
    destruct (successors G node) as [|c cs'] eqn:E; [contradiction|].
    destruct Hin as [Hin|[]]. inversion Hin; subst p ch.
    destruct Hx as [->|Hx].
    + exists c. left. apply successors_In. rewrite E. now left.
    + exists node. right. apply successors_In. now rewrite E.
  - assert (Hkey : forall u v, In (u, v) (edges G) ->
              In (u, successors G u)
                 (flat_map (fun node =>
                              match successors G node with
                              | [] => []
                              | children => [(node, children)]
                              end) (nodes G))
              /\ In v (successors G u)).
    { intros u v Huv.
      assert (Hv : In v (successors G u)) by now apply successors_In.
      split; [|exact Hv]. apply in_flat_map. exists u.
      split; [now apply (Hwf u v)|].
      destruct (successors G u); [contradiction|now left]. }
    intros [y [H|H]]; destruct (Hkey _ _ H) as [Hin Hv].
    + exists x, (successors G x). split; [exact Hin|now left].
    + exists y, (successors G y). split; [exact Hin|now right].
Qed.

(** The simple cycles of a graph whose only edges are [A -> B] and
    [B -> A], in the two rotations. *)
Lemma two_cycle_listings (G : DiGraph) :
  (forall x y, edge_rel G x y ->
     (x = "A" /\ y = "B") \/ (x = "B" /\ y = "A")) ->
  lists_simple_cycles G [["A"; "B"]] /\ lists_simple_cycles G [["B"; "A"]].
Proof.
  intros Hedge.
  assert (Hrot : forall c, is_simple_cycle G c ->
            c = ["A"; "B"] \/ c = ["B"; "A"]).
  { intros c [Hne [Hnd Hw]].
    destruct c as [|x [|y [|z c']]]; [congruence| | |].
    - exfalso. simpl in Hw. inversion Hw; subst.
      match goal with H : edge_rel _ x x |- _ =>
        destruct (Hedge _ _ H) as [[-> H']|[-> H']]; discriminate end.
    - simpl in Hw. inversion Hw as [|? ? ? ? H1 Hw1]; subst.
      inversion Hw1 as [|? ? ? ? H2 Hw2]; subst.
      destruct (Hedge _ _ H1) as [[-> ->]|[-> ->]]; [right|left];
        reflexivity.
    - exfalso.
      change (last (x :: y :: z :: c') "") with (last (z :: c') "") in Hw.
      inversion Hw as [|? ? ? ? H1 Hw1]; subst.
      inversion Hw1 as [|? ? ? ? H2 Hw2]; subst.
      inversion Hw2 as [|? ? ? ? H3 Hw3]; subst.
      inversion Hnd as [|? ? Hx Hnd']; subst.
      destruct (Hedge _ _ H2) as [[-> ->]|[-> ->]];
        destruct (Hedge _ _ H3) as [[? ?]|[? ?]]; subst;
        try discriminate; apply Hx; right; left; reflexivity. }
  split; (split; [intros c [<-|[]]; discriminate|]);
    intros c Hc; destruct (Hrot c Hc) as [-> | ->].
  - exists [], ["A"; "B"]. split; [reflexivity|now left].
  - exists ["B"], ["A"]. split; [reflexivity|now left].
  - exists ["A"], ["B"]. split; [reflexivity|now left].
  - exists [], ["B"; "A"]. split; [reflexivity|now left].
Qed.

(** C6, as the code has it: a structure with a cycle handed to the proof
    finder is detected (the warning is logged) and repaired at
    construction, before any search.  The graph every search step builds
    from the kept structure has exactly the edges of the user's graph
    except the closing edge (last vertex to first) of each cycle in the
    list [nx.simple_cycles] returned, and exactly the vertices that still
    have an edge; it is acyclic; and a search on two terms returns
    normally, with a proof or [None].  [nx.simple_cycles] is taken with its
    contract: it lists, non-empty and in some rotation, every simple cycle;
    the rotation is networkx's, and the repaired structure depends on
    it. *)
Theorem C6_cycles_repaired_before_search
    (simple_cycles : DiGraph -> list (list string))
    (cs : causal_structure) (d : nat) :
  lists_simple_cycles (validation_graph cs)
    (simple_cycles (validation_graph cs)) ->
  has_cycle (validation_graph cs) ->
  In Warning_contains_cycles (snd (_validate_causal_structure simple_cycles cs))
  /\ (forall u v,
        In (u, v)
           (edges (_build_graph
                     (finder_structure
                        (CausalProofFinder_init simple_cycles cs d))))
        <-> In (u, v) (edges (validation_graph cs))
            /\ forall c, In c (simple_cycles (validation_graph cs)) ->
                         (u, v) <> closing_edge c)
  /\ (forall x,
        In x (nodes (_build_graph
                       (finder_structure
                          (CausalProofFinder_init simple_cycles cs d))))
        <-> exists y,
              In (x, y)
                 (edges (_build_graph
                           (finder_structure
                              (CausalProofFinder_init simple_cycles cs d))))
              \/ In (y, x)
                   (edges (_build_graph
                             (finder_structure
                                (CausalProofFinder_init simple_cycles cs d)))))
  /\ acyclic (_build_graph
                (finder_structure (CausalProofFinder_init simple_cycles cs d)))
  /\ (forall e,
        graph (CausalExpr_init e
                 (finder_structure (CausalProofFinder_init simple_cycles cs d)))
        = _build_graph
            (finder_structure (CausalProofFinder_init simple_cycles cs d)))
  /\ (forall simplify s t fuel,
        (enough_fuel (CausalProofFinder_init simple_cycles cs d) s <= fuel)%nat ->
        exists a,
          find_proof simplify (CausalProofFinder_init simple_cycles cs d) fuel
            (Term s) (Term t) = Ok a
          /\ a <> Unfinished).
Proof.
  intros Hlist Hcyc.
  destruct (validate_cyclic simple_cycles cs Hlist Hcyc)
    as [G_fixed [removed [Hval [Hwf Hedges]]]].
  assert (Hfixed : forall u v,
            In (u, v)
               (edges (_build_graph
                         (finder_structure
                            (CausalProofFinder_init simple_cycles cs d))))
            <-> In (u, v) (edges G_fixed)).
  { intros u v. unfold CausalProofFinder_init. rewrite Hval. simpl.
    rewrite build_graph_edges. apply (rebuild_structure_edge _ _ _ Hwf). }
  assert (Hbuilt : forall u v,
            In (u, v)
               (edges (_build_graph
                         (finder_structure
                            (CausalProofFinder_init simple_cycles cs d))))
            <-> In (u, v) (edges (validation_graph cs))
                /\ forall c, In c (simple_cycles (validation_graph cs)) ->
                             (u, v) <> closing_edge c).
  { intros u v. rewrite Hfixed. apply Hedges. }
  split; [rewrite Hval; simpl; now left|].
  split; [exact Hbuilt|]. split; [|split; [|split]].
  - intros x.
    assert (Hx : In x (nodes (_build_graph
                                (finder_structure
                                   (CausalProofFinder_init simple_cycles cs d))))
                 <-> exists y, In (x, y) (edges G_fixed)
                               \/ In (y, x) (edges G_fixed)).
    { unfold CausalProofFinder_init. rewrite Hval. simpl.
      rewrite build_graph_nodes. apply (rebuild_structure_node _ _ Hwf). }
    rewrite Hx. split; intros [y Hy]; exists y.
    + destruct Hy as [Hy|Hy]; [left|right]; now apply Hfixed.
    + destruct Hy as [Hy|Hy]; [left|right]; now apply Hfixed.
  - intros Hc. apply has_cycle_simple in Hc. destruct Hc as [c Hc].
    assert (Hc0 : is_simple_cycle (validation_graph cs) c).
    { destruct Hc as [H1 [H2 H3]]. split; [assumption|].
      split; [assumption|].
      eapply walk_incl; [|exact H3].
      intros x y Hxy. now apply Hbuilt in Hxy. }
    destruct Hlist as [_ Hall].
    destruct (Hall c Hc0) as [l1 [l2 [Heq Hin]]].
    pose proof (rotation_closing_edge _ c l1 l2 Hc Heq) as Hedge.
    destruct (closing_edge (l2 ++ l1)) as [a b] eqn:Ecl.
    apply Hbuilt in Hedge. destruct Hedge as [_ Hno].
    apply (Hno _ Hin). now rewrite Ecl.
  - intros e. reflexivity.
  - intros simplify s t fuel Hfuel. unfold find_proof.
    pose proof (find_proof_single_terminates
                  (CausalProofFinder_init simple_cycles cs d) s t fuel Hfuel)
      as Hterm.
    destruct (_find_proof_single _ fuel s t) as [p| |];
      [| |congruence]; eexists; (split; [reflexivity|discriminate]).
Qed.

(** The theorem on [{A: [B], B: [A], C: []}] with the cycle listed as
    [[A, B]]: the edge [B -> A] goes, and with it the vertex [C], which has
    no edge. *)
Lemma C6_cycles_repaired_witness :
  let simple_cycles := fun _ : DiGraph => [["A"; "B"]] in
  let cs := [("A", ["B"]); ("B", ["A"]); ("C", [])] in
  (acyclic (_build_graph
              (finder_structure (CausalProofFinder_init simple_cycles cs 3)))
   /\ forall x,
        In x (nodes (_build_graph
                       (finder_structure
                          (CausalProofFinder_init simple_cycles cs 3))))
        <-> exists y,
              In (x, y)
                 (edges (_build_graph
                           (finder_structure
                              (CausalProofFinder_init simple_cycles cs 3))))
              \/ In (y, x)
                   (edges (_build_graph
                             (finder_structure
                                (CausalProofFinder_init simple_cycles cs 3)))))
  /\ finder_structure (CausalProofFinder_init simple_cycles cs 3)
     = [("A", ["B"])]
  /\ In "C" (nodes (validation_graph cs))
  /\ ~ In "C" (nodes (_build_graph
                        (finder_structure
                           (CausalProofFinder_init simple_cycles cs 3)))).
Proof.
  intros simple_cycles cs.
  split; [|split; [reflexivity|split;
    [vm_compute; tauto
    |vm_compute; intros [H|[H|[]]]; discriminate]]].
  assert (H : lists_simple_cycles (validation_graph cs)
                (simple_cycles (validation_graph cs))).
  { apply two_cycle_listings.
    intros x y [H|[H|[]]]; inversion H; tauto. }
  assert (Hc : has_cycle (validation_graph cs)).
  { exists "A", ["B"; "A"]. split; [discriminate|].
    constructor; [vm_compute; left; reflexivity|].
    constructor; [vm_compute; right; left; reflexivity|]. constructor. }
  pose proof (C6_cycles_repaired_before_search simple_cycles cs 3 H Hc)
    as [_ [_ [Hn [Ha _]]]].
  split; [exact Ha|exact Hn].
Defined.

(** C6 as claimed fails: the repair is not deterministic.  On
    [{A: [B], B: [A]}] the one simple cycle can be listed as [[A, B]] or as
    [[B, A]]; both listings meet the contract of [nx.simple_cycles], the
    first leaves [{A: [B]}] and the second [{B: [A]}]. *)
Lemma C6_counterexample :
  let cs := [("A", ["B"]); ("B", ["A"])] in
  let listing1 := fun _ : DiGraph => [["A"; "B"]] in
  let listing2 := fun _ : DiGraph => [["B"; "A"]] in
  lists_simple_cycles (validation_graph cs) (listing1 (validation_graph cs))
  /\ lists_simple_cycles (validation_graph cs)
       (listing2 (validation_graph cs))
  /\ finder_structure (CausalProofFinder_init listing1 cs 3)
     = [("A", ["B"])]
  /\ finder_structure (CausalProofFinder_init listing2 cs 3)
     = [("B", ["A"])].
Proof.
  intros cs listing1 listing2.
  assert (H : forall x y, edge_rel (validation_graph cs) x y ->
                (x = "A" /\ y = "B") \/ (x = "B" /\ y = "A")).
  { intros x y [H|[H|[]]]; inversion H; tauto. }
  destruct (two_cycle_listings _ H) as [H1 H2].
  split; [exact H1|]. split; [exact H2|]. split; reflexivity.
Qed.

(* ================================================================== *)
(** * Intervention graphs *)
(* ================================================================== *)

Lemma remove_incoming_edges (g : DiGraph) (X : string) :
  edges (remove_incoming g X)
  = filter (fun e => negb (String.eqb (snd e) X)) (edges g).
Proof.
  unfold remove_incoming, remove_edges_from. cbn [edges].
  apply filter_ext_in. intros e He. f_equal.
  destruct (String.eqb (snd e) X) eqn:E.
  - apply mem_edge_In, filter_In. now split.
  - destruct (mem_edge e _) eqn:M; [|reflexivity].
    apply mem_edge_In, filter_In in M. destruct M. congruence.
Qed.

Lemma filter_filter (X : Type) (f g : X -> bool) (l : list X) :
  filter f (filter g l) = filter (fun x => g x && f x) l.
Proof.
  induction l as [|a l IH]; simpl; [reflexivity|].
  destruct (g a); simpl; [destruct (f a)|]; now rewrite IH.
Qed.

Lemma fold_remove_incoming_edges (vars : list string) :
  forall g,
    edges (fold_left remove_incoming vars g)
    = filter (fun e => negb (mem_str (snd e) vars)) (edges g).
Proof.
  induction vars as [|X vars IH]; intros g; simpl.
  - symmetry. apply forallb_filter_id. apply forallb_forall. reflexivity.
  - rewrite IH, remove_incoming_edges, filter_filter.
    apply filter_ext. intros e. rewrite String.eqb_sym.
    now destruct (String.eqb X (snd e)); destruct (mem_str (snd e) vars).
Qed.

(** X11.  [_create_intervention_graph] keeps every vertex and exactly the
    edges that do not point at an intervened variable, in their order; so an
    intervened variable has no parent left, and the result depends neither
    on the order of the intervened variables nor on repetitions among
    them. *)
Theorem intervention_graph_spec (ce : CausalExpr) (do_vars : list string) :
  nodes (_create_intervention_graph ce do_vars) = nodes (graph ce)
  /\ edges (_create_intervention_graph ce do_vars)
     = filter (fun e => negb (mem_str (snd e) do_vars)) (edges (graph ce))
  /\ (forall X, In X do_vars ->
        predecessors (_create_intervention_graph ce do_vars) X = [])
  /\ (forall do_vars', (forall X, In X do_vars <-> In X do_vars') ->
        _create_intervention_graph ce do_vars'
        = _create_intervention_graph ce do_vars).
Proof.
  unfold _create_intervention_graph.
  split; [apply nodes_fold_remove_incoming|].
  split; [apply fold_remove_incoming_edges|]. split.
  - intros X HX. unfold predecessors.
    rewrite fold_remove_incoming_edges, filter_filter.
    assert (Hnil : filter
                     (fun x => negb (mem_str (snd x) do_vars)
                               && String.eqb (snd x) X)
                     (edges (graph ce)) = []).
    { rewrite (filter_ext_in _ (fun _ => false)); [apply filter_false|].
      intros e He. destruct (String.eqb (snd e) X) eqn:E.
      - apply String.eqb_eq in E. apply mem_str_In in HX.
        now rewrite E, HX.
      - apply andb_false_r. }
    now rewrite Hnil.
  - intros do_vars' Hsame.
    destruct (fold_left remove_incoming do_vars' (graph ce)) as [n' e'] eqn:E'.
    destruct (fold_left remove_incoming do_vars (graph ce)) as [n e] eqn:E.
    pose proof (nodes_fold_remove_incoming do_vars' (graph ce)) as N'.
    pose proof (nodes_fold_remove_incoming do_vars (graph ce)) as N.
    pose proof (fold_remove_incoming_edges do_vars' (graph ce)) as F'.
    pose proof (fold_remove_incoming_edges do_vars (graph ce)) as F.
    rewrite E' in N', F'. rewrite E in N, F. simpl in *.
    subst. f_equal. apply filter_ext. intros x. f_equal.
    apply mem_str_ext. intros y. symmetry. apply Hsame.
Qed.

(* ================================================================== *)
(** * The oracle computes the moralization criterion *)
(* ================================================================== *)

Lemma parent_pairs_complete (l : list string) (p q : string) :
  In p l -> In q l -> p <> q ->
  In (p, q) (parent_pairs l) \/ In (q, p) (parent_pairs l).
Proof.
  induction l as [|a l IH]; intros Hp Hq Hne; [contradiction|].
  simpl. destruct Hp as [->|Hp]; destruct Hq as [->|Hq].
  - congruence.
  - left. apply in_or_app. left. now apply in_map.
  - right. apply in_or_app. left. now apply in_map.
  - destruct (IH Hp Hq Hne) as [H|H]; [left|right];
      apply in_or_app; now right.
Qed.

Lemma moral_adj_sym (G : DiGraph) (S Zs : list string) (u v : string) :
  moral_adj G S Zs u v -> moral_adj G S Zs v u.
Proof.
  intros [Hu [Hv [Hzu [Hzv H]]]]. repeat split; try assumption.
  destruct H as [H|[H|[c [Hc [H1 H2]]]]]; [now right; left|now left|].
  right. right. exists c. tauto.
Qed.

Lemma moral_walk_leaves (G : DiGraph) (S Zs : list string) (s t : string)
    (l : list string) :
  walk (moral_adj G S Zs) s l t -> s <> t -> ~ In s Zs /\ ~ In t Zs.
Proof.
  intros Hw Hne. split.
  - destruct Hw as [|s u l t Hsu _]; [congruence|].
    now destruct Hsu as [_ [_ [H _]]].
  - destruct (walk_reverse _ (moral_adj_sym G S Zs) _ _ _ Hw) as [l' [Hw' _]].
    destruct Hw' as [|t u l' s Htu _]; [congruence|].
    now destruct Htu as [_ [_ [H _]]].
Qed.

Section Moral.
Variable G : DiGraph.
Variables s t : string.
Variable Zs : list string.
Hypothesis Hwf : wf_graph G.
Hypothesis Hs : In s (nodes G).
Hypothesis Ht : In t (nodes G).
Hypothesis HZ : forall z, In z Zs -> In z (nodes G).

Lemma interest_has_nodes : forallb (has_node G) (s :: t :: Zs) = true.
Proof.
  apply forallb_forall. intros x [<-|[<-|Hx]]; apply mem_str_In; auto.
Qed.

Lemma collected_ancestral (r : list string) :
  (forall x, In x r <->
     In x (s :: t :: Zs)
     \/ exists n, In n (s :: t :: Zs) /\ In x (anc_list G n)) ->
  forall x, In x r <-> ancestral G (s :: t :: Zs) x.
Proof.
  intros Hr x. rewrite Hr.
  assert (Hnode : forall n, In n (s :: t :: Zs) -> In n (nodes G)).
  { intros n [<-|[<-|Hn]]; auto. }
  split.
  - intros [Hx|[n [Hn Hx]]].
    + exists x, []. split; [assumption|constructor].
    + apply (proj2 (ancestors_correct G n Hwf (Hnode n Hn))) in Hx.
      destruct Hx as [_ [l Hw]]. exists n, l. now split.
  - intros [n [l [Hn Hw]]]. destruct (string_dec x n) as [->|Hne].
    + now left.
    + right. exists n. split; [assumption|].
      apply (proj2 (ancestors_correct G n Hwf (Hnode n Hn))).
      split; [assumption|]. now exists l.
Qed.

Variable r : list string.
Hypothesis Hr : forall x, In x r <-> ancestral G (s :: t :: Zs) x.

Let M : Graph := moralize (subgraph G r).
Let zs : list string := filter (fun z => Graph_has_node M z) Zs.
Let M' : Graph := Graph_remove_nodes_from M zs.

Lemma moral_nodes (x : string) :
  In x (gnodes M) <-> In x (nodes G) /\ In x r.
Proof.
  unfold M, moralize, subgraph. cbn [gnodes nodes].
  rewrite filter_In, mem_str_In. tauto.
Qed.

Lemma removed_nodes (x : string) :
  In x (gnodes M) -> (In x zs <-> In x Zs).
Proof.
  intros Hx. unfold zs. rewrite filter_In. unfold Graph_has_node.
  rewrite mem_str_In. tauto.
Qed.

Lemma reduced_nodes (x : string) :
  In x (gnodes M') <-> In x (nodes G) /\ In x r /\ ~ In x Zs.
Proof.
  unfold M', Graph_remove_nodes_from. cbn [gnodes].
  rewrite filter_In, negb_true_iff, mem_str_not_In. split.
  - intros [Hx Hz]. pose proof (proj1 (moral_nodes x) Hx) as [H1 H2].
    split; [assumption|]. split; [assumption|].
    intros Hin. apply Hz. now apply removed_nodes.
  - intros [H1 [H2 Hz]].
    assert (Hx : In x (gnodes M)) by now apply moral_nodes.
    split; [assumption|]. intros Hin. apply Hz. now apply (removed_nodes x Hx).
Qed.

Lemma moral_wf : wf_Graph M.
Proof. apply moralize_wf, subgraph_wf, Hwf. Qed.

Lemma subgraph_edge (u v : string) :
  In (u, v) (edges (subgraph G r)) <-> In (u, v) (edges G) /\ In u r /\ In v r.
Proof.
  unfold subgraph. cbn [edges]. rewrite filter_In. cbn [fst snd].
  rewrite andb_true_iff, !mem_str_In. tauto.
Qed.

Lemma reduced_edge (u v : string) :
  In (u, v) (gedges M') <->
  In (u, v) (gedges M) /\ ~ In u Zs /\ ~ In v Zs.
Proof.
  unfold M', Graph_remove_nodes_from. cbn [gedges].
  rewrite filter_In. cbn [fst snd].
  rewrite andb_true_iff, !negb_true_iff, !mem_str_not_In. split.
  - intros [He [Hu Hv]]. destruct (moral_wf u v He) as [Hnu Hnv].
    split; [assumption|]. split; intros Hin.
    + apply Hu. now apply removed_nodes.
    + apply Hv. now apply removed_nodes.
  - intros [He [Hu Hv]]. destruct (moral_wf u v He) as [Hnu Hnv].
    split; [assumption|]. split; intros Hin.
    + apply Hu. now apply (removed_nodes u Hnu).
    + apply Hv. now apply (removed_nodes v Hnv).
Qed.

Lemma moral_edge_adj (u v : string) :
  In (u, v) (gedges M') -> moral_adj G (s :: t :: Zs) Zs u v.
Proof.
  intros He. apply reduced_edge in He. destruct He as [He [Hu Hv]].
  destruct (moral_wf u v He) as [Hnu Hnv].
  apply moral_nodes in Hnu, Hnv.
  split; [apply Hr; tauto|]. split; [apply Hr; tauto|].
  split; [assumption|]. split; [assumption|].
  unfold M, moralize in He. cbn [gedges] in He.
  apply in_app_or in He. destruct He as [He|He].
  - left. now apply subgraph_edge in He.
  - right. right. apply in_flat_map in He. destruct He as [c [Hc Hp]].
    apply parent_pairs_In in Hp. destruct Hp as [Hpu Hpv].
    apply predecessors_In, subgraph_edge in Hpu, Hpv.
    exists c. split; [apply Hr; tauto|tauto].
Qed.

Lemma adj_moral_step (u v : string) :
  moral_adj G (s :: t :: Zs) Zs u v -> u <> v ->
  step_of (neighbors M') u v.
Proof.
  intros [Hu [Hv [Hzu [Hzv H]]]] Hne. apply Hr in Hu, Hv.
  unfold step_of. apply neighbors_In.
  assert (Hin : In (u, v) (gedges M) \/ In (v, u) (gedges M)).
  { unfold M, moralize. cbn [gedges].
    destruct H as [H|[H|[c [Hc [H1 H2]]]]].
    - left. apply in_or_app. left. now apply subgraph_edge.
    - right. apply in_or_app. left. now apply subgraph_edge.
    - apply Hr in Hc.
      assert (Hcn : In c (nodes (subgraph G r))).
      { unfold subgraph. cbn [nodes]. apply filter_In.
        split; [now apply (Hwf u c)|now apply mem_str_In]. }
      assert (Hpu : In u (predecessors (subgraph G r) c))
        by (apply predecessors_In, subgraph_edge; tauto).
      assert (Hpv : In v (predecessors (subgraph G r) c))
        by (apply predecessors_In, subgraph_edge; tauto).
      destruct (parent_pairs_complete _ u v Hpu Hpv Hne) as [Hp|Hp];
        [left|right]; apply in_or_app; right; apply in_flat_map;
        exists c; now split. }
  destruct Hin as [Hin|Hin]; [left|right]; apply reduced_edge; tauto.
Qed.

Lemma moral_walks (x y : string) :
  (exists l, walk (step_of (neighbors M')) x l y)
  <-> moral_connected G (s :: t :: Zs) Zs x y.
Proof.
  split; intros [l Hw].
  - exists l. eapply walk_incl; [|exact Hw].
    intros a b Hab. unfold step_of in Hab. apply neighbors_In in Hab.
    destruct Hab as [Hab|Hab]; [|apply moral_adj_sym];
      now apply moral_edge_adj.
  - induction Hw as [x|x u l y Hxu Hw IH]; [exists []; constructor|].
    destruct IH as [l' Hw']. destruct (string_dec x u) as [->|Hne].
    + now exists l'.
    + exists (u :: l'). constructor; [now apply adj_moral_step|assumption].
Qed.

Lemma after_collect :
  s <> t ->
  exists c,
    (if negb (Graph_has_node M' s) || negb (Graph_has_node M' t)
     then Ok true
     else b <- Graph_has_path M' s t ;; Ok (negb b)) = Ok (negb c)
    /\ (c = true <-> moral_connected G (s :: t :: Zs) Zs s t).
Proof.
  intros Hne.
  assert (Hrs : In s r) by (apply Hr; exists s, []; split; [now left|constructor]).
  assert (Hrt : In t r)
    by (apply Hr; exists t, []; split; [right; now left|constructor]).
  destruct (negb (Graph_has_node M' s) || negb (Graph_has_node M' t)) eqn:E.
  - exists false. split; [reflexivity|]. split; [discriminate|].
    intros [l Hw]. destruct (moral_walk_leaves _ _ _ _ _ _ Hw Hne) as [H1 H2].
    apply orb_true_iff in E. unfold Graph_has_node in E.
    rewrite !negb_true_iff, !mem_str_not_In, !reduced_nodes in E.
    exfalso. destruct E as [E|E]; apply E; tauto.
  - apply orb_false_iff in E. unfold Graph_has_node in E.
    rewrite !negb_false_iff, !mem_str_In in E. destruct E as [E1 E2].
    destruct (Graph_has_path_correct M' s t) as [b [Hb Hiff]];
      [apply Graph_remove_nodes_wf, moral_wf|assumption|assumption|].
    exists b. rewrite Hb. split; [reflexivity|].
    rewrite Hiff. apply moral_walks.
Qed.

End Moral.

(** The oracle's answer on two distinct vertices and a conditioning set of
    vertices. *)
Lemma is_d_separated_decides (G : DiGraph) (s t : string)
    (Zs : list string) :
  wf_graph G -> In s (nodes G) -> In t (nodes G) -> s <> t ->
  (forall z, In z Zs -> In z (nodes G)) ->
  exists c,
    is_d_separated G s t Zs = Ok (negb c)
    /\ (c = true <-> moral_connected G (s :: t :: Zs) Zs s t).
Proof.
  intros Hwf Hs Ht Hne HZ. unfold is_d_separated.
  apply String.eqb_neq in Hne. rewrite Hne. apply String.eqb_neq in Hne.
  unfold has_node.
  rewrite (proj2 (mem_str_In s (nodes G)) Hs),
          (proj2 (mem_str_In t (nodes G)) Ht).
  cbn [negb orb].
  destruct (proj2 (collect_ancestors_spec G (s :: t :: Zs) (s :: t :: Zs))
              (interest_has_nodes G s t Zs Hs Ht HZ)) as [r [Hc Hr]].
  rewrite Hc. cbn [bind].
  pose proof (collected_ancestral G s t Zs Hwf Hs Ht HZ r Hr) as Hanc.
  exact (after_collect G s t Zs Hwf Hs Ht r Hanc Hne).
Qed.

(** X12.  On distinct vertices and a conditioning set of vertices,
    [is_d_separated] decides the moralization criterion: it returns [False]
    exactly when the two vertices are joined, in the moral graph of the
    ancestral set of the two vertices and the conditioning set, by a path
    that avoids the conditioning set, and [True] exactly when they are not.
    The graph need not be acyclic. *)
Theorem is_d_separated_moral_criterion (G : DiGraph) (s t : string)
    (Zs : list string) :
  wf_graph G -> In s (nodes G) -> In t (nodes G) -> s <> t ->
  (forall z, In z Zs -> In z (nodes G)) ->
  (is_d_separated G s t Zs = Ok false
   <-> moral_connected G (s :: t :: Zs) Zs s t)
  /\ (is_d_separated G s t Zs = Ok true
      <-> ~ moral_connected G (s :: t :: Zs) Zs s t).
Proof.
  intros Hwf Hs Ht Hne HZ.
  destruct (is_d_separated_decides G s t Zs Hwf Hs Ht Hne HZ)
    as [c [Hc Hiff]].
  rewrite Hc. destruct c; cbn [negb]; split; split.
  - intros _. now apply Hiff.
  - reflexivity.
  - discriminate.
  - intros Hn. exfalso. apply Hn. now apply Hiff.
  - discriminate.
  - intros Hm. apply Hiff in Hm. discriminate.
  - intros _ Hm. apply Hiff in Hm. discriminate.
  - reflexivity.
Qed.

Lemma is_d_separated_moral_criterion_witness :
  let G := mkDiGraph ["X"; "Y"; "W"] [("X", "W"); ("Y", "W")] in
  moral_connected G ["X"; "Y"; "W"] ["W"] "X" "Y"
  /\ ~ moral_connected G ["X"; "Y"] [] "X" "Y".
Proof.
  intros G.
  assert (Hwf : wf_graph G).
  { intros u v [H|[H|[]]]; inversion H; subst; simpl; tauto. }
  split.
  - apply (is_d_separated_moral_criterion G "X" "Y" ["W"]); try assumption.
    + simpl. tauto.
    + simpl. tauto.
    + discriminate.
    + intros z [<-|[]]. simpl. tauto.
    + vm_compute. reflexivity.
  - apply (is_d_separated_moral_criterion G "X" "Y" []); try assumption.
    + simpl. tauto.
    + simpl. tauto.
    + discriminate.
    + intros z [].
    + vm_compute. reflexivity.
Defined.

(* ================================================================== *)
(** * The enumerators emit the candidates that pass their test *)
(* ================================================================== *)

Lemma emit_tracked (cand : CausalProbability)
    (st : list CausalProbability * list string) :
  seen_tracks_outs st -> seen_tracks_outs (emit cand st).
Proof.
  intros [H1 H2]. unfold emit.
  destruct (mem_str (str_CP cand) (snd st)) eqn:E; [now split|].
  apply mem_str_not_In in E. split; cbn [fst snd].
  - rewrite map_app, H1. reflexivity.
  - apply NoDup_app; [assumption|constructor; [intros []|constructor]|].
    intros x Hx [<-|[]]. contradiction.
Qed.

Lemma emit_mono (cand u : CausalProbability)
    (st : list CausalProbability * list string) :
  In u (fst st) -> In u (fst (emit cand st)).
Proof.
  intros H. unfold emit. destruct (mem_str _ _); [assumption|].
  cbn [fst]. apply in_or_app. now left.
Qed.

Lemma emit_has (cand : CausalProbability)
    (st : list CausalProbability * list string) :
  seen_tracks_outs st ->
  exists u, In u (fst (emit cand st)) /\ str_CP u = str_CP cand.
Proof.
  intros [H1 _]. unfold emit.
  destruct (mem_str (str_CP cand) (snd st)) eqn:E.
  - apply mem_str_In in E. rewrite H1 in E. apply in_map_iff in E.
    destruct E as [u [Hu Hin]]. now exists u.
  - exists cand. split; [|reflexivity]. cbn [fst]. apply in_or_app.
    right. now left.
Qed.

(** A loop that emits the candidate of every element that passes. *)
Lemma fold_emit_spec (X : Type) (pass : X -> bool)
    (cand : X -> CausalProbability) (l : list X) :
  forall st, seen_tracks_outs st ->
    seen_tracks_outs
      (fold_left (fun st a => if pass a then emit (cand a) st else st) l st)
    /\ (forall u, In u (fst st) ->
          In u (fst (fold_left
                       (fun st a => if pass a then emit (cand a) st else st)
                       l st)))
    /\ (forall u,
          In u (fst (fold_left
                       (fun st a => if pass a then emit (cand a) st else st)
                       l st)) ->
          In u (fst st)
          \/ exists a, In a l /\ pass a = true /\ u = cand a)
    /\ (forall a, In a l -> pass a = true ->
          exists u,
            In u (fst (fold_left
                         (fun st a => if pass a then emit (cand a) st else st)
                         l st))
            /\ str_CP u = str_CP (cand a)).
Proof.
  induction l as [|a l IH]; intros st Hst; cbn [fold_left].
  - split; [assumption|]. split; [auto|]. split; [auto|]. intros a [].
  - assert (Hst' : seen_tracks_outs
                     (if pass a then emit (cand a) st else st))
      by (destruct (pass a); [now apply emit_tracked|assumption]).
    destruct (IH _ Hst') as [I1 [I2 [I3 I4]]].
    split; [assumption|]. split; [|split].
    + intros u Hu. apply I2. destruct (pass a); [now apply emit_mono|assumption].
    + intros u Hu. apply I3 in Hu. destruct Hu as [Hu|[b [Hb [Hp Hu]]]].
      * destruct (pass a) eqn:Ep; [|now left].
        apply emit_In in Hu. destruct Hu as [Hu|Hu]; [now left|].
        right. exists a. split; [now left|now split].
      * right. exists b. split; [now right|now split].
    + intros b [<-|Hb] Hp.
      * rewrite Hp in *. destruct (emit_has (cand a) st Hst) as [u [Hu Hs]].
        exists u. split; [now apply I2|assumption].
      * now apply I4.
Qed.

Lemma passes_select (r : result bool) (c : CausalProbability)
    (st : list CausalProbability * list string) :
  match r with
  | Ok true => emit c st
  | Ok false => st
  | Raise _ => st
  end = if passes r then emit c st else st.
Proof. destruct r as [[|]|e]; reflexivity. Qed.

Lemma passes_true (r : result bool) : passes r = true <-> r = Ok true.
Proof. destruct r as [[|]|e]; simpl; split; congruence. Qed.

Lemma seen_tracks_outs_nil : seen_tracks_outs ([], []).
Proof. split; [reflexivity|constructor]. Qed.

Lemma tracked_NoDup (st : list CausalProbability * list string) :
  seen_tracks_outs st -> NoDup (map str_CP (fst st)).
Proof. intros [H1 H2]. now rewrite <- H1. Qed.

(** The graphs the enumerators build by removing edges. *)
Lemma mutilated_bars (G : DiGraph) (bars : list string) :
  fold_left remove_incoming bars G = mutilated G bars [].
Proof.
  pose proof (nodes_fold_remove_incoming bars G) as Hn.
  pose proof (fold_remove_incoming_edges bars G) as He.
  destruct (fold_left remove_incoming bars G) as [n e]. simpl in *.
  unfold mutilated. subst. f_equal. apply filter_ext. intros x.
  now rewrite andb_true_r.
Qed.

Lemma mutilated_under (G : DiGraph) (bars : list string) (Z : string) :
  remove_outgoing (mutilated G bars []) Z = mutilated G bars [Z].
Proof.
  unfold remove_outgoing, remove_edges_from, mutilated. cbn [nodes edges].
  f_equal. rewrite filter_filter.
  rewrite (filter_ext_in
             (fun x =>
                (negb (mem_str (snd x) bars) && negb (mem_str (fst x) []))
                && negb (mem_edge x
                           (filter (fun e => String.eqb (fst e) Z)
                              (filter
                                 (fun e => negb (mem_str (snd e) bars)
                                           && negb (mem_str (fst e) []))
                                 (edges G)))))
             (fun e => negb (mem_str (snd e) bars)
                       && negb (mem_str (fst e) [Z]))); [reflexivity|].
  intros e He. cbn [mem_str existsb]. rewrite orb_false_r, andb_true_r.
  destruct (negb (mem_str (snd e) bars)) eqn:Eb; [|reflexivity].
  cbn [andb]. f_equal.
  destruct (String.eqb (fst e) Z) eqn:Ez.
  - apply mem_edge_In, filter_In. split; [|assumption].
    apply filter_In. split; [assumption|]. now rewrite Eb.
  - destruct (mem_edge e _) eqn:M; [|reflexivity].
    apply mem_edge_In, filter_In in M. destruct M. congruence.
Qed.

Lemma mutilated_more_bars (G : DiGraph) (bars : list string) (Z : string) :
  remove_incoming (mutilated G bars []) Z = mutilated G (bars ++ [Z]) [].
Proof.
  rewrite <- !mutilated_bars. now rewrite fold_left_app.
Qed.

Lemma apply_rule_1_all_fold (ce : CausalExpr) :
  apply_rule_1_all ce
  = fst (fold_left
           (fun st W =>
              if passes (rule_1_test ce W)
              then emit (rule_1_candidate (_outcome (expression ce))
                           (_conditions (expression ce)) W) st
              else st)
           (obs_vars_of (_conditions (expression ce))) ([], [])).
Proof.
  unfold apply_rule_1_all. f_equal. apply fold_left_ext_in.
  intros st W _. rewrite passes_select.
  unfold rule_1_test, _custom_d_separation, _create_intervention_graph.
  now rewrite mutilated_bars.
Qed.

Lemma apply_rule_2_all_fold (ce : CausalExpr) :
  apply_rule_2_all ce
  = fst (fold_left
           (fun st e =>
              if passes (rule_2_test ce (fst e) (snd e))
              then emit (rule_2_candidate (_outcome (expression ce))
                           (_conditions (expression ce)) (fst e) (snd e)) st
              else st)
           (do_entries (_conditions (expression ce))) ([], [])).
Proof.
  unfold apply_rule_2_all. f_equal. apply fold_left_ext_in.
  intros st [idx Z] _. rewrite passes_select.
  unfold rule_2_test, _custom_d_separation. cbn [fst snd].
  now rewrite mutilated_bars, mutilated_under.
Qed.

Lemma rule_3_loop_step (ce : CausalExpr) (idx : nat) (Z : string)
    (todo : list (nat * string))
    (st : list CausalProbability * list string) :
  rule_3_loop ce (do_entries (_conditions (expression ce)))
    ((idx, Z) :: todo) st
  = match rule_3_test ce idx Z with
    | Ok b =>
        rule_3_loop ce (do_entries (_conditions (expression ce))) todo
          (if b
           then emit (rule_3_candidate (_outcome (expression ce))
                        (_conditions (expression ce)) idx) st
           else st)
    | Raise e => Raise e
    end.
Proof.
  cbn [rule_3_loop]. unfold rule_3_test. rewrite mutilated_bars.
  destruct (is_ancestor_of_obs _ Z _) as [is_anc|e]; cbn [bind];
    [|reflexivity].
  rewrite passes_select, mutilated_more_bars. unfold _custom_d_separation.
  now destruct is_anc.
Qed.

Lemma rule_3_loop_ok (ce : CausalExpr) :
  forall todo st st',
    rule_3_loop ce (do_entries (_conditions (expression ce))) todo st = Ok st' ->
    (forall e, In e todo -> exists b, rule_3_test ce (fst e) (snd e) = Ok b)
    /\ st' = fold_left
               (fun st e =>
                  if passes (rule_3_test ce (fst e) (snd e))
                  then emit (rule_3_candidate (_outcome (expression ce))
                               (_conditions (expression ce)) (fst e)) st
                  else st)
               todo st.
Proof.
  induction todo as [|[idx Z] todo IH]; intros st st'.
  - simpl. intros H. inversion H. split; [intros e []|reflexivity].
  - rewrite rule_3_loop_step. cbn [fold_left fst snd].
    destruct (rule_3_test ce idx Z) as [b|e] eqn:Et; [|discriminate].
    intros H. apply IH in H. destruct H as [H1 H2]. split.
    + intros e [<-|He]; [exists b; exact Et|now apply H1].
    + rewrite H2. now destruct b.
Qed.

Lemma rule_3_loop_total (ce : CausalExpr) :
  forall todo st,
    (forall e, In e todo -> exists b, rule_3_test ce (fst e) (snd e) = Ok b) ->
    exists st',
      rule_3_loop ce (do_entries (_conditions (expression ce))) todo st
      = Ok st'.
Proof.
  induction todo as [|[idx Z] todo IH]; intros st Hall.
  - now exists st.
  - rewrite rule_3_loop_step.
    destruct (Hall (idx, Z) (or_introl eq_refl)) as [b Hb].
    cbn [fst snd] in Hb. rewrite Hb. apply IH.
    intros e He. apply Hall. now right.
Qed.

(** X13.  Rule 1 emits the candidates that pass its side condition: every
    successor drops the conditions on an observed variable [W] for which the
    outcome and [W] are separated, given the intervened and the other
    observed variables, in the graph without the edges into the intervened
    variables; every [W] that passes has a successor with the rendering of
    its candidate; and no two successors share a rendering. *)
Theorem rule_1_emits_what_passes (ce : CausalExpr) :
  (forall u, In u (apply_rule_1_all ce) ->
     exists W, In W (obs_vars_of (_conditions (expression ce)))
               /\ rule_1_test ce W = Ok true
               /\ u = rule_1_candidate (_outcome (expression ce))
                                       (_conditions (expression ce)) W)
  /\ (forall W, In W (obs_vars_of (_conditions (expression ce))) ->
        rule_1_test ce W = Ok true ->
        exists u, In u (apply_rule_1_all ce)
                  /\ str_CP u
                     = str_CP (rule_1_candidate (_outcome (expression ce))
                                 (_conditions (expression ce)) W))
  /\ NoDup (map str_CP (apply_rule_1_all ce)).
Proof.
  rewrite apply_rule_1_all_fold.
  destruct (fold_emit_spec string (fun W => passes (rule_1_test ce W))
              (rule_1_candidate (_outcome (expression ce))
                 (_conditions (expression ce)))
              (obs_vars_of (_conditions (expression ce))) ([], [])
              seen_tracks_outs_nil) as [H1 [_ [H3 H4]]].
  split; [|split].
  - intros u Hu. apply H3 in Hu. destruct Hu as [[]|[W [HW [Hp Hu]]]].
    exists W. split; [assumption|]. split; [now apply passes_true|assumption].
  - intros W HW Hp. apply H4; [assumption|now apply passes_true].
  - now apply tracked_NoDup.
Qed.

(** X14.  Rule 2 emits the candidates that pass its side condition: every
    successor replaces an intervention on [Z] by the bare observation [Z],
    where the outcome and [Z] are separated, given the other intervened and
    the observed variables, in the graph without the edges into the other
    intervened variables and without the edges out of [Z]; every
    intervention that passes has a successor with the rendering of its
    candidate; and no two successors share a rendering. *)
Theorem rule_2_emits_what_passes (ce : CausalExpr) :
  (forall u, In u (apply_rule_2_all ce) ->
     exists idx Z, In (idx, Z) (do_entries (_conditions (expression ce)))
                   /\ rule_2_test ce idx Z = Ok true
                   /\ u = rule_2_candidate (_outcome (expression ce))
                                           (_conditions (expression ce)) idx Z)
  /\ (forall idx Z, In (idx, Z) (do_entries (_conditions (expression ce))) ->
        rule_2_test ce idx Z = Ok true ->
        exists u, In u (apply_rule_2_all ce)
                  /\ str_CP u
                     = str_CP (rule_2_candidate (_outcome (expression ce))
                                 (_conditions (expression ce)) idx Z))
  /\ NoDup (map str_CP (apply_rule_2_all ce)).
Proof.
  rewrite apply_rule_2_all_fold.
  destruct (fold_emit_spec (nat * string)
              (fun e => passes (rule_2_test ce (fst e) (snd e)))
              (fun e => rule_2_candidate (_outcome (expression ce))
                          (_conditions (expression ce)) (fst e) (snd e))
              (do_entries (_conditions (expression ce))) ([], [])
              seen_tracks_outs_nil) as [H1 [_ [H3 H4]]].
  split; [|split].
  - intros u Hu. apply H3 in Hu. destruct Hu as [[]|[[idx Z] [He [Hp Hu]]]].
    exists idx, Z. split; [assumption|].
    split; [now apply passes_true|assumption].
  - intros idx Z He Hp. apply (H4 (idx, Z)); [assumption|].
    now apply passes_true.
  - now apply tracked_NoDup.
Qed.

(** X15.  Rule 3 returns a list exactly when the reachability test raises
    for no intervention; it then emits the candidates that pass its side
    condition: every successor removes an intervention on [Z] for which the
    outcome and [Z] are separated, given the kept intervened and the
    observed variables, in the graph without the edges into the kept
    intervened variables and, unless [Z] reaches an observed variable there,
    without the edges into [Z]; every intervention that passes has a
    successor with the rendering of its candidate; and no two successors
    share a rendering. *)
Theorem rule_3_emits_what_passes (ce : CausalExpr) :
  ((exists outs, apply_rule_3_all ce = Ok outs) <->
   (forall idx Z, In (idx, Z) (do_entries (_conditions (expression ce))) ->
      exists b, rule_3_test ce idx Z = Ok b))
  /\ forall outs, apply_rule_3_all ce = Ok outs ->
       (forall u, In u outs ->
          exists idx Z,
            In (idx, Z) (do_entries (_conditions (expression ce)))
            /\ rule_3_test ce idx Z = Ok true
            /\ u = rule_3_candidate (_outcome (expression ce))
                                    (_conditions (expression ce)) idx)
       /\ (forall idx Z,
             In (idx, Z) (do_entries (_conditions (expression ce))) ->
             rule_3_test ce idx Z = Ok true ->
             exists u, In u outs
                       /\ str_CP u
                          = str_CP (rule_3_candidate
                                      (_outcome (expression ce))
                                      (_conditions (expression ce)) idx))
       /\ NoDup (map str_CP outs).
Proof.
  unfold apply_rule_3_all. split.
  - split.
    + intros [outs H] idx Z He.
      destruct (rule_3_loop ce _ _ _) as [st'|e] eqn:El; [|discriminate].
      apply rule_3_loop_ok in El. destruct El as [Hall _].
      exact (Hall (idx, Z) He).
    + intros Hall.
      destruct (rule_3_loop_total ce
                  (do_entries (_conditions (expression ce))) ([], []))
        as [st' Hst'].
      * intros [idx Z] He. now apply Hall.
      * rewrite Hst'. now exists (fst st').
  - intros outs H.
    destruct (rule_3_loop ce _ _ _) as [st'|e] eqn:El; [|discriminate].
    cbn [bind] in H. inversion H; subst outs. clear H.
    apply rule_3_loop_ok in El. destruct El as [_ ->].
    destruct (fold_emit_spec (nat * string)
                (fun e => passes (rule_3_test ce (fst e) (snd e)))
                (fun e => rule_3_candidate (_outcome (expression ce))
                            (_conditions (expression ce)) (fst e))
                (do_entries (_conditions (expression ce))) ([], [])
                seen_tracks_outs_nil) as [H1 [_ [H3 H4]]].
    split; [|split].
    + intros u Hu. apply H3 in Hu. destruct Hu as [[]|[[idx Z] [He [Hp Hu]]]].
      exists idx, Z. split; [assumption|].
      split; [now apply passes_true|assumption].
    + intros idx Z He Hp. apply (H4 (idx, Z)); [assumption|].
      now apply passes_true.
    + now apply tracked_NoDup.
Qed.

(* ================================================================== *)
(** * Conditioning on a variable the graph does not have *)
(* ================================================================== *)

Lemma is_d_separated_unknown (G : DiGraph) (s t : string)
    (Zs : list string) (z : string) :
  s <> t -> In s (nodes G) -> In t (nodes G) ->
  In z Zs -> ~ In z (nodes G) ->
  is_d_separated G s t Zs = Raise NetworkXError.
Proof.
  intros Hne Hs Ht Hz Hnz. unfold is_d_separated.
  apply String.eqb_neq in Hne. rewrite Hne. unfold has_node.
  rewrite (proj2 (mem_str_In s (nodes G)) Hs),
          (proj2 (mem_str_In t (nodes G)) Ht).
  cbn [negb orb].
  rewrite (proj1 (collect_ancestors_spec G (s :: t :: Zs) (s :: t :: Zs))).
  - reflexivity.
  - apply not_true_is_false. intros Hall.
    rewrite forallb_forall in Hall.
    specialize (Hall z (or_intror (or_intror Hz))).
    apply mem_str_In in Hall. contradiction.
Qed.

(** X16.  Conditioning on a name that is not a vertex is an error, not a
    separation: for two distinct vertices, [is_d_separated] raises
    [NetworkXError] as soon as the conditioning set holds a name the graph
    does not have, and the method [_is_d_separated] then answers [False]. *)
Theorem unknown_conditioning_variable (ce : CausalExpr) (s t : string)
    (Zs : list string) (z : string) :
  s <> t -> In s (nodes (graph ce)) -> In t (nodes (graph ce)) ->
  In z Zs -> ~ In z (nodes (graph ce)) ->
  is_d_separated (graph ce) s t Zs = Raise NetworkXError
  /\ _is_d_separated ce s t Zs = false.
Proof.
  intros Hne Hs Ht Hz Hnz.
  pose proof (is_d_separated_unknown _ s t Zs z Hne Hs Ht Hz Hnz) as H.
  split; [exact H|]. unfold _is_d_separated, _custom_d_separation.
  now rewrite H.
Qed.

Lemma unknown_conditioning_variable_witness :
  let ce := CausalExpr_init (CausalProbability_new (OSym "Y") [])
              [("X", ["Y"])] in
  is_d_separated (graph ce) "X" "Y" ["U"] = Raise NetworkXError
  /\ _is_d_separated ce "X" "Y" ["U"] = false.
Proof.
  intros ce. apply (unknown_conditioning_variable ce "X" "Y" ["U"] "U").
  - discriminate.
  - vm_compute. tauto.
  - vm_compute. tauto.
  - now left.
  - vm_compute. intros [H|[H|[]]]; discriminate.
Defined.

(** X17.  A condition on a name the graph does not have blocks Rule 1 for
    the variables of the graph: when the outcome is a vertex and some
    intervened or observed variable of the term is not, every successor
    Rule 1 emits drops an observed variable that is not a vertex either. *)
Theorem rule_1_blocked_by_unknown (ce : CausalExpr) (U : string) :
  In (str_outcome (_outcome (expression ce))) (nodes (graph ce)) ->
  In U (do_vars_of (_conditions (expression ce))
        ++ obs_vars_of (_conditions (expression ce))) ->
  ~ In U (nodes (graph ce)) ->
  forall u, In u (apply_rule_1_all ce) ->
    exists W, In W (obs_vars_of (_conditions (expression ce)))
              /\ ~ In W (nodes (graph ce))
              /\ u = rule_1_candidate (_outcome (expression ce))
                                      (_conditions (expression ce)) W.
Proof.
  intros HY HU HnU u Hu. rewrite apply_rule_1_all_fold in Hu.
  destruct (fold_emit_spec string (fun W => passes (rule_1_test ce W))
              (rule_1_candidate (_outcome (expression ce))
                 (_conditions (expression ce)))
              (obs_vars_of (_conditions (expression ce))) ([], [])
              seen_tracks_outs_nil) as [_ [_ [H3 _]]].
  apply H3 in Hu. destruct Hu as [[]|[W [HW [Hp ->]]]].
  exists W. split; [assumption|]. split; [|reflexivity].
  intros HWn. apply passes_true in Hp. unfold rule_1_test in Hp.
  destruct (string_dec (str_outcome (_outcome (expression ce))) W) as [He|Hne].
  - unfold is_d_separated in Hp. apply String.eqb_eq in He.
    rewrite He in Hp. discriminate.
  - rewrite (is_d_separated_unknown _ _ _ _ U Hne) in Hp;
      [discriminate|assumption|assumption| |assumption].
    apply in_app_or in HU. apply in_or_app.
    destruct HU as [HU|HU]; [now left|right].
    apply filter_In. split; [assumption|].
    apply negb_true_iff, String.eqb_neq. intros ->. contradiction.
Qed.

Lemma rule_1_blocked_by_unknown_witness :
  let ce := CausalExpr_init
              (CausalProbability_new (OSym "Y") [Sym "W"; Sym "U"])
              [("W", []); ("Y", [])] in
  apply_rule_1_all ce = [CausalProbability_new (OSym "Y") [Sym "W"]]
  /\ exists W, In W (obs_vars_of (_conditions (expression ce)))
               /\ ~ In W (nodes (graph ce))
               /\ CausalProbability_new (OSym "Y") [Sym "W"]
                  = rule_1_candidate (_outcome (expression ce))
                                     (_conditions (expression ce)) W.
Proof.
  intros ce. split; [vm_compute; reflexivity|].
  apply (rule_1_blocked_by_unknown ce "U").
  - vm_compute. tauto.
  - vm_compute. tauto.
  - vm_compute. intros [H|[H|[]]]; discriminate.
  - vm_compute. now left.
Defined.

(* ================================================================== *)
(** * Exploring the terms reachable from a start *)
(* ================================================================== *)

Lemma dict_set_fresh (k : string) (v : CausalProbability * string)
    (d : reached_map) :
  ~ In k (map fst d) -> dict_set k v d = d ++ [(k, v)].
Proof.
  induction d as [|[k' v'] d IH]; intros Hk; simpl; [reflexivity|].
  destruct (String.eqb k' k) eqn:E.
  - apply String.eqb_eq in E. subst. elim Hk. now left.
  - rewrite IH; [reflexivity|]. intros H. apply Hk. now right.
Qed.

(** The scan appends the successors whose key is new, in order. *)
Lemma explore_scan_spec (depth : nat) (succs : list step) :
  forall queue visited all_reached,
    map fst all_reached = visited ->
    exists added : list step,
      explore_scan depth succs queue visited all_reached
      = (queue ++ map (fun s => (snd s, S depth)) added,
         visited ++ map (fun s => _state_key (snd s)) added,
         all_reached
         ++ map (fun s => (_state_key (snd s), (snd s, fst s))) added)
      /\ (forall s, In s added ->
            In s succs /\ ~ In (_state_key (snd s)) visited)
      /\ NoDup (map (fun s => _state_key (snd s)) added)
      /\ (forall s, In s succs ->
            In (_state_key (snd s))
               (visited ++ map (fun s => _state_key (snd s)) added)).
Proof.
  induction succs as [|[lbl nxt] succs IH]; intros queue visited all Hkeys;
    cbn [explore_scan].
  - exists []. simpl. rewrite !app_nil_r. split; [reflexivity|].
    split; [intros s []|]. split; [constructor|intros s []].
  - destruct (mem_str (_state_key nxt) visited) eqn:Ev.
    + destruct (IH queue visited all Hkeys) as [added [Heq [Ha [Hnd Hs]]]].
      exists added. split; [exact Heq|]. split.
      { intros s Hin. destruct (Ha s Hin). split; [now right|assumption]. }
      split; [assumption|].
      intros s [<-|Hin]; [|now apply Hs].
      apply in_or_app. left. now apply mem_str_In.
    + apply mem_str_not_In in Ev.
      rewrite dict_set_fresh by now rewrite Hkeys.
      destruct (IH (queue ++ [(nxt, S depth)])
                  (visited ++ [_state_key nxt])
                  (all ++ [(_state_key nxt, (nxt, lbl))]))
        as [added [Heq [Ha [Hnd Hs]]]].
      { rewrite map_app, Hkeys. reflexivity. }
      exists ((lbl, nxt) :: added). split.
      { rewrite Heq. cbn [map fst snd]. now rewrite <- !app_assoc. }
      split.
      { intros s [<-|Hin]; [split; [now left|exact Ev]|].
        destruct (Ha s Hin) as [H1 H2]. split; [now right|].
        intros H. apply H2. apply in_or_app. now left. }
      split.
      { cbn [map snd]. constructor; [|assumption].
        intros Hin. apply in_map_iff in Hin. destruct Hin as [s [Hk Hin]].
        destruct (Ha s Hin) as [_ H2]. apply H2. rewrite Hk.
        apply in_or_app. right. now left. }
      intros s Hin. cbn [map snd].
      assert (Hgoal : In (_state_key (snd s))
                         ((visited ++ [_state_key nxt])
                          ++ map (fun s => _state_key (snd s)) added)).
      { destruct Hin as [<-|Hin]; [|now apply Hs].
        apply in_or_app. left. apply in_or_app. right. now left. }
      now rewrite <- app_assoc in Hgoal.
Qed.

Section Explore.
Variable self : CausalProofFinder.
Variable A : CausalProbability.
Variable D : nat.

Lemma explore_inv_initial :
  explore_inv self A D [(A, 0)] [_state_key A]
    [(_state_key A, (A, "Initial"))].
Proof.
  constructor.
  - reflexivity.
  - repeat constructor. intros [].
  - now exists [].
  - intros e [<-|[]]. split; [reflexivity|]. left. now split.
  - intros e [<-|[]]. split; [|now left].
    exists []. split; [exact I|]. split; reflexivity.
Qed.

Lemma explore_inv_skip (e : CausalProbability * nat)
    (queue : list (CausalProbability * nat)) (visited : list string)
    (all_reached : reached_map) :
  explore_inv self A D (e :: queue) visited all_reached ->
  explore_inv self A D queue visited all_reached.
Proof.
  intros Inv. constructor.
  - exact (ei_keys Inv).
  - exact (ei_nodup Inv).
  - exact (ei_start Inv).
  - exact (ei_entries Inv).
  - intros e' He'. apply (ei_queue Inv). now right.
Qed.

Lemma explore_inv_step (cur : CausalProbability) (d : nat)
    (queue : list (CausalProbability * nat)) (visited : list string)
    (all_reached : reached_map) (added : list step) :
  explore_inv self A D ((cur, d) :: queue) visited all_reached ->
  (d < D)%nat ->
  (forall s, In s added ->
     In s (_do_calculus_successors self cur)
     /\ ~ In (_state_key (snd s)) visited) ->
  NoDup (map (fun s => _state_key (snd s)) added) ->
  explore_inv self A D
    (queue ++ map (fun s => (snd s, S d)) added)
    (visited ++ map (fun s => _state_key (snd s)) added)
    (all_reached ++ map (fun s => (_state_key (snd s), (snd s, fst s))) added).
Proof.
  intros Inv Hd Ha Hnd.
  destruct (ei_queue Inv (cur, d) (or_introl eq_refl))
    as [[q [Hq [Hend Hlen]]] _].
  cbn [fst snd] in Hend, Hlen.
  assert (Hext : forall s, In s added ->
            valid_proof self A (q ++ [s]) /\ proof_end A (q ++ [s]) = snd s).
  { intros s Hs. destruct (Ha s Hs) as [Hin _]. split.
    - apply valid_proof_app. split; [assumption|]. rewrite Hend.
      simpl. split; [now apply successors_are_produced|exact I].
    - apply proof_end_snoc. }
  constructor.
  - rewrite map_app, (ei_keys Inv), map_map. reflexivity.
  - apply NoDup_app; [exact (ei_nodup Inv)|assumption|].
    intros k Hk Hin. apply in_map_iff in Hin. destruct Hin as [s [<- Hs]].
    now destruct (Ha s Hs).
  - destruct (ei_start Inv) as [rest ->]. eexists. reflexivity.
  - intros e He. apply in_app_or in He. destruct He as [He|He];
      [now apply (ei_entries Inv)|].
    apply in_map_iff in He. destruct He as [[lbl nxt] [<- Hs]].
    split; [reflexivity|]. right. exists q. cbn [fst snd].
    split; [now apply (Hext (lbl, nxt))|]. rewrite <- Hlen in Hd. exact Hd.
  - intros e He. apply in_app_or in He. destruct He as [He|He].
    + destruct (ei_queue Inv e (or_intror He)) as [H1 H2].
      split; [assumption|]. apply in_or_app. now left.
    + apply in_map_iff in He. destruct He as [s [<- Hs]]. cbn [fst snd].
      split.
      * exists (q ++ [s]). destruct (Hext s Hs) as [H1 H2].
        split; [assumption|]. split; [assumption|].
        rewrite length_app, Hlen. simpl. lia.
      * apply in_or_app. right.
        apply (in_map (fun s => _state_key (snd s))). exact Hs.
Qed.

(** What the loop returns keeps the invariant of its dict. *)
Lemma explore_loop_sound (fuel : nat) :
  forall queue visited all_reached final,
    explore_inv self A D queue visited all_reached ->
    explore_loop self D fuel queue visited all_reached = Some final ->
    (exists rest, final = (_state_key A, (A, "Initial")) :: rest)
    /\ NoDup (map fst final)
    /\ (forall e, In e final -> reached_entry self A D e)
    /\ incl visited (map fst final).
Proof.
  induction fuel as [|fuel IH]; intros queue visited all final Inv;
    cbn [explore_loop]; [discriminate|].
  destruct queue as [|[cur d] queue'].
  - intros H. inversion H; subst final.
    split; [exact (ei_start Inv)|]. rewrite (ei_keys Inv).
    split; [exact (ei_nodup Inv)|]. split; [exact (ei_entries Inv)|].
    apply incl_refl.
  - destruct (Nat.leb D d) eqn:Ed.
    + apply IH. eapply explore_inv_skip. exact Inv.
    + apply Nat.leb_gt in Ed.
      destruct (explore_scan_spec d (_do_calculus_successors self cur)
                  queue' visited all (ei_keys Inv))
        as [added [Heq [Ha [Hnd _]]]].
      rewrite Heq. intros H.
      destruct (IH _ _ _ _ (explore_inv_step cur d queue' visited all added
                              Inv Ed Ha Hnd) H) as [H1 [H2 [H3 H4]]].
      split; [assumption|]. split; [assumption|]. split; [assumption|].
      intros k Hk. apply H4. apply in_or_app. now left.
Qed.

End Explore.

Lemma explore_weight_app (b D : nat) (q1 q2 : list (CausalProbability * nat)) :
  explore_weight b D (q1 ++ q2)
  = (explore_weight b D q1 + explore_weight b D q2)%nat.
Proof. unfold explore_weight. now rewrite map_app, list_sum_app. Qed.

Lemma explore_weight_added (b D d : nat) (added : list step) :
  explore_weight b D (map (fun s => (snd s, S d)) added)
  = (List.length added * iterations b (D - S d))%nat.
Proof.
  unfold explore_weight. induction added as [|s added IH]; [reflexivity|].
  cbn [map list_sum fold_right snd List.length]. cbn [list_sum] in IH.
  unfold list_sum in IH. rewrite IH. simpl. lia.
Qed.

Section ExploreTermination.
Variable self : CausalProofFinder.
Variable D : nat.

Lemma explore_loop_terminates (n b : nat) (fuel : nat) :
  (2 * n <= b)%nat ->
  forall queue visited all_reached,
    map fst all_reached = visited ->
    (forall e, In e queue -> (List.length (_conditions (fst e)) <= n)%nat) ->
    (explore_weight b D queue < fuel)%nat ->
    explore_loop self D fuel queue visited all_reached <> None.
Proof.
  intros Hb.
  induction fuel as [|fuel IH]; intros queue visited all Hkeys Hn Hw; [lia|].
  cbn [explore_loop].
  destruct queue as [|[cur d] queue']; [discriminate|].
  assert (Hrest : forall e, In e queue' ->
            (List.length (_conditions (fst e)) <= n)%nat)
    by (intros e He; apply Hn; now right).
  change ((cur, d) :: queue') with ([(cur, d)] ++ queue') in Hw.
  rewrite explore_weight_app in Hw.
  assert (Hone : explore_weight b D [(cur, d)] = iterations b (D - d)).
  { unfold explore_weight, list_sum. cbn [map fold_right snd]. lia. }
  rewrite Hone in Hw. clear Hone.
  destruct (Nat.leb D d) eqn:Ed.
  { apply IH; [assumption|assumption|].
    pose proof (iterations_pos b (D - d)). lia. }
  apply Nat.leb_gt in Ed.
  destruct (explore_scan_spec d (_do_calculus_successors self cur)
              queue' visited all Hkeys) as [added [Heq [Ha [Hnd _]]]].
  rewrite Heq.
  assert (Hcur : (List.length (_conditions cur) <= n)%nat)
    by (apply (Hn (cur, d)); now left).
  assert (Hl : (List.length added <= b)%nat).
  { pose proof (successors_length self cur) as Hs.
    assert (Hle : (List.length (map (fun s : step => _state_key (snd s)) added)
                   <= List.length
                        (map (fun s : step => _state_key (snd s))
                           (_do_calculus_successors self cur)))%nat).
    { apply NoDup_incl_length; [assumption|].
      intros k Hk. apply in_map_iff in Hk. destruct Hk as [s [<- Hs']].
      apply (in_map (fun s : step => _state_key (snd s))).
      now destruct (Ha s Hs'). }
    rewrite !length_map in Hle. lia. }
  apply IH.
  - rewrite map_app, Hkeys, map_map. reflexivity.
  - intros e He. apply in_app_or in He. destruct He as [He|He];
      [now apply Hrest|].
    apply in_map_iff in He. destruct He as [s [<- Hs]]. cbn [fst].
    destruct (Ha s Hs) as [Hin _].
    apply successors_are_produced, produced_conditions_length in Hin. lia.
  - rewrite explore_weight_app, explore_weight_added.
    replace (D - d)%nat with (S (D - S d))%nat in Hw by lia.
    cbn [iterations] in Hw.
    assert (Hmul : (List.length added * iterations b (D - S d)
                    <= b * iterations b (D - S d))%nat)
      by (apply Nat.mul_le_mono_r; lia).
    lia.
Qed.

End ExploreTermination.

(** X18.  [explore_all_equivalent_expressions] refuses a start that is not
    a term with a [TypeError]; on a term it always returns, and what it
    returns is sound: the first entry is the start under its own key with
    the label "Initial", no key occurs twice, every key is the state key of
    its term, and every other term is the end of a valid proof from the
    start of at most [max_depth] steps whose last step carries the entry's
    label. *)
Theorem explore_is_sound (self : CausalProofFinder) (A : CausalProbability)
    (depth_arg : option nat) :
  let D := match depth_arg with None => max_depth self | Some d => d end in
  (forall fuel e, (forall t, e <> Term t) ->
     explore_all_equivalent_expressions self fuel e depth_arg
     = Raise (TypeError msg_start))
  /\ (forall fuel, (explore_fuel A D <= fuel)%nat ->
        exists final,
          explore_all_equivalent_expressions self fuel (Term A) depth_arg
          = Ok (Some final))
  /\ (forall fuel final,
        explore_all_equivalent_expressions self fuel (Term A) depth_arg
        = Ok (Some final) ->
        (exists rest, final = (_state_key A, (A, "Initial")) :: rest)
        /\ NoDup (map fst final)
        /\ (forall e, In e final -> reached_entry self A D e)).
Proof.
  intros D. split; [|split].
  - intros fuel e He. destruct e as [t| |]; [now elim (He t)| |]; reflexivity.
  - intros fuel Hfuel. unfold explore_all_equivalent_expressions. fold D.
    destruct (explore_loop self D fuel [(A, 0)] [_state_key A]
                [(_state_key A, (A, "Initial"))]) as [final|] eqn:E;
      [now exists final|].
    exfalso. revert E.
    apply (explore_loop_terminates self D (List.length (_conditions A))
             (2 * List.length (_conditions A))); [lia|reflexivity| |].
    + intros e [<-|[]]. simpl. lia.
    + unfold explore_fuel in Hfuel.
      assert (Hone : explore_weight (2 * List.length (_conditions A)) D
                       [(A, 0)]
                     = iterations (2 * List.length (_conditions A)) D).
      { unfold explore_weight, list_sum. cbn [map fold_right snd].
        rewrite Nat.sub_0_r. lia. }
      rewrite Hone. lia.
  - intros fuel final H. unfold explore_all_equivalent_expressions in H.
    fold D in H. inversion H as [H'].
    destruct (explore_loop_sound self A D fuel _ _ _ final
                (explore_inv_initial self A D) H') as [H1 [H2 [H3 _]]].
    split; [assumption|]. split; assumption.
Qed.

Section ExploreComplete.
Variable self : CausalProofFinder.
Variable A : CausalProbability.
Variable D : nat.
Hypothesis Hnd : NoDup (do_conditions A).
Hypothesis Hkey : key_identifies_terms self A.

Lemma explore_follow (queue : list (CausalProbability * nat))
    (visited : list string) (Dm : nat) :
  (forall w, reachable self A w -> In (_state_key w) visited ->
     (exists d, In (w, d) queue)
     \/ (forall s, rule_produces self w s ->
           In (_state_key (snd s)) visited)) ->
  (forall e, In e queue -> (snd e <= Dm)%nat) ->
  forall q2 q1,
    valid_proof self A (q1 ++ q2) ->
    In (_state_key (proof_end A q1)) visited ->
    (Dm <= List.length q1)%nat ->
    In (_state_key (proof_end A (q1 ++ q2))) visited
    \/ exists q1' q2' d,
         q1 ++ q2 = q1' ++ q2' /\ q2' <> []
         /\ In (proof_end A q1', d) queue
         /\ (d <= List.length q1')%nat.
Proof.
  intros Hclosed Hdepth.
  induction q2 as [|s q2 IH]; intros q1 Hvalid Hvis Hlen.
  - left. now rewrite app_nil_r.
  - assert (Hreach : reachable self A (proof_end A q1)).
    { exists q1. apply valid_proof_app in Hvalid. tauto. }
    destruct (Hclosed _ Hreach Hvis) as [[d Hd]|Hall].
    + right. exists q1, (s :: q2), d. split; [reflexivity|].
      split; [discriminate|]. split; [assumption|].
      specialize (Hdepth _ Hd). simpl in Hdepth. lia.
    + assert (Hs : rule_produces self (proof_end A q1) s).
      { apply valid_proof_app in Hvalid. simpl in Hvalid. tauto. }
      replace (q1 ++ s :: q2) with ((q1 ++ [s]) ++ q2)
        by (rewrite <- app_assoc; reflexivity).
      apply IH.
      * rewrite <- app_assoc. exact Hvalid.
      * rewrite proof_end_snoc. now apply Hall.
      * rewrite length_app. simpl. lia.
Qed.

Lemma explore_front_initial :
  explore_front self A [(A, 0)] [_state_key A].
Proof.
  assert (Hsame : forall u, reachable self A u ->
            In (_state_key u) [_state_key A] -> u = A).
  { intros u Hu [Hk|[]]. apply Hkey; auto using reachable_refl. }
  constructor.
  - constructor; constructor.
  - intros e [<-|[]]. simpl. lia.
  - intros w Hw Hv. left. exists 0. left. now rewrite (Hsame w Hw Hv).
  - intros q Hq. destruct q as [|s q].
    + left. now left.
    + right. exists [], (s :: q), 0. split; [reflexivity|].
      split; [discriminate|]. split; [now left|simpl; lia].
Qed.

Lemma explore_front_step (cur : CausalProbability) (d : nat)
    (queue : list (CausalProbability * nat)) (visited : list string)
    (all_reached : reached_map) (added : list step) :
  explore_inv self A D ((cur, d) :: queue) visited all_reached ->
  explore_front self A ((cur, d) :: queue) visited ->
  (forall s, In s added ->
     In s (_do_calculus_successors self cur)
     /\ ~ In (_state_key (snd s)) visited) ->
  (forall s, In s (_do_calculus_successors self cur) ->
     In (_state_key (snd s))
        (visited ++ map (fun s => _state_key (snd s)) added)) ->
  explore_front self A
    (queue ++ map (fun s => (snd s, S d)) added)
    (visited ++ map (fun s => _state_key (snd s)) added).
Proof.
  intros Inv Fr Ha Hsucc.
  destruct (ei_queue Inv (cur, d) (or_introl eq_refl)) as [Hcq Hcurv].
  cbn [fst] in Hcurv.
  assert (Hcur : reachable self A cur).
  { destruct Hcq as [q [Hq [Hend _]]]. exists q. now split. }
  assert (Hndcur : NoDup (do_conditions cur))
    by (eapply reachable_no_repeated; eauto).
  assert (Hraw : forall s, rule_produces self cur s ->
            In (_state_key (snd s))
               (visited ++ map (fun s => _state_key (snd s)) added)).
  { intros s Hs.
    destruct (produced_has_successor self cur s Hndcur Hs)
      as [lbl' [u' [Hin Hk]]].
    rewrite <- Hk. apply (Hsucc (lbl', u')). exact Hin. }
  assert (Hmono : forall k, In k visited ->
            In k (visited ++ map (fun s => _state_key (snd s)) added))
    by (intros k Hk; apply in_or_app; now left).
  pose proof (ef_sorted Fr) as Hsorted.
  inversion Hsorted as [|? ? Hsorted' Hhead]; subst.
  rewrite Forall_forall in Hhead.
  assert (Hold : forall e, In e queue -> (d <= snd e <= S d)%nat).
  { intros e He. split; [now apply (Hhead e)|].
    apply (ef_bound Fr e). now right. }
  assert (Hnewd : forall e, In e (map (fun s : step => (snd s, S d)) added) ->
            snd e = S d).
  { intros e He. apply in_map_iff in He. now destruct He as [s [<- _]]. }
  assert (Hall : forall e,
            In e (queue ++ map (fun s : step => (snd s, S d)) added) ->
            (d <= snd e <= S d)%nat).
  { intros e He. apply in_app_or in He. destruct He as [He|He];
      [now apply Hold|]. rewrite (Hnewd e He). lia. }
  assert (Hclosed : forall w, reachable self A w ->
            In (_state_key w)
               (visited ++ map (fun s => _state_key (snd s)) added) ->
            (exists d', In (w, d')
                          (queue ++ map (fun s : step => (snd s, S d)) added))
            \/ (forall s, rule_produces self w s ->
                  In (_state_key (snd s))
                     (visited ++ map (fun s => _state_key (snd s)) added))).
  { intros w Hw Hv. apply in_app_or in Hv. destruct Hv as [Hv|Hv].
    - destruct (ef_closed Fr w Hw Hv) as [[d' [Hp|Hp]]|Hs].
      + inversion Hp; subst. now right.
      + left. exists d'. apply in_or_app. now left.
      + right. intros s Hps. now apply Hmono, Hs.
    - apply in_map_iff in Hv. destruct Hv as [s [Hk Hs]].
      left. exists (S d). apply in_or_app. right.
      destruct (Ha s Hs) as [Hin _].
      assert (Hre : reachable self A (snd s)).
      { apply (reachable_step self A cur s Hcur).
        now apply successors_are_produced. }
      rewrite <- (Hkey _ _ Hre Hw Hk).
      apply (in_map (fun s : step => (snd s, S d))). exact Hs. }
  constructor.
  - apply StronglySorted_app_intro; [assumption| |].
    + apply (StronglySorted_constant _ snd (S d)). exact Hnewd.
    + intros x y Hx Hy. destruct (Hold x Hx) as [_ Hxd].
      rewrite (Hnewd y Hy). lia.
  - assert (Hb : forall Q : list (CausalProbability * nat),
              (forall e, In e Q -> (d <= snd e <= S d)%nat) ->
              forall e, In e Q ->
                (snd e <= S (match Q with
                             | [] => 0
                             | e0 :: _ => snd e0
                             end))%nat).
    { intros Q HQ e He. destruct (HQ e He) as [_ Hup].
      destruct Q as [|e0 rest]; [contradiction|].
      destruct (HQ e0 (or_introl eq_refl)) as [Hlow _]. lia. }
    apply Hb. exact Hall.
  - exact Hclosed.
  - intros q Hq. destruct (ef_frontier Fr q Hq)
      as [Hv|[q1 [q2 [d' [Heq [Hne [Hin Hlen]]]]]]].
    + left. now apply Hmono.
    + destruct Hin as [Hin|Hin].
      * injection Hin as Hc Hd'. subst d' q.
        destruct q2 as [|s q2]; [congruence|].
        assert (Hs : rule_produces self cur s).
        { rewrite Hc. apply valid_proof_app in Hq. simpl in Hq. tauto. }
        replace (q1 ++ s :: q2) with ((q1 ++ [s]) ++ q2)
          by (rewrite <- app_assoc; reflexivity).
        apply (explore_follow
                 (queue ++ map (fun s : step => (snd s, S d)) added)
                 (visited ++ map (fun s => _state_key (snd s)) added)
                 (S d) Hclosed).
        -- intros e He. now destruct (Hall e He).
        -- rewrite <- app_assoc. exact Hq.
        -- rewrite proof_end_snoc. now apply Hraw.
        -- rewrite length_app. simpl. lia.
      * right. exists q1, q2, d'. split; [assumption|].
        split; [assumption|]. split; [|assumption].
        apply in_or_app. now left.
Qed.

Lemma explore_loop_complete (fuel : nat) :
  forall queue visited all_reached final,
    explore_inv self A D queue visited all_reached ->
    explore_front self A queue visited ->
    explore_loop self D fuel queue visited all_reached = Some final ->
    forall q, valid_proof self A q -> (List.length q <= D)%nat ->
      In (_state_key (proof_end A q)) (map fst final).
Proof.
  induction fuel as [|fuel IH]; intros queue visited all final Inv Fr Hloop;
    [discriminate|].
  pose proof (explore_loop_sound self A D (S fuel) _ _ _ _ Inv Hloop)
    as [_ [_ [_ Hincl]]].
  cbn [explore_loop] in Hloop.
  destruct queue as [|[cur d] queue'].
  - intros q Hq _. apply Hincl.
    destruct (ef_frontier Fr q Hq) as [Hv|[q1 [q2 [d [_ [_ [[] _]]]]]]].
    exact Hv.
  - pose proof (ef_sorted Fr) as Hsorted.
    inversion Hsorted as [|? ? _ Hhead]; subst.
    rewrite Forall_forall in Hhead.
    destruct (Nat.leb D d) eqn:Ed.
    + intros q Hq Hlen. apply Nat.leb_le in Ed. apply Hincl.
      destruct (ef_frontier Fr q Hq)
        as [Hv|[q1 [q2 [d' [Heq [Hne [Hin Hl]]]]]]]; [exact Hv|].
      exfalso.
      assert (Hd : (d <= d')%nat).
      { destruct Hin as [Hin|Hin]; [inversion Hin; lia|].
        apply (Hhead _ Hin). }
      subst q. rewrite length_app in Hlen.
      destruct q2; [congruence|]. simpl in Hlen. lia.
    + apply Nat.leb_gt in Ed.
      destruct (explore_scan_spec d (_do_calculus_successors self cur)
                  queue' visited all (ei_keys Inv))
        as [added [Heq [Ha [Hnda Hs]]]].
      rewrite Heq in Hloop.
      apply (IH _ _ _ _
               (explore_inv_step self A D cur d queue' visited all added
                  Inv Ed Ha Hnda)
               (explore_front_step cur d queue' visited all added
                  Inv Fr Ha Hs)
               Hloop).
Qed.

End ExploreComplete.

(** X19.  The exploration is exhaustive within its depth bound: when the
    start term repeats no intervention and state keys tell apart the terms
    reachable from it, every term that a valid proof of at most [max_depth]
    steps reaches from the start is in the returned dict, under its state
    key. *)
Theorem explore_is_exhaustive (self : CausalProofFinder)
    (A : CausalProbability) (depth_arg : option nat) (fuel : nat)
    (final : reached_map) (q : list step) :
  NoDup (do_conditions A) -> key_identifies_terms self A ->
  explore_all_equivalent_expressions self fuel (Term A) depth_arg
  = Ok (Some final) ->
  valid_proof self A q ->
  (List.length q
   <= match depth_arg with None => max_depth self | Some d => d end)%nat ->
  exists lbl, In (_state_key (proof_end A q), (proof_end A q, lbl)) final.
Proof.
  intros Hnd Hkey H Hq Hlen.
  unfold explore_all_equivalent_expressions in H. inversion H as [H'].
  set (D := match depth_arg with None => max_depth self | Some d => d end)
    in *.
  pose proof (explore_loop_complete self A D Hnd Hkey fuel _ _ _ final
                (explore_inv_initial self A D)
                (explore_front_initial self A Hkey) H' q Hq Hlen) as Hin.
  destruct (explore_loop_sound self A D fuel _ _ _ final
              (explore_inv_initial self A D) H') as [_ [_ [Hent _]]].
  apply in_map_iff in Hin. destruct Hin as [[k [t lbl]] [Hk Hin]].
  cbn [fst] in Hk. subst k.
  destruct (Hent _ Hin) as [Hkt Hreach]. cbn [fst snd] in Hkt, Hreach.
  assert (Ht : reachable self A t).
  { destruct Hreach as [[-> _]|[q0 [Hq0 _]]]; [apply reachable_refl|].
    exists (q0 ++ [(lbl, t)]). split; [assumption|apply proof_end_snoc]. }
  assert (Hend : reachable self A (proof_end A q)) by (exists q; auto).
  pose proof (Hkey _ _ Ht Hend (eq_sym Hkt)) as Heq.
  rewrite Heq in Hin. now exists lbl.
Qed.

Lemma explore_is_exhaustive_witness :
  let self := mkFinder [("X", []); ("Z", []); ("Y", [])] 2 in
  let A := CausalProbability_new (OSym "Y") [Do "X" None; Do "Z" None] in
  let q := [(rule_label 3, CausalProbability_new (OSym "Y") [Do "Z" None]);
            (rule_label 3, CausalProbability_new (OSym "Y") [])] in
  exists final lbl,
    explore_all_equivalent_expressions self 50 (Term A) None = Ok (Some final)
    /\ In (_state_key (proof_end A q), (proof_end A q, lbl)) final.
Proof.
  intros self A q.
  destruct (explore_all_equivalent_expressions self 50 (Term A) None)
    as [[final|]|e] eqn:E; try (vm_compute in E; discriminate).
  exists final.
  destruct (explore_is_exhaustive self A None 50 final q) as [lbl Hl].
  - vm_compute. repeat constructor; simpl; intuition discriminate.
  - apply (key_identifies_by_list self A (reach_terms self 4 [A]));
      vm_compute; auto.
  - exact E.
  - vm_compute. intuition.
  - simpl. lia.
  - exists lbl. split; [reflexivity|exact Hl].
Defined.

(* ================================================================== *)
(** * The constructor: canonical form *)
(* ================================================================== *)

Lemma sorted_conditions_id (l : list condition) :
  StronglySorted cond_le l -> sorted_conditions l = l.
Proof.
  induction 1 as [|c l Hs IH Hall]; [reflexivity|].
  cbn [sorted_conditions fold_right]. fold (sorted_conditions l).
  rewrite IH. destruct l as [|d ds]; [reflexivity|].
  simpl. inversion Hall as [|? ? Hcd _]; subst.
  unfold cond_le in Hcd. now rewrite Hcd.
Qed.

Lemma cond_le_antisym (c d : condition) :
  cond_le c d -> cond_le d c ->
  _condition_sort_key c = _condition_sort_key d.
Proof.
  unfold cond_le, cond_leb, key_leb. intros H1 H2.
  apply key_compare_eq.
  rewrite (key_compare_antisym (_condition_sort_key d)
             (_condition_sort_key c)) in H2.
  destruct (key_compare (_condition_sort_key c) (_condition_sort_key d));
    simpl in *; congruence.
Qed.

Lemma sorted_perm_unique (l1 : list condition) :
  forall l2,
    StronglySorted cond_le l1 -> StronglySorted cond_le l2 ->
    Permutation l1 l2 ->
    (forall c d, In c l1 -> In d l1 ->
       _condition_sort_key c = _condition_sort_key d -> c = d) ->
    l1 = l2.
Proof.
  induction l1 as [|a l1 IH]; intros l2 H1 H2 Hp Hinj.
  - apply Permutation_nil in Hp. now subst.
  - destruct l2 as [|b l2].
    { apply Permutation_sym, Permutation_nil in Hp. discriminate. }
    inversion H1 as [|? ? H1' Ha]; subst.
    inversion H2 as [|? ? H2' Hb]; subst.
    rewrite Forall_forall in Ha, Hb.
    assert (Hab : a = b).
    { assert (Hain : In a (b :: l2))
        by (apply (Permutation_in _ Hp); now left).
      assert (Hbin : In b (a :: l1))
        by (apply (Permutation_in _ (Permutation_sym Hp)); now left).
      destruct Hain as [Heq|Hain]; [now symmetry|].
      destruct Hbin as [Heq|Hbin]; [assumption|].
      apply Hinj; [now left|now right|].
      apply cond_le_antisym; [now apply Ha|now apply Hb]. }
    subst b. f_equal. apply IH; try assumption.
    + eapply Permutation_cons_inv. exact Hp.
    + intros c d Hc Hd. apply Hinj; now right.
Qed.

(** X20.  A term is rebuilt from its own arguments unchanged: constructing a
    term from the outcome and the stored conditions of a constructed term
    gives the same term, and every successor the three enumerators emit is
    such a fixed point of the constructor. *)
Theorem constructor_round_trip :
  (forall y C,
     CausalProbability_new y (_conditions (CausalProbability_new y C))
     = CausalProbability_new y C)
  /\ (forall ce u,
        In u (apply_rule_1_all ce)
        \/ In u (apply_rule_2_all ce)
        \/ (exists outs, apply_rule_3_all ce = Ok outs /\ In u outs) ->
        CausalProbability_new (_outcome u) (_conditions u) = u).
Proof.
  assert (Hfix : forall y C,
            CausalProbability_new y (_conditions (CausalProbability_new y C))
            = CausalProbability_new y C).
  { intros y C. unfold CausalProbability_new. cbn [_conditions]. f_equal.
    apply sorted_conditions_id, sorted_conditions_sorted. }
  split; [exact Hfix|].
  intros ce u [H|[H|[outs [Ho H]]]].
  - apply apply_rule_1_all_In in H. destruct H as [W [_ ->]]. apply Hfix.
  - apply apply_rule_2_all_In in H. destruct H as [idx [Z [_ ->]]].
    apply Hfix.
  - destruct (apply_rule_3_all_In ce outs u Ho H) as [idx ->]. apply Hfix.
Qed.

(** X21.  The order in which conditions are passed does not matter when no
    two different conditions have the same sort key: two permutations of
    such a list give the same term. *)
Theorem constructor_ignores_order (y : outcome) (C C' : list condition) :
  Permutation C C' ->
  (forall c d, In c C -> In d C ->
     _condition_sort_key c = _condition_sort_key d -> c = d) ->
  CausalProbability_new y C = CausalProbability_new y C'.
Proof.
  intros Hp Hinj. unfold CausalProbability_new. f_equal.
  apply sorted_perm_unique.
  - apply sorted_conditions_sorted.
  - apply sorted_conditions_sorted.
  - eapply Permutation_trans;
      [apply Permutation_sym, sorted_conditions_perm|].
    eapply Permutation_trans; [exact Hp|apply sorted_conditions_perm].
  - intros c d Hc Hd. apply Hinj; now apply sorted_conditions_In.
Qed.

Lemma constructor_ignores_order_witness :
  CausalProbability_new (OSym "Y") [Sym "Z"; Do "X" None; Eq "W" (VInt 1)]
  = CausalProbability_new (OSym "Y") [Eq "W" (VInt 1); Sym "Z"; Do "X" None].
Proof.
  apply constructor_ignores_order.
  - apply Permutation_sym.
    apply (Permutation_cons_app [Sym "Z"; Do "X" None] []). simpl.
    apply Permutation_refl.
  - intros c d [<-|[<-|[<-|[]]]] [<-|[<-|[<-|[]]]] H;
      try reflexivity; discriminate H.
Defined.

(* ================================================================== *)
(** * Depth bounds beyond the measure *)
(* ================================================================== *)

Lemma proof_length_le_measure (self : CausalProofFinder) (q : list step) :
  forall A, valid_proof self A q ->
    (List.length q <= rewrite_measure A)%nat.
Proof.
  induction q as [|s q IH]; intros A Hq; simpl; [lia|].
  destruct Hq as [Hs Hq]. specialize (IH _ Hq).
  apply rule_step_decreases in Hs. lia.
Qed.

Lemma bfs_loop_depth_irrelevant (cs : causal_structure) (d1 d2 : nat)
    (A B : CausalProbability) (fuel : nat) :
  (rewrite_measure A < d1)%nat -> (rewrite_measure A < d2)%nat ->
  forall queue visited,
    (forall e, In e queue -> sound_entry (mkFinder cs d1) A visited e) ->
    bfs_loop (mkFinder cs d1) B (_state_key B) fuel queue visited
    = bfs_loop (mkFinder cs d2) B (_state_key B) fuel queue visited.
Proof.
  intros H1 H2.
  induction fuel as [|fuel IH]; intros queue visited Hq; [reflexivity|].
  cbn [bfs_loop]. destruct queue as [|[cur path] queue']; [reflexivity|].
  pose proof (Hq _ (or_introl eq_refl)) as Hcur.
  assert (Hlen : (List.length path <= rewrite_measure A)%nat).
  { destruct Hcur as [Hv _]. cbn [snd] in Hv.
    now apply (proof_length_le_measure (mkFinder cs d1)). }
  cbn [max_depth].
  replace (Nat.leb d1 (List.length path)) with false
    by (symmetry; apply Nat.leb_gt; lia).
  replace (Nat.leb d2 (List.length path)) with false
    by (symmetry; apply Nat.leb_gt; lia).
  destruct (_are_expressions_equivalent cur B
            || String.eqb (_state_key cur) (_state_key B)); [reflexivity|].
  change (_do_calculus_successors (mkFinder cs d2) cur)
    with (_do_calculus_successors (mkFinder cs d1) cur).
  assert (Hrest : forall e, In e queue' ->
            sound_entry (mkFinder cs d1) A visited e)
    by (intros e He; apply Hq; now right).
  pose proof (scan_sound (mkFinder cs d1) A B cur path
                (_do_calculus_successors (mkFinder cs d1) cur)
                (successors_are_produced (mkFinder cs d1) cur)
                queue' visited Hcur Hrest) as Hscan.
  destruct (scan_successors _ _ _ _ _ _) as [new_path|queue'' visited''];
    [reflexivity|].
  now apply IH.
Qed.

(** X22.  A depth bound above the measure of the start term is as good as
    any other: the single-term search returns the same answer for every two
    values of [max_depth] that exceed the number of conditions plus the
    number of interventions of the start term. *)
Theorem depth_bound_beyond_measure (cs : causal_structure) (d1 d2 : nat)
    (A B : CausalProbability) (fuel : nat) :
  (rewrite_measure A < d1)%nat -> (rewrite_measure A < d2)%nat ->
  _find_proof_single (mkFinder cs d1) fuel A B
  = _find_proof_single (mkFinder cs d2) fuel A B.
Proof.
  intros H1 H2. unfold _find_proof_single.
  destruct (_are_expressions_equivalent A B); [reflexivity|].
  apply (bfs_loop_depth_irrelevant cs d1 d2 A B fuel H1 H2).
  intros e [<-|[]]. repeat split; simpl.
  - repeat constructor. intros [].
  - intros k Hk. exact Hk.
Qed.

Lemma depth_bound_beyond_measure_witness :
  let cs := [("X", ["Y"]); ("Z", []); ("Y", [])] in
  let A := CausalProbability_new (OSym "Y") [Do "X" None; Do "Z" None] in
  let B := CausalProbability_new (OSym "Y") [Sym "X"] in
  _find_proof_single (mkFinder cs 5) 30 A B
  = _find_proof_single (mkFinder cs 10) 30 A B.
Proof.
  intros cs A B. apply depth_bound_beyond_measure; vm_compute; lia.
Defined.

(* ================================================================== *)
(** * Names outside the graph *)
(* ================================================================== *)

Lemma is_d_separated_absent_end (g : DiGraph) (start end_ : string)
    (Zs : list string) :
  ~ In end_ (nodes g) -> start <> end_ ->
  is_d_separated g start end_ Zs = Ok true.
Proof.
  intros Hn Hne. unfold is_d_separated.
  apply String.eqb_neq in Hne. rewrite Hne.
  apply mem_str_not_In in Hn. unfold has_node. rewrite Hn.
  now rewrite orb_true_r.
Qed.

(** X23.  A name that is not a vertex passes every test it is the subject
    of: Rule 1 emits (up to rendering) the successor that drops an observed
    variable missing from the graph, and Rule 2 the successor that turns an
    intervention on a variable missing from the graph into an observation,
    whatever the edges and the other conditions are. *)
Theorem unknown_variable_always_passes (ce : CausalExpr) :
  (forall W, In W (obs_vars_of (_conditions (expression ce))) ->
     ~ In W (nodes (graph ce)) ->
     str_outcome (_outcome (expression ce)) <> W ->
     exists u, In u (apply_rule_1_all ce)
               /\ str_CP u
                  = str_CP (rule_1_candidate (_outcome (expression ce))
                              (_conditions (expression ce)) W))
  /\ (forall idx Z, In (idx, Z) (do_entries (_conditions (expression ce))) ->
        ~ In Z (nodes (graph ce)) ->
        str_outcome (_outcome (expression ce)) <> Z ->
        exists u, In u (apply_rule_2_all ce)
                  /\ str_CP u
                     = str_CP (rule_2_candidate (_outcome (expression ce))
                                 (_conditions (expression ce)) idx Z)).
Proof.
  split.
  - intros W HW Hn Hne. rewrite apply_rule_1_all_fold.
    destruct (fold_emit_spec string (fun W => passes (rule_1_test ce W))
                (rule_1_candidate (_outcome (expression ce))
                   (_conditions (expression ce)))
                (obs_vars_of (_conditions (expression ce))) ([], [])
                seen_tracks_outs_nil) as [_ [_ [_ H4]]].
    apply H4; [assumption|]. apply passes_true. unfold rule_1_test.
    now apply is_d_separated_absent_end.
  - intros idx Z He Hn Hne. rewrite apply_rule_2_all_fold.
    destruct (fold_emit_spec (nat * string)
                (fun e => passes (rule_2_test ce (fst e) (snd e)))
                (fun e => rule_2_candidate (_outcome (expression ce))
                            (_conditions (expression ce)) (fst e) (snd e))
                (do_entries (_conditions (expression ce))) ([], [])
                seen_tracks_outs_nil) as [_ [_ [_ H4]]].
    apply (H4 (idx, Z)); [assumption|]. apply passes_true.
    unfold rule_2_test. cbn [fst snd].
    now apply is_d_separated_absent_end.
Qed.

Lemma is_ancestor_of_obs_raises (g : DiGraph) (Z : string)
    (obs : list string) (e : exn) :
  is_ancestor_of_obs g Z obs = Raise e -> e = NodeNotFound.
Proof.
  induction obs as [|W obs IH]; simpl; [discriminate|].
  unfold has_path. destruct (has_node g Z && has_node g W).
  - destruct (mem_str W _); [discriminate|exact IH].
  - intros H. now inversion H.
Qed.

Lemma rule_3_loop_raises (ce : CausalExpr) (entries : list (nat * string)) :
  forall todo st e,
    rule_3_loop ce entries todo st = Raise e -> e = NodeNotFound.
Proof.
  induction todo as [|[idx Z] todo IH]; intros st e; simpl; [discriminate|].
  destruct (is_ancestor_of_obs _ Z _) as [b|e'] eqn:Ea; cbn [bind].
  - apply IH.
  - intros H. inversion H; subst. eapply is_ancestor_of_obs_raises.
    exact Ea.
Qed.

(** X24.  One name outside the graph switches Rule 3 off for the whole
    term: when the term has an observation and intervenes on a variable
    that is not a vertex, or has an intervention and its first observed
    variable is not a vertex, [apply_rule_3_all] raises [NodeNotFound]
    (from [nx.has_path], which the [except nx.NetworkXError] does not
    catch), so no successor of the term carries the label of Rule 3. *)
Theorem rule_3_disabled_by_unknown (ce : CausalExpr) :
  (exists idx Z, In (idx, Z) (do_entries (_conditions (expression ce)))
                 /\ ~ In Z (nodes (graph ce))
                 /\ obs_vars_of (_conditions (expression ce)) <> [])
  \/ (do_entries (_conditions (expression ce)) <> []
      /\ exists W rest,
           obs_vars_of (_conditions (expression ce)) = W :: rest
           /\ ~ In W (nodes (graph ce))) ->
  apply_rule_3_all ce = Raise NodeNotFound
  /\ forall s, In s (rule_outputs ce) -> fst s <> rule_label 3.
Proof.
  intros H.
  assert (Hbad : exists idx Z,
            In (idx, Z) (do_entries (_conditions (expression ce)))
            /\ rule_3_test ce idx Z = Raise NodeNotFound).
  { destruct H as [[idx [Z [He [Hn Hobs]]]]|[Hent [W [rest [Hobs Hn]]]]].
    - exists idx, Z. split; [assumption|]. unfold rule_3_test.
      destruct (obs_vars_of (_conditions (expression ce))) as [|W rest];
        [congruence|].
      cbn [is_ancestor_of_obs]. unfold has_path, has_node.
      cbn [nodes mutilated].
      apply mem_str_not_In in Hn. now rewrite Hn.
    - destruct (do_entries (_conditions (expression ce))) as [|[idx Z] ents]
        eqn:Ee; [congruence|].
      exists idx, Z. split; [now left|]. unfold rule_3_test.
      rewrite Hobs. cbn [is_ancestor_of_obs]. unfold has_path, has_node.
      cbn [nodes mutilated].
      apply mem_str_not_In in Hn. rewrite Hn. now rewrite andb_false_r. }
  destruct Hbad as [idx [Z [He Ht]]].
  assert (Hraise : apply_rule_3_all ce = Raise NodeNotFound).
  { unfold apply_rule_3_all.
    destruct (rule_3_loop ce _ _ _) as [st'|e] eqn:El; cbn [bind].
    - apply rule_3_loop_ok in El. destruct El as [Hall _].
      destruct (Hall (idx, Z) He) as [b Hb]. cbn [fst snd] in Hb. congruence.
    - apply rule_3_loop_raises in El. now subst. }
  split; [exact Hraise|].
  intros s Hs. unfold rule_outputs in Hs. rewrite Hraise in Hs.
  rewrite app_nil_r in Hs. apply in_app_or in Hs.
  destruct Hs as [Hs|Hs]; apply in_map_iff in Hs;
    destruct Hs as [u [<- _]]; discriminate.
Qed.

Lemma rule_3_disabled_by_unknown_witness :
  let ce := CausalExpr_init
              (CausalProbability_new (OSym "Y") [Do "X" None; Sym "W"])
              [("X", ["Y"])] in
  apply_rule_3_all ce = Raise NodeNotFound
  /\ forall s, In s (rule_outputs ce) -> fst s <> rule_label 3.
Proof.
  intros ce. apply rule_3_disabled_by_unknown. right. split.
  - vm_compute. discriminate.
  - exists "W", []. split; [reflexivity|].
    vm_compute. intros [H|[H|[]]]; discriminate.
Defined.

(* ================================================================== *)
(** * The moral graph of a whole graph *)
(* ================================================================== *)

Lemma parent_pairs_distinct (l : list string) (p q : string) :
  NoDup l -> In (p, q) (parent_pairs l) -> p <> q.
Proof.
  induction l as [|a l IH]; intros Hnd Hin; [contradiction|].
  inversion Hnd as [|? ? Ha Hnd']; subst. simpl in Hin.
  apply in_app_or in Hin. destruct Hin as [Hin|Hin].
  - apply in_map_iff in Hin. destruct Hin as [x [Heq Hx]].
    inversion Heq; subst. intros ->. contradiction.
  - now apply IH.
Qed.

Lemma NoDup_predecessors (G : DiGraph) (c : string) :
  NoDup (edges G) -> NoDup (predecessors G c).
Proof.
  unfold predecessors. generalize (edges G). intros l Hnd.
  induction l as [|[u v] l IH]; [constructor|].
  inversion Hnd as [|? ? Hn Hnd']; subst. simpl.
  destruct (String.eqb v c) eqn:E; [|now apply IH].
  apply String.eqb_eq in E. subst v. simpl. constructor; [|now apply IH].
  intros Hin. apply in_map_iff in Hin. destruct Hin as [[u' v'] [Hu Hf]].
  simpl in Hu. subst u'. apply filter_In in Hf. destruct Hf as [Hf Hv].
  simpl in Hv. apply String.eqb_eq in Hv. subst v'. contradiction.
Qed.

(** X25.  [_get_moral_graph] returns the moral graph: it has the vertices of
    the graph, and two vertices are adjacent exactly when an edge joins them
    in one direction or the other, or when they are two different parents
    of a common child. *)
Theorem moral_graph_adjacency (ce : CausalExpr) (G : DiGraph) :
  wf_graph G -> NoDup (edges G) ->
  gnodes (_get_moral_graph ce G) = nodes G
  /\ forall u v,
       In v (neighbors (_get_moral_graph ce G) u) <->
       In (u, v) (edges G) \/ In (v, u) (edges G)
       \/ (u <> v /\ exists c, In (u, c) (edges G) /\ In (v, c) (edges G)).
Proof.
  intros Hwf Hnd. split; [reflexivity|]. intros u v.
  rewrite neighbors_In. unfold _get_moral_graph, moralize. cbn [gedges].
  assert (Hpair : forall a b,
            In (a, b) (flat_map
                         (fun child => parent_pairs (predecessors G child))
                         (nodes G)) ->
            a <> b /\ exists c, In (a, c) (edges G) /\ In (b, c) (edges G)).
  { intros a b Hin. apply in_flat_map in Hin. destruct Hin as [c [Hc Hp]].
    split.
    - eapply parent_pairs_distinct; [|exact Hp].
      now apply NoDup_predecessors.
    - apply parent_pairs_In in Hp. destruct Hp as [Ha Hb].
      apply predecessors_In in Ha, Hb. now exists c. }
  split.
  - intros [H|H]; apply in_app_or in H; destruct H as [H|H].
    + now left.
    + right. right. exact (Hpair _ _ H).
    + right. now left.
    + right. right. destruct (Hpair _ _ H) as [Hne [c [H1 H2]]].
      split; [congruence|]. exists c. now split.
  - intros [H|[H|[Hne [c [H1 H2]]]]].
    + left. apply in_or_app. now left.
    + right. apply in_or_app. now left.
    + assert (Hc : In c (nodes G)) by now apply (Hwf u c).
      assert (Hpu : In u (predecessors G c)) by now apply predecessors_In.
      assert (Hpv : In v (predecessors G c)) by now apply predecessors_In.
      destruct (parent_pairs_complete _ u v Hpu Hpv Hne) as [Hp|Hp];
        [left|right]; apply in_or_app; right; apply in_flat_map;
        exists c; now split.
Qed.

Lemma moral_graph_adjacency_witness :
  let G := mkDiGraph ["X"; "W"; "Y"] [("X", "W"); ("Y", "W")] in
  let ce := mkCausalExpr (CausalProbability_new (OSym "Y") []) G in
  In "Y" (neighbors (_get_moral_graph ce G) "X").
Proof.
  intros G ce. apply (moral_graph_adjacency ce G).
  - intros u v [H|[H|[]]]; inversion H; subst; simpl; tauto.
  - repeat constructor; simpl; intuition discriminate.
  - right. right. split; [discriminate|]. exists "W".
    split; simpl; tauto.
Defined.

(* ================================================================== *)
(** * Depth-first search for a descendant in a set *)
(* ================================================================== *)

Lemma filter_length_mono (X : Type) (f g : X -> bool) (l : list X) :
  (forall x, In x l -> f x = true -> g x = true) ->
  (List.length (filter f l) <= List.length (filter g l))%nat.
Proof.
  induction l as [|a l IH]; intros H; [simpl; lia|].
  assert (IH' : (List.length (filter f l) <= List.length (filter g l))%nat)
    by (apply IH; intros x Hx; apply H; now right).
  simpl. destruct (f a) eqn:Ef.
  - rewrite (H a (or_introl eq_refl) Ef). simpl. lia.
  - destruct (g a); simpl; lia.
Qed.

Lemma filter_length_strict (X : Type) (f g : X -> bool) (l : list X) (a : X) :
  (forall x, In x l -> f x = true -> g x = true) ->
  In a l -> f a = false -> g a = true ->
  (List.length (filter f l) < List.length (filter g l))%nat.
Proof.
  induction l as [|b l IH]; intros H Ha Hf Hg; [contradiction|].
  assert (Hmono : (List.length (filter f l) <= List.length (filter g l))%nat)
    by (apply filter_length_mono; intros x Hx; apply H; now right).
  simpl. destruct Ha as [->|Ha].
  - rewrite Hf, Hg. simpl. lia.
  - assert (IH' : (List.length (filter f l) < List.length (filter g l))%nat)
      by (apply IH; try assumption; intros x Hx; apply H; now right).
    destruct (f b) eqn:Ef.
    + rewrite (H b (or_introl eq_refl) Ef). simpl. lia.
    + destruct (g b); simpl; lia.
Qed.

Lemma unvisited_mono (G : DiGraph) (v1 v2 : list string) :
  incl v1 v2 -> (unvisited G v2 <= unvisited G v1)%nat.
Proof.
  intros Hi. unfold unvisited. apply filter_length_mono.
  intros x _ Hx. apply negb_true_iff, mem_str_not_In in Hx.
  apply negb_true_iff, mem_str_not_In. intros H. apply Hx. now apply Hi.
Qed.

Lemma unvisited_add (G : DiGraph) (visited : list string) (node : string) :
  In node (nodes G) -> ~ In node visited ->
  (unvisited G (visited ++ [node]) < unvisited G visited)%nat.
Proof.
  intros Hn Hv. unfold unvisited.
  apply (filter_length_strict _ _ _ _ node).
  - intros x _ Hx. apply negb_true_iff, mem_str_not_In in Hx.
    apply negb_true_iff, mem_str_not_In. intros H. apply Hx.
    apply in_or_app. now left.
  - exact Hn.
  - apply negb_false_iff, mem_str_In, in_or_app. right. now left.
  - now apply negb_true_iff, mem_str_not_In.
Qed.

Section Descend.
Variable G : DiGraph.
Variable S : list string.
Hypothesis Hwf : wf_graph G.

Lemma descend_children_ok
    (rec : string -> list string -> option (result (bool * list string)))
    (bound : nat) :
  (forall child visited, In child (nodes G) ->
     (unvisited G visited < bound)%nat ->
     descend_ok G S child visited (rec child visited)) ->
  forall children visited,
    (forall c, In c children -> In c (nodes G)) ->
    (unvisited G visited < bound)%nat ->
    exists b v,
      descend_children rec S children visited = Some (Ok (b, v))
      /\ incl visited v
      /\ (b = true ->
          exists c, In c children
                    /\ (In c S \/ descendant_in G c S))
      /\ (b = false ->
          (forall c, In c children -> In c v /\ ~ In c S)
          /\ closed_beyond G S visited v).
Proof.
  intros Hrec.
  induction children as [|c children IH]; intros visited Hnodes Hb;
    cbn [descend_children].
  - exists false, visited. split; [reflexivity|]. split; [apply incl_refl|].
    split; [discriminate|]. intros _. split; [intros c []|].
    intros x Hx Hnx. contradiction.
  - destruct (mem_str c S) eqn:Ec.
    + exists true, visited. split; [reflexivity|]. split; [apply incl_refl|].
      split; [|discriminate]. intros _. exists c. split; [now left|].
      left. now apply mem_str_In.
    + apply mem_str_not_In in Ec.
      destruct (Hrec c visited (Hnodes c (or_introl eq_refl)) Hb)
        as [b1 [v1 [Hr [Hi1 [Ht1 Hf1]]]]].
      rewrite Hr. destruct b1.
      * exists true, v1. split; [reflexivity|]. split; [assumption|].
        split; [|discriminate]. intros _. exists c. split; [now left|].
        right. now apply Ht1.
      * destruct (Hf1 eq_refl) as [Hc1 Hcl1].
        destruct (IH v1) as [b2 [v2 [Hr2 [Hi2 [Ht2 Hf2]]]]].
        { intros c' Hc'. apply Hnodes. now right. }
        { pose proof (unvisited_mono G visited v1 Hi1). lia. }
        exists b2, v2. split; [assumption|].
        split; [eapply incl_tran; eassumption|]. split.
        -- intros Hb2. destruct (Ht2 Hb2) as [c' [Hc' Hd]].
           exists c'. split; [now right|assumption].
        -- intros Hb2. destruct (Hf2 Hb2) as [Hall Hcl2]. split.
           ++ intros c' [<-|Hc']; [|now apply Hall].
              split; [now apply Hi2|assumption].
           ++ intros x Hx Hnx y Hxy.
              destruct (mem_str x v1) eqn:Ex.
              ** apply mem_str_In in Ex.
                 destruct (Hcl1 x Ex Hnx y Hxy) as [Hy Hys].
                 split; [now apply Hi2|assumption].
              ** apply mem_str_not_In in Ex. now apply (Hcl2 x Hx Ex y).
Qed.

Lemma has_descendant_in_set_ok (fuel : nat) :
  forall node visited,
    In node (nodes G) -> (unvisited G visited < fuel)%nat ->
    descend_ok G S node visited
      (has_descendant_in_set fuel G node S visited).
Proof.
  induction fuel as [|fuel IH]; intros node visited Hn Hb; [lia|].
  cbn [has_descendant_in_set].
  destruct (mem_str node visited) eqn:Ev.
  - apply mem_str_In in Ev. exists false, visited.
    split; [reflexivity|]. split; [apply incl_refl|].
    split; [discriminate|]. intros _. split; [assumption|].
    intros x Hx Hnx. contradiction.
  - apply mem_str_not_In in Ev. unfold has_node.
    rewrite (proj2 (mem_str_In node (nodes G)) Hn).
    destruct (descend_children_ok
                (fun child v => has_descendant_in_set fuel G child S v)
                fuel IH (successors G node) (visited ++ [node]))
      as [b [v [Hr [Hi [Ht Hf]]]]].
    + intros c Hc. apply successors_In in Hc. now apply (Hwf node c).
    + pose proof (unvisited_add G visited node Hn Ev). lia.
    + exists b, v. split; [exact Hr|].
      split; [intros x Hx; apply Hi, in_or_app; now left|]. split.
      * intros Hbt. destruct (Ht Hbt) as [c [Hc Hd]].
        apply successors_In in Hc.
        destruct Hd as [Hd|[d [l [Hd [Hl Hw]]]]].
        -- exists c, [c]. split; [assumption|]. split; [discriminate|].
           constructor; [exact Hc|constructor].
        -- exists d, (c :: l). split; [assumption|]. split; [discriminate|].
           constructor; assumption.
      * intros Hbf. destruct (Hf Hbf) as [Hall Hcl].
        assert (Hnode : In node v) by (apply Hi, in_or_app; right; now left).
        split; [exact Hnode|].
        intros x Hx Hnx y Hxy. destruct (string_dec x node) as [->|Hne].
        -- apply Hall. now apply successors_In.
        -- apply (Hcl x Hx); [|exact Hxy].
           intros Hin. apply in_app_or in Hin.
           destruct Hin as [Hin|[Hin|[]]]; [contradiction|congruence].
Qed.

Lemma closed_has_no_descendant (v : list string) (node : string) :
  In node v -> closed_beyond G S [] v -> ~ descendant_in G node S.
Proof.
  intros Hn Hcl [d [l [Hd [Hl Hw]]]].
  assert (H : forall x l d, walk (edge_rel G) x l d -> In x v -> l <> [] ->
            ~ In d S).
  { clear Hn Hd Hl Hw node d l. intros x l d Hw.
    induction Hw as [x|x u l d Hxu Hw IH]; intros Hx Hl; [congruence|].
    destruct (Hcl x Hx (fun H => H) u Hxu) as [Hu Hus].
    destruct l as [|w l].
    - inversion Hw; subst. exact Hus.
    - apply IH; [assumption|discriminate]. }
  exact (H node l d Hw Hn Hl Hd).
Qed.

End Descend.

(** X26.  [has_descendant_in_set] is a correct search: called on a vertex
    with no [visited] set, it returns [True] exactly when some vertex of the
    given set is reached from the vertex along at least one edge (a vertex
    counts as its own descendant only through a cycle), and it never needs
    more nested calls than the graph has vertices; called on a name the
    graph does not have, it raises [NetworkXError]. *)
Theorem has_descendant_in_set_correct (G : DiGraph) (S : list string)
    (node : string) (fuel : nat) :
  wf_graph G -> (List.length (nodes G) < fuel)%nat ->
  (In node (nodes G) ->
   exists b v,
     has_descendant_in_set fuel G node S [] = Some (Ok (b, v))
     /\ (b = true <-> descendant_in G node S))
  /\ (~ In node (nodes G) ->
      has_descendant_in_set fuel G node S [] = Some (Raise NetworkXError)).
Proof.
  intros Hwf Hfuel. split.
  - intros Hn.
    destruct (has_descendant_in_set_ok G S Hwf fuel node [] Hn)
      as [b [v [Hr [_ [Ht Hf]]]]].
    { unfold unvisited.
      pose proof (filter_length_le (fun n => negb (mem_str n []))
                    (nodes G)). lia. }
    exists b, v. split; [exact Hr|]. split; [exact Ht|].
    intros Hd. destruct b; [reflexivity|]. exfalso.
    destruct (Hf eq_refl) as [Hin Hcl].
    exact (closed_has_no_descendant G S v node Hin Hcl Hd).
  - intros Hn. destruct fuel as [|fuel]; [lia|].
    cbn [has_descendant_in_set mem_str existsb]. unfold has_node.
    apply mem_str_not_In in Hn. now rewrite Hn.
Qed.

Lemma has_descendant_in_set_correct_witness :
  let G := mkDiGraph ["A"; "B"; "C"; "D"]
                     [("A", "B"); ("B", "C"); ("C", "A"); ("D", "A")] in
  (exists b v,
     has_descendant_in_set 5 G "A" ["A"] [] = Some (Ok (b, v))
     /\ (b = true <-> descendant_in G "A" ["A"]))
  /\ has_descendant_in_set 5 G "A" ["D"] [] = Some (Ok (false, ["A"; "B"; "C"])).
Proof.
  intros G. split; [|vm_compute; reflexivity].
  apply (has_descendant_in_set_correct G ["A"] "A" 5).
  - intros u v [H|[H|[H|[H|[]]]]]; inversion H; subst; simpl; tauto.
  - simpl. lia.
  - simpl. tauto.
Defined.

(* ================================================================== *)
(** * Suggestions *)
(* ================================================================== *)

Lemma all_dsep_loop_vacuous (Y : string) (do_vars obs_vars : list string)
    (g_do : DiGraph) (todo : list string) :
  (forall z, In z todo -> ~ In z (nodes g_do) /\ Y <> z) ->
  all_dsep_loop Y do_vars obs_vars g_do todo = Ok true.
Proof.
  induction todo as [|z todo IH]; intros H; [reflexivity|].
  cbn [all_dsep_loop]. unfold _custom_d_separation.
  destruct (H z (or_introl eq_refl)) as [Hn Hne].
  rewrite (is_d_separated_absent_end _ _ _ _ Hn Hne). cbn [bind].
  apply IH. intros z' Hz'. apply H. now right.
Qed.

Lemma suggest_loop_never_all (ce : CausalExpr) (Y : string)
    (do_vars obs_vars : list string) (g_do : DiGraph) (todo : list string) :
  forall suggestions out y,
    suggest_loop ce Y do_vars obs_vars g_do false todo suggestions = Ok out ->
    In (No_conditioning_needed y) out ->
    In (No_conditioning_needed y) suggestions.
Proof.
  induction todo as [|z todo IH]; intros sug out y; cbn [suggest_loop].
  - intros H. now inversion H.
  - destruct (has_edge (graph ce) z Y).
    + destruct (any_has_path (graph ce) z obs_vars) as [m|e]; cbn [bind];
        [|discriminate].
      destruct (_custom_d_separation Y z _ g_do) as [b|e]; cbn [bind];
        [|discriminate].
      cbn [andb]. intros H Hin. apply (IH _ _ _ H) in Hin.
      destruct b.
      * apply in_app_or in Hin. destruct Hin as [Hin|[Hin|[]]];
          [assumption|destruct m; discriminate].
      * apply in_app_or in Hin. destruct Hin as [Hin|[Hin|[]]];
          [|discriminate].
        apply in_app_or in Hin. destruct Hin as [Hin|[Hin|[]]];
          [assumption|destruct m; discriminate].
    + cbn [bind].
      destruct (_custom_d_separation Y z _ g_do) as [b|e]; cbn [bind];
        [|discriminate].
      cbn [andb]. intros H Hin. apply (IH _ _ _ H) in Hin.
      destruct b; [assumption|].
      apply in_app_or in Hin. destruct Hin as [Hin|[Hin|[]]];
        [assumption|discriminate].
Qed.

(** X27.  [suggest_fix] reads an observation with a value by its printed
    form, which is no vertex: whenever none of the printed observations of
    a term is a vertex of the graph (and none prints like the outcome), and
    there is at least one, the only suggestion is that no conditioning is
    necessary, whatever the edges of the graph. *)
Theorem suggest_fix_vacuous (ce : CausalExpr) :
  suggest_obs_vars (_conditions (expression ce)) <> [] ->
  (forall z, In z (suggest_obs_vars (_conditions (expression ce))) ->
     ~ In z (nodes (graph ce))
     /\ str_outcome (_outcome (expression ce)) <> z) ->
  suggest_fix ce
  = Ok [No_conditioning_needed (str_outcome (_outcome (expression ce)))].
Proof.
  intros Hne Hall. unfold suggest_fix.
  rewrite all_dsep_loop_vacuous.
  - cbn [bind andb].
    destruct (suggest_obs_vars (_conditions (expression ce)));
      [congruence|reflexivity].
  - intros z Hz. unfold _create_intervention_graph.
    rewrite nodes_fold_remove_incoming. now apply Hall.
Qed.

Lemma suggest_fix_vacuous_witness :
  suggest_fix
    (CausalExpr_init
       (CausalProbability_new (OSym "Y") [Eq "X" (VInt 0)])
       [("X", ["Y"])])
  = Ok [No_conditioning_needed "Y"].
Proof.
  apply (suggest_fix_vacuous
           (CausalExpr_init
              (CausalProbability_new (OSym "Y") [Eq "X" (VInt 0)])
              [("X", ["Y"])])).
  - vm_compute. discriminate.
  - vm_compute. intros z [<-|[]]. split; [|discriminate].
    intros [H|[H|[]]]; discriminate.
Defined.

(** X28.  The message that no conditioning is necessary never comes with
    another suggestion: a term without observations gets no suggestion at
    all, and a list of suggestions that holds that message holds nothing
    else (the branch that would append it inside the second loop is never
    taken). *)
Theorem suggest_fix_all_or_nothing (ce : CausalExpr) :
  (suggest_obs_vars (_conditions (expression ce)) = [] ->
   suggest_fix ce = Ok [])
  /\ (forall out y,
        suggest_fix ce = Ok out -> In (No_conditioning_needed y) out ->
        out = [No_conditioning_needed
                 (str_outcome (_outcome (expression ce)))]).
Proof.
  unfold suggest_fix. split.
  - intros ->. reflexivity.
  - intros out y.
    destruct (all_dsep_loop _ _ _ _ _) as [all_dsep|e]; cbn [bind];
      [|discriminate].
    destruct (suggest_obs_vars (_conditions (expression ce))) as [|z obs]
      eqn:Eobs.
    + rewrite andb_false_r. cbn [suggest_loop]. intros H. inversion H.
      intros [].
    + cbn [negb]. rewrite andb_true_r. destruct all_dsep.
      * intros H _. now inversion H.
      * intros H Hin. exfalso.
        exact (suggest_loop_never_all _ _ _ _ _ _ _ _ _ H Hin).
Qed.

(* ================================================================== *)
(** * Separation survives the removal of edges *)
(* ================================================================== *)

Lemma ancestral_incl (G G' : DiGraph) (S S' : list string) (x : string) :
  incl (edges G') (edges G) -> incl S' S ->
  ancestral G' S' x -> ancestral G S x.
Proof.
  intros He Hs [n [l [Hn Hw]]]. exists n, l. split; [now apply Hs|].
  eapply walk_incl; [|exact Hw]. intros a b Hab. now apply He.
Qed.

Lemma moral_adj_incl (G G' : DiGraph) (S S' Zs Zs' : list string)
    (u v : string) :
  incl (edges G') (edges G) -> incl S' S -> incl Zs Zs' ->
  moral_adj G' S' Zs' u v -> moral_adj G S Zs u v.
Proof.
  intros He Hs Hz [Hu [Hv [Hzu [Hzv H]]]].
  split; [eapply ancestral_incl; eassumption|].
  split; [eapply ancestral_incl; eassumption|].
  split; [intros Hin; apply Hzu; now apply Hz|].
  split; [intros Hin; apply Hzv; now apply Hz|].
  destruct H as [H|[H|[c [Hc [H1 H2]]]]].
  - left. now apply He.
  - right. left. now apply He.
  - right. right. exists c.
    split; [eapply ancestral_incl; eassumption|]. split; now apply He.
Qed.

Lemma is_d_separated_Ok_vertices (G : DiGraph) (s t : string)
    (Zs : list string) (b : bool) :
  s <> t -> In s (nodes G) -> In t (nodes G) ->
  is_d_separated G s t Zs = Ok b ->
  forall z, In z Zs -> In z (nodes G).
Proof.
  intros Hne Hs Ht H z Hz.
  destruct (mem_str z (nodes G)) eqn:E; [now apply mem_str_In|].
  apply mem_str_not_In in E.
  rewrite (is_d_separated_unknown G s t Zs z Hne Hs Ht Hz E) in H.
  discriminate.
Qed.

(** A separation in a graph holds in every graph with the same vertices
    and fewer edges, for every listing of the conditioning set. *)
Lemma is_d_separated_mono (G G' : DiGraph) (s t : string)
    (Zs Zs' : list string) :
  wf_graph G -> wf_graph G' -> nodes G' = nodes G ->
  incl (edges G') (edges G) -> (forall z, In z Zs <-> In z Zs') ->
  is_d_separated G s t Zs = Ok true ->
  is_d_separated G' s t Zs' = Ok true.
Proof.
  intros Hwf Hwf' Hn He Hz H.
  destruct (string_dec s t) as [->|Hne].
  { unfold is_d_separated in H. rewrite String.eqb_refl in H. discriminate. }
  destruct (mem_str s (nodes G)) eqn:Es.
  2:{ apply is_d_separated_absent_start; [|assumption].
      rewrite Hn. now apply mem_str_not_In. }
  destruct (mem_str t (nodes G)) eqn:Et.
  2:{ apply is_d_separated_absent_end; [|assumption].
      rewrite Hn. now apply mem_str_not_In. }
  apply mem_str_In in Es, Et.
  pose proof (is_d_separated_Ok_vertices G s t Zs true Hne Es Et H) as HZ.
  destruct (is_d_separated_decides G s t Zs Hwf Es Et Hne HZ)
    as [c [Hc Hiff]].
  destruct (is_d_separated_decides G' s t Zs' Hwf') as [c' [Hc' Hiff']];
    try (rewrite Hn; assumption); try assumption.
  { intros z Hz'. rewrite Hn. apply HZ. now apply Hz. }
  rewrite Hc'. rewrite Hc in H. destruct c; [discriminate|].
  destruct c'; [|reflexivity]. exfalso.
  assert (Hconn : moral_connected G (s :: t :: Zs) Zs s t).
  { destruct (proj1 Hiff' eq_refl) as [l Hw]. exists l.
    eapply walk_incl; [|exact Hw]. intros a b Hab.
    eapply moral_adj_incl; [exact He| | |exact Hab].
    - intros x [<-|[<-|Hx]]; [now left|right; now left|].
      right. right. now apply Hz.
    - intros x Hx. now apply Hz. }
  apply Hiff in Hconn. discriminate.
Qed.

Lemma mutilated_wf (G : DiGraph) (bars unders : list string) :
  wf_graph G -> wf_graph (mutilated G bars unders).
Proof.
  intros Hwf u v Huv. unfold mutilated in *. cbn [nodes edges] in *.
  apply filter_In in Huv. now apply Hwf.
Qed.

Lemma mutilated_incl (G : DiGraph) (bars bars' unders unders' : list string) :
  incl bars bars' -> incl unders unders' ->
  incl (edges (mutilated G bars' unders')) (edges (mutilated G bars unders)).
Proof.
  intros Hb Hu e He. unfold mutilated in *. cbn [edges] in *.
  apply filter_In in He. destruct He as [He Hp]. apply filter_In.
  split; [assumption|].
  apply andb_true_iff in Hp. destruct Hp as [H1 H2].
  apply negb_true_iff, mem_str_not_In in H1, H2.
  apply andb_true_iff. split; apply negb_true_iff, mem_str_not_In;
    intros Hin; [apply H1; now apply Hb|apply H2; now apply Hu].
Qed.

(** X29.  More surgery never destroys a separation: when the oracle
    answers [True] on the graph with the edges into some vertices and out of
    some vertices removed, it answers [True] on the graph with the edges of
    more vertices removed as well, and on every graph with the same vertices
    and fewer edges, whatever the order and repetition in the conditioning
    set. *)
Theorem separation_survives_surgery (G : DiGraph) (s t : string)
    (Zs Zs' : list string) :
  wf_graph G -> (forall z, In z Zs <-> In z Zs') ->
  (forall bars bars' unders unders',
     incl bars bars' -> incl unders unders' ->
     is_d_separated (mutilated G bars unders) s t Zs = Ok true ->
     is_d_separated (mutilated G bars' unders') s t Zs' = Ok true)
  /\ (forall G', wf_graph G' -> nodes G' = nodes G ->
        incl (edges G') (edges G) ->
        is_d_separated G s t Zs = Ok true ->
        is_d_separated G' s t Zs' = Ok true).
Proof.
  intros Hwf Hz. split.
  - intros bars bars' unders unders' Hb Hu.
    apply is_d_separated_mono; try assumption.
    + now apply mutilated_wf.
    + now apply mutilated_wf.
    + reflexivity.
    + now apply mutilated_incl.
  - intros G' Hwf' Hn He. now apply is_d_separated_mono.
Qed.

Lemma separation_survives_surgery_witness :
  let G := mkDiGraph ["X"; "Y"; "U"] [("U", "X"); ("X", "Y")] in
  is_d_separated (mutilated G [] ["X"]) "Y" "X" ["U"] = Ok true
  /\ is_d_separated (mutilated G ["X"] ["X"]) "Y" "X" ["U"; "U"] = Ok true.
Proof.
  intros G. split; [vm_compute; reflexivity|].
  assert (Hwf : wf_graph G).
  { intros u v [H|[H|[]]]; inversion H; subst; simpl; tauto. }
  destruct (separation_survives_surgery G "Y" "X" ["U"] ["U"; "U"] Hwf)
    as [H _].
  { intros z. simpl. tauto. }
  apply (H [] ["X"] ["X"] ["X"]).
  - intros x [].
  - apply incl_refl.
  - vm_compute. reflexivity.
Defined.

(* ================================================================== *)
(** * Rule 3 against Rule 2 followed by Rule 1 *)
(* ================================================================== *)

Lemma insert_cond_first (c : condition) (l : list condition) :
  (forall d, In d l -> cond_le c d) -> insert_cond c l = c :: l.
Proof.
  intros H. destruct l as [|d ds]; [reflexivity|]. simpl.
  specialize (H d (or_introl eq_refl)). unfold cond_le in H. now rewrite H.
Qed.

Lemma cond_le_trans (a b c : condition) :
  cond_le a b -> cond_le b c -> cond_le a c.
Proof. unfold cond_le, cond_leb. apply key_leb_trans. Qed.

Lemma filter_insert_sorted (p : condition -> bool) (c : condition)
    (l : list condition) :
  StronglySorted cond_le l ->
  filter p (insert_cond c l)
  = if p c then insert_cond c (filter p l) else filter p l.
Proof.
  induction 1 as [|d ds Hs IH Hall]; [simpl; now destruct (p c)|].
  rewrite Forall_forall in Hall.
  cbn [insert_cond]. destruct (cond_leb c d) eqn:Ecd.
  - cbn [filter]. destruct (p c); [|reflexivity].
    symmetry. apply insert_cond_first. intros e He.
    assert (Hin : In e (d :: ds)).
    { destruct (p d).
      - destruct He as [<-|He]; [now left|].
        right. apply filter_In in He. tauto.
      - right. apply filter_In in He. tauto. }
    destruct Hin as [<-|Hin]; [exact Ecd|].
    apply (cond_le_trans c d e); [exact Ecd|now apply Hall].
  - cbn [filter]. rewrite IH. destruct (p d) eqn:Epd.
    + destruct (p c); [|reflexivity]. cbn [insert_cond]. now rewrite Ecd.
    + reflexivity.
Qed.

Lemma filter_sorted_conditions (p : condition -> bool) (l : list condition) :
  filter p (sorted_conditions l) = sorted_conditions (filter p l).
Proof.
  induction l as [|c l IH]; [reflexivity|].
  cbn [sorted_conditions fold_right]. fold (sorted_conditions l).
  rewrite filter_insert_sorted by apply sorted_conditions_sorted.
  rewrite IH. cbn [filter]. now destruct (p c).
Qed.

Lemma set_at_filter_drop (Z : string) (conds : list condition) :
  forall idx v,
    nth_error conds idx = Some (Do Z v) ->
    (forall c, In c conds -> dropped_by Z c = false) ->
    filter (fun c => negb (dropped_by Z c)) (set_at idx (Sym Z) conds)
    = remove_at idx conds.
Proof.
  induction conds as [|c conds IH]; intros idx v Hn Hall.
  - destruct idx; discriminate.
  - assert (Hid : filter (fun c => negb (dropped_by Z c)) conds = conds).
    { apply forallb_filter_id, forallb_forall. intros d Hd.
      rewrite (Hall d (or_intror Hd)). reflexivity. }
    destruct idx as [|idx]; cbn [set_at remove_at filter].
    + cbn [dropped_by]. rewrite String.eqb_refl. exact Hid.
    + rewrite (Hall c (or_introl eq_refl)). cbn [negb]. f_equal.
      apply (IH idx v); [exact Hn|]. intros d Hd. apply Hall. now right.
Qed.

Lemma not_obs_not_dropped (Z : string) (conds : list condition) :
  ~ In Z (obs_vars_of conds) ->
  forall c, In c conds -> dropped_by Z c = false.
Proof.
  intros Hn c Hc. destruct (dropped_by Z c) eqn:E; [|reflexivity].
  exfalso. apply Hn. unfold obs_vars_of. apply in_flat_map.
  exists c. split; [assumption|].
  destruct c as [var val|lhs rhs|name]; simpl in *; [discriminate| |];
    apply String.eqb_eq in E; now left.
Qed.

Lemma do_vars_of_In (l : list condition) (x : string) :
  In x (do_vars_of l) <-> exists v, In (Do x v) l.
Proof.
  unfold do_vars_of. rewrite in_flat_map. split.
  - intros [c [Hc Hx]]. destruct c as [var val| |]; try contradiction.
    destruct Hx as [<-|[]]. now exists val.
  - intros [v Hv]. exists (Do x v). split; [assumption|now left].
Qed.

Lemma obs_vars_of_In (l : list condition) (x : string) :
  In x (obs_vars_of l) <->
  exists c, In c l /\ isinstance_Do c = false /\ cond_var c = x.
Proof.
  unfold obs_vars_of. rewrite in_flat_map. split.
  - intros [c [Hc Hx]]. exists c. split; [assumption|].
    destruct c as [var val|lhs rhs|name]; [contradiction| |];
      destruct Hx as [<-|[]]; now split.
  - intros [c [Hc [Hd Hx]]]. exists c. split; [assumption|].
    destruct c as [var val|lhs rhs|name]; [discriminate| |];
      simpl in *; now left.
Qed.

Lemma set_at_In_iff (x0 : condition) (conds : list condition) :
  forall idx c,
    (idx < List.length conds)%nat ->
    (In c (set_at idx x0 conds) <->
     c = x0 \/ exists j, j <> idx /\ nth_error conds j = Some c).
Proof.
  induction conds as [|d conds IH]; intros idx c Hlt; [simpl in Hlt; lia|].
  destruct idx as [|idx]; cbn [set_at].
  - split.
    + intros [<-|Hin]; [now left|]. right.
      apply In_nth_error in Hin. destruct Hin as [j Hj].
      exists (S j). split; [discriminate|exact Hj].
    + intros [->|[j [Hj Hn]]]; [now left|]. right.
      destruct j as [|j]; [congruence|]. simpl in Hn.
      eapply nth_error_In. exact Hn.
  - simpl in Hlt. assert (Hlt' : (idx < List.length conds)%nat) by lia.
    split.
    + intros [<-|Hin].
      * right. exists 0. split; [discriminate|reflexivity].
      * apply (IH idx c Hlt') in Hin.
        destruct Hin as [->|[j [Hj Hn]]]; [now left|].
        right. exists (S j). split; [congruence|exact Hn].
    + intros [->|[j [Hj Hn]]].
      * right. apply (IH idx x0 Hlt'). now left.
      * destruct j as [|j]; simpl in Hn.
        -- left. now inversion Hn.
        -- right. apply (IH idx c Hlt'). right. exists j.
           split; [congruence|exact Hn].
Qed.

Lemma other_do_vars_In (conds : list condition) (idx : nat) (x : string) :
  In x (other_do_vars_of (do_entries conds) idx) <->
  exists j v, j <> idx /\ nth_error conds j = Some (Do x v).
Proof.
  unfold other_do_vars_of. rewrite in_map_iff. split.
  - intros [[j y] [Hy Hin]]. simpl in Hy. subst y.
    apply filter_In in Hin. destruct Hin as [Hin Hne]. simpl in Hne.
    apply negb_true_iff, Nat.eqb_neq in Hne.
    apply do_entries_In in Hin. destruct Hin as [v Hv]. now exists j, v.
  - intros [j [v [Hne Hn]]]. exists (j, x). split; [reflexivity|].
    apply filter_In. split.
    + apply do_entries_In. now exists v.
    + simpl. now apply negb_true_iff, Nat.eqb_neq.
Qed.

Section Subsumed.
Variable ce : CausalExpr.
Variable idx : nat.
Variable Z : string.
Hypothesis Hentry : In (idx, Z) (do_entries (_conditions (expression ce))).
Hypothesis Hfresh : ~ In Z (obs_vars_of (_conditions (expression ce))).

Lemma converted_position :
  exists v, nth_error (_conditions (expression ce)) idx = Some (Do Z v)
            /\ (idx < List.length (_conditions (expression ce)))%nat.
Proof.
  apply do_entries_In in Hentry. destruct Hentry as [v Hv]. exists v.
  split; [assumption|]. apply nth_error_Some. congruence.
Qed.

Lemma converted_do_vars (x : string) :
  In x (do_vars_of
          (_conditions
             (rule_2_candidate (_outcome (expression ce))
                (_conditions (expression ce)) idx Z)))
  <-> In x (other_do_vars_of (do_entries (_conditions (expression ce))) idx).
Proof.
  destruct converted_position as [v [Hn Hlt]].
  unfold rule_2_candidate, CausalProbability_new. cbn [_conditions].
  rewrite do_vars_of_In, other_do_vars_In. split.
  - intros [w Hw]. apply (proj1 (sorted_conditions_In _ _)) in Hw.
    apply (proj1 (set_at_In_iff _ _ _ _ Hlt)) in Hw.
    destruct Hw as [Hw|[j [Hj Hjn]]]; [discriminate|]. now exists j, w.
  - intros [j [w [Hj Hjn]]]. exists w. apply (proj2 (sorted_conditions_In _ _)).
    apply (proj2 (set_at_In_iff _ _ _ _ Hlt)). right. now exists j.
Qed.

Lemma converted_obs_vars (x : string) :
  In x (obs_vars_of
          (_conditions
             (rule_2_candidate (_outcome (expression ce))
                (_conditions (expression ce)) idx Z)))
  <-> x = Z \/ In x (obs_vars_of (_conditions (expression ce))).
Proof.
  destruct converted_position as [v [Hn Hlt]].
  unfold rule_2_candidate, CausalProbability_new. cbn [_conditions].
  rewrite !obs_vars_of_In. split.
  - intros [c [Hc [Hd Hx]]]. apply (proj1 (sorted_conditions_In _ _)) in Hc.
    apply (proj1 (set_at_In_iff _ _ _ _ Hlt)) in Hc.
    destruct Hc as [->|[j [Hj Hjn]]]; [left; now symmetry|].
    right. exists c. split; [eapply nth_error_In; exact Hjn|now split].
  - intros [->|[c [Hc [Hd Hx]]]].
    + exists (Sym Z). split; [|now split].
      apply (proj2 (sorted_conditions_In _ _)).
      apply (proj2 (set_at_In_iff _ _ _ _ Hlt)). now left.
    + exists c. split; [|now split].
      apply (proj2 (sorted_conditions_In _ _)).
      apply (proj2 (set_at_In_iff _ _ _ _ Hlt)). right.
      apply In_nth_error in Hc. destruct Hc as [j Hj]. exists j.
      split; [|assumption]. intros ->. rewrite Hn in Hj.
      inversion Hj; subst. discriminate.
Qed.

Lemma converted_then_dropped :
  rule_1_candidate (_outcome (expression ce))
    (_conditions
       (rule_2_candidate (_outcome (expression ce))
          (_conditions (expression ce)) idx Z)) Z
  = rule_3_candidate (_outcome (expression ce))
      (_conditions (expression ce)) idx.
Proof.
  destruct converted_position as [v [Hn _]].
  unfold rule_1_candidate, rule_2_candidate, rule_3_candidate,
    CausalProbability_new. cbn [_conditions]. f_equal.
  rewrite filter_sorted_conditions.
  rewrite (sorted_conditions_id (sorted_conditions _))
    by apply sorted_conditions_sorted.
  f_equal. apply (set_at_filter_drop Z _ idx v Hn).
  now apply not_obs_not_dropped.
Qed.

End Subsumed.

(** X30.  Rule 3 does in one step what Rule 2 followed by Rule 1 does in
    two: for an intervention on a variable [Z] that the term does not also
    observe, turning the intervention into an observation and then dropping
    that observation gives exactly the term Rule 3 gives; and when the test
    of Rule 1 for [Z] passes on the converted term, the test of Rule 3 for
    the intervention passes on the original term, provided its reachability
    check does not raise. *)
Theorem rule_3_subsumes_rule_2_then_rule_1 (ce : CausalExpr) (idx : nat)
    (Z : string) :
  wf_graph (graph ce) ->
  In (idx, Z) (do_entries (_conditions (expression ce))) ->
  ~ In Z (obs_vars_of (_conditions (expression ce))) ->
  rule_1_candidate (_outcome (expression ce))
    (_conditions
       (rule_2_candidate (_outcome (expression ce))
          (_conditions (expression ce)) idx Z)) Z
  = rule_3_candidate (_outcome (expression ce))
      (_conditions (expression ce)) idx
  /\ (rule_1_test
        (mkCausalExpr
           (rule_2_candidate (_outcome (expression ce))
              (_conditions (expression ce)) idx Z)
           (graph ce)) Z = Ok true ->
      (exists b,
         is_ancestor_of_obs
           (mutilated (graph ce)
              (other_do_vars_of (do_entries (_conditions (expression ce)))
                 idx) [])
           Z (obs_vars_of (_conditions (expression ce))) = Ok b) ->
      rule_3_test ce idx Z = Ok true).
Proof.
  intros Hwf Hentry Hfresh.
  split; [now apply converted_then_dropped|].
  intros H1 [b Hb]. unfold rule_3_test. rewrite Hb. cbn [bind].
  f_equal. apply passes_true.
  unfold rule_1_test in H1. cbn [expression graph] in H1.
  cbn [rule_2_candidate CausalProbability_new _outcome] in H1.
  revert H1. apply is_d_separated_mono.
  - now apply mutilated_wf.
  - now apply mutilated_wf.
  - reflexivity.
  - apply mutilated_incl; [|apply incl_refl].
    intros x Hx. apply (converted_do_vars ce idx Z Hentry) in Hx.
    destruct b; [assumption|apply in_or_app; now left].
  - intros z. rewrite !in_app_iff, filter_In, negb_true_iff, String.eqb_neq.
    rewrite (converted_do_vars ce idx Z Hentry z).
    rewrite (converted_obs_vars ce idx Z Hentry z).
    split.
    + intros [H|[[H|H] Hne]]; [now left|congruence|now right].
    + intros [H|H]; [now left|]. right. split; [now right|].
      intros ->. contradiction.
Qed.

Lemma rule_3_subsumes_rule_2_then_rule_1_witness :
  let ce := CausalExpr_init
              (CausalProbability_new (OSym "Y") [Do "Z" None; Sym "W"])
              [("W", ["Y"]); ("Z", [])] in
  rule_3_test ce 0 "Z" = Ok true.
Proof.
  intros ce.
  apply (rule_3_subsumes_rule_2_then_rule_1 ce 0 "Z").
  - intros u v [H|[]]. inversion H; subst. simpl. tauto.
  - vm_compute. now left.
  - vm_compute. intros [H|[]]. discriminate.
  - vm_compute. reflexivity.
  - exists false. vm_compute. reflexivity.
Defined.
